(** * CineFlix: the movie service and the components built on it

    A shallow embedding of [src/services/movieService.ts] and of the
    logic of [src/components/DownloadModal.tsx] and
    [src/components/HeroSection.tsx], together with the pieces of the
    JavaScript runtime they call.

    - The download service ([parseTorrentName], [cleanImdbId],
      [fetchMovieDownloads]): failure isolation, deduplication by hash,
      the dead-torrent filter, the ranking by seeds, the per-source
      formatting rules, and the requests a call sends.
    - The streaming sources ([getStreamingSources]).
    - The TMDB client ([fetchFromTMDB] and its cache,
      [processContentItem], [processContentList], [fetchCategory],
      [getMovieDetails], [searchMulti], [getSimilarByGenre]).
    - The download modal ([loadTorrents], [getMagnetLink],
      [getFastServerLink]) and the hero carousel ([nextSlide],
      [displayGenres]). *)

From Stdlib Require Import List ZArith NArith String Ascii Bool Lia.
From Stdlib Require Import Permutation Sorted DecimalString.
From Stdlib Require DecimalPos DecimalN.
Import ListNotations.

Local Open Scope N_scope.

(** ** The JavaScript runtime used by the service *)

Module JS.

(** A JavaScript string is a sequence of UTF-16 code units. *)
Definition jsstring : Type := list N.

(** ASCII literals of the source, as code units. *)
Definition str (s : string) : jsstring :=
  map N_of_ascii (list_ascii_of_string s).
Arguments str s%_string.

Fixpoint eqb (a b : jsstring) : bool :=
  match a, b with
  | [], [] => true
  | x :: a', y :: b' => (x =? y) && eqb a' b'
  | _, _ => false
  end.

(** Numbers.  The service handles counts (seeds, peers), byte sizes and
    timestamps; they are integers, and [NaN] is what [parseInt] and
    arithmetic on a missing value produce.  [Int z] stands for the number
    whose value is [z]. *)
Inductive number : Type :=
| NaN
| Int (z : Z).

(** The safe integers ([Number.MIN_SAFE_INTEGER] to
    [Number.MAX_SAFE_INTEGER]).  On them the source's numbers are the
    integers themselves: [parseInt] does not round, division by a power of
    two is exact, and [toFixed] and the conversion to a string print every
    digit.  Beyond them a number is rounded to 53 significant bits, and from
    10^21 on it is printed in exponent notation; the embedding does not
    cover that range, and every property that depends on the digits of a
    number is stated for safe integers. *)
Definition MAX_SAFE_INTEGER : Z := 9007199254740991.

Definition safe_integer (z : Z) : Prop :=
  (- MAX_SAFE_INTEGER <= z <= MAX_SAFE_INTEGER)%Z.

(** [a > b]: false as soon as one side is [NaN]. *)
Definition gt (a b : number) : bool :=
  match a, b with
  | Int x, Int y => (y <? x)%Z
  | _, _ => false
  end.

(** [a - b] and [a * b]. *)
Definition sub (a b : number) : number :=
  match a, b with
  | Int x, Int y => Int (x - y)
  | _, _ => NaN
  end.

Definition mul (a b : number) : number :=
  match a, b with
  | Int x, Int y => Int (x * y)
  | _, _ => NaN
  end.

(** [a / d] for a positive constant [d]: an exact quotient, or [NaN]. *)
Inductive quotient : Type :=
| QNaN
| Quot (num : Z) (den : positive).

Definition div (a : number) (d : positive) : quotient :=
  match a with
  | Int x => Quot x d
  | NaN => QNaN
  end.

(** Errors a JavaScript operation can throw, and completions. *)
Inductive error : Type :=
| TypeError      (* property read on null or undefined, call of a non-function *)
| URIError       (* encodeURIComponent on an unpaired surrogate *)
| SyntaxError    (* response.json() on a body that is not JSON *)
| NetworkError.  (* fetch() rejected *)

Inductive completion (A : Type) : Type :=
| Normal (a : A)
| Throw (e : error).
Arguments Normal {A} a.
Arguments Throw {A} e.

Definition cmap {A B} (f : A -> B) (c : completion A) : completion B :=
  match c with
  | Normal a => Normal (f a)
  | Throw e => Throw e
  end.

(** Reading a property of a value that may be [null]/[undefined]. *)
Definition deref {A} (v : option A) : completion A :=
  match v with
  | Some a => Normal a
  | None => Throw TypeError
  end.

(** A value read from an upstream body where the service expects a
    number.  The service copies such a value as it is, and converts it only
    where it compares or subtracts.  The conversion ([ToNumber]) gives a
    number, or throws a [TypeError] when the value is an object or an array
    that cannot be converted to a primitive, such as [{"toString": 0}].  A
    value is represented by what its conversion gives. *)
Inductive jsvalue : Type :=
| Number (n : number)
| Unconvertible.

Definition ToNumber (v : jsvalue) : completion number :=
  match v with
  | Number n => Normal n
  | Unconvertible => Throw TypeError
  end.

(** [Array.prototype.map] and [filter] with a callback that may throw. *)
Fixpoint mapM {A B} (f : A -> completion B) (l : list A) : completion (list B) :=
  match l with
  | [] => Normal []
  | x :: l' =>
      match f x with
      | Normal y => cmap (cons y) (mapM f l')
      | Throw e => Throw e
      end
  end.

Fixpoint filterM {A} (f : A -> completion bool) (l : list A) : completion (list A) :=
  match l with
  | [] => Normal []
  | x :: l' =>
      match f x with
      | Normal b => cmap (fun r => if b then x :: r else r) (filterM f l')
      | Throw e => Throw e
      end
  end.

(** *** Strings *)

(** White space and line terminators, as [trim] and [parseInt] skip them. *)
Definition isWhiteSpace (c : N) : bool :=
  existsb (N.eqb c)
    [9; 10; 11; 12; 13; 32; 160; 5760; 8232; 8233; 8239; 8287; 12288; 65279]
  || ((8192 <=? c) && (c <=? 8202)).

Fixpoint trimStart (s : jsstring) : jsstring :=
  match s with
  | c :: r => if isWhiteSpace c then trimStart r else s
  | [] => []
  end.

Definition trim (s : jsstring) : jsstring :=
  rev (trimStart (rev (trimStart s))).

(** Upper-casing of the ASCII letters.  [toUpperCase] is only ever applied
    by the service to ASCII text (see [parseTorrentName_ascii]). *)
Definition upper (c : N) : N :=
  if (97 <=? c) && (c <=? 122) then c - 32 else c.

Definition toUpperCase (s : jsstring) : jsstring := map upper s.

Definition isDigit (c : N) : bool := (48 <=? c) && (c <=? 57).

(** [String.prototype.replace(pat, by)] with a string pattern: the first
    occurrence only. *)
Fixpoint startsWith (p s : jsstring) : bool :=
  match p, s with
  | [], _ => true
  | x :: p', y :: s' => (x =? y) && startsWith p' s'
  | _ :: _, [] => false
  end.

Fixpoint replace (pat by_ s : jsstring) : jsstring :=
  if startsWith pat s then by_ ++ skipn (List.length pat) s
  else match s with
       | [] => []
       | c :: s' => c :: replace pat by_ s'
       end.

Definition endsWith (s suffix : jsstring) : bool :=
  startsWith (rev suffix) (rev s).

(** *** Regular expressions of the source

    All of them are alternations of ASCII literals, or [S(\d+)E(\d+)],
    with the [i] flag and without the [u] flag.  Under that flag a
    character of the subject matches an ASCII pattern character when their
    canonical (upper-case) forms agree, and a non-ASCII character never
    canonicalises to an ASCII one. *)
Definition ci_eq (c p : N) : bool := upper c =? upper p.

(** The literal [p] at the head of [s]; the result is the matched text. *)
Fixpoint match_here (p s : jsstring) : option jsstring :=
  match p, s with
  | [], _ => Some []
  | pc :: p', c :: s' =>
      if ci_eq c pc then option_map (cons c) (match_here p' s') else None
  | _ :: _, [] => None
  end.

(** An alternation at one position: alternatives are tried left to right. *)
Fixpoint first_alt (alts : list jsstring) (s : jsstring) : option jsstring :=
  match alts with
  | [] => None
  | p :: alts' =>
      match match_here p s with
      | Some m => Some m
      | None => first_alt alts' s
      end
  end.

(** [s.match(/a|b|.../i)?.[0]]: the text of the leftmost match. *)
Fixpoint regexp_match (alts : list jsstring) (s : jsstring) : option jsstring :=
  match first_alt alts s with
  | Some m => Some m
  | None =>
      match s with
      | [] => None
      | _ :: s' => regexp_match alts s'
      end
  end.

(** [regex.test(s)], and the truthiness of [s.match(regex)]. *)
Definition regexp_test (alts : list jsstring) (s : jsstring) : bool :=
  match regexp_match alts s with
  | Some _ => true
  | None => false
  end.

(** The longest run of decimal digits at the head of [s], and the rest. *)
Fixpoint span_digits (s : jsstring) : jsstring * jsstring :=
  match s with
  | c :: r =>
      if isDigit c then let (ds, rest) := span_digits r in (c :: ds, rest)
      else ([], s)
  | [] => ([], [])
  end.

(** [S(\d+)E(\d+)] with flag [i], anchored at the head of [s]: the two
    captured groups.  [\d+] is greedy, and giving digits back can never
    help (the next pattern character is a letter), so each group is the
    whole run of digits. *)
Definition match_SE_here (s : jsstring) : option (jsstring * jsstring) :=
  match s with
  | c :: r =>
      if ci_eq c 83 then
        match span_digits r with
        | (d :: ds, c2 :: r2) =>
            if ci_eq c2 69 then
              match span_digits r2 with
              | (e :: es, _) => Some (d :: ds, e :: es)
              | ([], _) => None
              end
            else None
        | _ => None
        end
      else None
  | [] => None
  end.

(** [s.match(/S(\d+)E(\d+)/i)]: groups 1 and 2 of the leftmost match. *)
Fixpoint regexp_match_SE (s : jsstring) : option (jsstring * jsstring) :=
  match match_SE_here s with
  | Some g => Some g
  | None =>
      match s with
      | [] => None
      | _ :: s' => regexp_match_SE s'
      end
  end.

(** *** [encodeURIComponent]

    Unreserved characters are kept; every other code point is written as
    the percent-escapes of its UTF-8 bytes.  A surrogate code unit that is
    not part of a well-formed pair throws [URIError]. *)
Definition unreserved (c : N) : bool :=
  ((65 <=? c) && (c <=? 90)) || ((97 <=? c) && (c <=? 122)) || isDigit c
  || existsb (N.eqb c) [45; 95; 46; 33; 126; 42; 39; 40; 41].

Definition hexDigit (n : N) : N := if n <? 10 then 48 + n else 55 + n.

Definition percent (byte : N) : jsstring :=
  [37; hexDigit (byte / 16); hexDigit (byte mod 16)].

Definition utf8 (cp : N) : list N :=
  if cp <? 128 then [cp]
  else if cp <? 2048 then [192 + cp / 64; 128 + cp mod 64]
  else if cp <? 65536 then
    [224 + cp / 4096; 128 + (cp / 64) mod 64; 128 + cp mod 64]
  else
    [240 + cp / 262144; 128 + (cp / 4096) mod 64;
     128 + (cp / 64) mod 64; 128 + cp mod 64].

Definition isLeadSurrogate (c : N) : bool := (55296 <=? c) && (c <=? 56319).
Definition isTrailSurrogate (c : N) : bool := (56320 <=? c) && (c <=? 57343).

Definition escape (cp : N) : jsstring := flat_map percent (utf8 cp).

Fixpoint encodeURIComponent (s : jsstring) : completion jsstring :=
  match s with
  | [] => Normal []
  | c :: r =>
      if unreserved c then cmap (cons c) (encodeURIComponent r)
      else if isTrailSurrogate c then Throw URIError
      else if isLeadSurrogate c then
        match r with
        | d :: r' =>
            if isTrailSurrogate d then
              cmap (app (escape (65536 + (c - 55296) * 1024 + (d - 56320))))
                   (encodeURIComponent r')
            else Throw URIError
        | [] => Throw URIError
        end
      else cmap (app (escape c)) (encodeURIComponent r)
  end.

(** *** [parseInt] (no radix argument)

    Leading white space, an optional sign, an optional [0x]/[0X] prefix
    selecting radix 16, then the longest run of digits; [NaN] when that run
    is empty.  The result is the integer the digits denote, which is what
    the source computes when that integer is safe. *)
Definition digitValue (c : N) : option N :=
  if isDigit c then Some (c - 48)
  else if (97 <=? c) && (c <=? 122) then Some (c - 87)
  else if (65 <=? c) && (c <=? 90) then Some (c - 55)
  else None.

Fixpoint parseDigits (radix : N) (s : jsstring) (acc : option N) : option N :=
  match s with
  | c :: r =>
      match digitValue c with
      | Some v =>
          if v <? radix
          then parseDigits radix r
                 (Some (radix * match acc with Some a => a | None => 0 end + v))
          else acc
      | None => acc
      end
  | [] => acc
  end.

Definition parseInt (s : jsstring) : number :=
  let s := trimStart s in
  let '(negative, s) :=
    match s with
    | 45 :: r => (true, r)
    | 43 :: r => (false, r)
    | _ => (false, s)
    end in
  let '(radix, s) :=
    match s with
    | 48 :: x :: r => if (x =? 120) || (x =? 88) then (16, r) else (10, s)
    | _ => (10, s)
    end in
  match parseDigits radix s None with
  | Some n => Int (if negative then - Z.of_N n else Z.of_N n)
  | None => NaN
  end.

(** *** [Number.prototype.toFixed]

    [n] is the integer nearest to [x * 10^f] (the larger one on a tie); its
    decimal digits are padded with zeros to [f + 1] characters, and a point
    is inserted before the last [f] of them when [f] is not zero.  This is
    the source's result for a quotient of a safe integer by a power of two
    (from 10^21 on the source prints exponent notation instead). *)
Definition decimal (n : N) : jsstring :=
  str (NilEmpty.string_of_uint (N.to_uint n)).

Definition toFixed (f : nat) (x : quotient) : jsstring :=
  match x with
  | QNaN => str "NaN"
  | Quot num den =>
      let a := Z.abs_N num in
      let d := Npos den in
      let n := (2 * a * 10 ^ N.of_nat f + d) / (2 * d) in
      let m := decimal n in
      let m := repeat 48 (S f - List.length m) ++ m in
      let k := List.length m in
      (if (num <? 0)%Z then [45] else []) ++
      match f with
      | O => m
      | _ => firstn (k - f) m ++ [46] ++ skipn (k - f) m
      end
  end.

(** *** [Array.prototype.sort] with a comparison function

    The sort is stable.  [comparefn x y] greater than zero puts [x] after
    [y]; a [NaN] result counts as zero; a comparison that throws ends the
    sort.  Each element is inserted before the elements that followed it in
    the input, skipping only those it must come after.  Where the
    comparison is consistent and does not throw, as it is on every list the
    service sorts (see [rank_normal]), the stable sorted order is unique, so
    the choice of algorithm does not show. *)
Section Sort.
Context {A : Type} (comparefn : A -> A -> completion number).

Fixpoint insert (x : A) (l : list A) : completion (list A) :=
  match l with
  | [] => Normal [x]
  | y :: l' =>
      match comparefn x y with
      | Normal c =>
          if gt c (Int 0) then cmap (cons y) (insert x l') else Normal (x :: l)
      | Throw e => Throw e
      end
  end.

Fixpoint sort (l : list A) : completion (list A) :=
  match l with
  | [] => Normal []
  | x :: l' =>
      match sort l' with
      | Normal sorted => insert x sorted
      | Throw e => Throw e
      end
  end.
End Sort.

(** *** [new Map(entries)] and [map.values()]

    A [Map] keeps its keys in the order of their first insertion; setting a
    key that is present replaces its value in place.  Keys here are
    strings. *)
Section Map.
Context {V : Type}.

Fixpoint map_set (m : list (jsstring * V)) (k : jsstring) (v : V)
  : list (jsstring * V) :=
  match m with
  | [] => [(k, v)]
  | (k', v') :: m' =>
      if eqb k k' then (k', v) :: m' else (k', v') :: map_set m' k v
  end.

Definition Map_add (m : list (jsstring * V)) (entries : list (jsstring * V))
  : list (jsstring * V) :=
  fold_left (fun m e => map_set m (fst e) (snd e)) entries m.

Definition Map (entries : list (jsstring * V)) : list (jsstring * V) :=
  Map_add [] entries.

Definition values (m : list (jsstring * V)) : list V := List.map snd m.
End Map.

End JS.

Import JS.

(** ** The data model *)

(** [Torrent] (imported by the source from [../types]), with the fields the
    service writes.  [seeds] holds whatever the upstream gave: three of the
    four sources copy it unconverted, and the service converts it only in
    its last line, outside every [try]. *)
Record Torrent : Type := {
  url : jsstring;
  hash : jsstring;
  quality : jsstring;
  type : jsstring;
  seeds : jsvalue;
  peers : number;
  size : jsstring;
  date_uploaded : jsstring
}.

Inductive media : Type := movie | tv.

(** The parts of the upstream JSON bodies that the service reads.  An array
    element is an [option]: [None] is a [null] element, on which a property
    read throws.  A field that a source converts inside its [try] block
    (a title it matches, a size it divides) has the type the conversion
    gives: a value there that makes the conversion throw is, for the
    service, a source that failed.  The seeds of YTS, EZTV and
    SolidTorrents are copied as received and converted only after the
    sources have settled, outside every [try]; they are values as
    received. *)
Record eztv_entry : Type := {
  ez_title : jsstring;
  ez_magnet_url : jsstring;
  ez_hash : jsstring;
  ez_seeds : jsvalue;
  ez_peers : number;
  ez_size_bytes : number;
  ez_date_released_unix : number
}.

Record apibay_item : Type := {
  ab_id : jsstring;
  ab_name : jsstring;
  ab_info_hash : jsstring;
  ab_size : jsstring;
  ab_seeders : jsstring;
  ab_leechers : jsstring
}.

Record solid_swarm : Type := {
  sw_seeders : jsvalue;
  sw_leechers : number
}.

Record solid_item : Type := {
  so_title : jsstring;
  so_magnet : jsstring;
  so_infoHash : jsstring;
  so_swarm : option solid_swarm;
  so_size : number
}.

(** The world outside the service.  Each upstream answers a requested URL
    with the completion of [await fetch(url)] followed by
    [await response.json()]: [Throw] is a rejected fetch or a body that does
    not parse; a normal completion carries the array the adapter looks for,
    or [None] when the body has no such array
    ([data.data?.movies?.[0]?.torrents], [data.torrents], the body itself,
    [data.results]).  [toDateString ms] is
    [new Date(ms).toDateString()], which depends on the host's time zone. *)
Record world : Type := {
  yts : jsstring -> completion (option (list (option Torrent)));
  eztv : jsstring -> completion (option (list (option eztv_entry)));
  apibay : jsstring -> completion (option (list (option apibay_item)));
  solidtorrents : jsstring -> completion (option (list (option solid_item)));
  toDateString : number -> jsstring
}.

(** ** Asynchronous computations

    An [async] block of the service is run to its completion; the requests
    it has passed to [fetch] are recorded in order.  The adapters share no
    state, so running them one after the other in the order they are
    started gives the results that [Promise.allSettled] collects. *)
Definition io (A : Type) : Type := (completion A * list jsstring)%type.

Definition ret {A} (a : A) : io A := (Normal a, []).

Definition bind {A B} (m : io A) (f : A -> io B) : io B :=
  match m with
  | (Normal a, l) => let (r, l') := f a in (r, l ++ l')
  | (Throw e, l) => (Throw e, l)
  end.

Notation "x <- c ;; k" := (bind c (fun x => k))
  (at level 61, c at next level, right associativity).

Definition lift {A} (c : completion A) : io A := (c, []).

(** [await fetch(u)] then [await response.json()]. *)
Definition fetch_json {A} (service : jsstring -> completion A) (u : jsstring)
  : io A := (service u, [u]).

(** [try { body } catch (e) { handler }]. *)
Definition try_catch {A} (body : io A) (handler : error -> io A) : io A :=
  match body with
  | (Throw e, l) => let (r, l') := handler e in (r, l ++ l')
  | (Normal a, l) => (Normal a, l)
  end.

(** What the caller of an [async] function observes. *)
Definition outcome {A} (p : io A) : completion A := fst p.
Definition requests {A} (p : io A) : list jsstring := snd p.

(** [Promise.allSettled]. *)
Inductive settled (A : Type) : Type :=
| fulfilled (value : A)
| rejected (reason : error).
Arguments fulfilled {A} value.
Arguments rejected {A} reason.

Definition settle {A} (p : io A) : io (settled A) :=
  (Normal match outcome p with
          | Normal v => fulfilled v
          | Throw e => rejected e
          end, requests p).

Fixpoint allSettled {A} (promises : list (io A)) : io (list (settled A)) :=
  match promises with
  | [] => ret []
  | p :: ps => r <- settle p ;; rs <- allSettled ps ;; ret (r :: rs)
  end.

(** ** [parseTorrentName] *)

Record parsed : Type := { p_quality : jsstring; p_type : jsstring }.

Definition quality_tokens : list jsstring :=
  [str "2160p"; str "4k"; str "1080p"; str "720p"; str "480p"].

Definition type_tokens : list jsstring :=
  [str "bluray"; str "web-dl"; str "webrip"; str "hdrip"; str "dvdrip"].

(** The base type, before the codec suffix. *)
Definition base_type (name : jsstring) : jsstring :=
  match regexp_match type_tokens name with
  | Some m => m
  | None => str "WEBRip"
  end.

Definition parseTorrentName (name : jsstring) : parsed :=
  let quality :=
    match regexp_match quality_tokens name with
    | Some m => m
    | None => str "Unknown"
    end in
  let type := base_type name in
  let type :=
    if regexp_test [str "x265"; str "hevc"] name then type ++ str " (HEVC)"
    else if regexp_test [str "x264"] name then type ++ str " (x264)"
    else type in
  {| p_quality := toUpperCase quality; p_type := toUpperCase type |}.

(** [cleanImdbId]: [null] for a missing or empty id. *)
Definition cleanImdbId (id : option jsstring) : option jsstring :=
  match id with
  | Some (c :: r) => Some (replace (str "tt") [] (c :: r))
  | _ => None
  end.

(** Truthiness of an optional string. *)
Definition truthy (s : option jsstring) : bool :=
  match s with
  | Some (_ :: _) => true
  | _ => false
  end.

(** ** The four sources of [fetchMovieDownloads] *)

(** [`https://corsproxy.io/?url=${encodeURIComponent(u)}`]. *)
Definition proxied (u : jsstring) : completion jsstring :=
  cmap (app (str "https://corsproxy.io/?url=")) (encodeURIComponent u).

(** [meta.quality === 'UNKNOWN' ? 'HD' : meta.quality]. *)
Definition display_quality (q : jsstring) : jsstring :=
  if eqb q (str "UNKNOWN") then str "HD" else q.

(** *** Source 1: YTS (movies only) *)

Definition yts_torrent (t : Torrent) : Torrent :=
  {| url := url t; hash := hash t; quality := quality t; type := type t;
     seeds := seeds t; peers := peers t; size := size t;
     date_uploaded := date_uploaded t |}.

(** The URL requested: by IMDB id when there is one, else by title. *)
Definition yts_request (encodedQuery : jsstring) (imdbId : option jsstring)
  : completion jsstring :=
  let ytsUrl :=
    match imdbId with
    | Some (c :: r) =>
        str "https://yts.mx/api/v2/list_movies.json?query_term="
        ++ (c :: r) ++ str "&limit=1"
    | _ =>
        str "https://yts.mx/api/v2/list_movies.json?query_term="
        ++ encodedQuery ++ str "&limit=10"
    end in
  proxied ytsUrl.

Definition yts_source (w : world) (encodedQuery : jsstring)
    (imdbId : option jsstring) : io (list Torrent) :=
  proxyUrl <- lift (yts_request encodedQuery imdbId) ;;
  data <- fetch_json (yts w) proxyUrl ;;
  match data with
  | Some torrents => lift (mapM (fun t => cmap yts_torrent (deref t)) torrents)
  | None => ret []
  end.

(** *** Source 2: EZTV (TV shows only) *)

Definition eztv_torrent (w : world) (t : eztv_entry) : Torrent :=
  let meta := parseTorrentName (ez_title t) in
  {| url := ez_magnet_url t;
     hash := ez_hash t;
     quality := display_quality (p_quality meta);
     type := p_type meta;
     seeds := ez_seeds t;
     peers := ez_peers t;
     size := toFixed 0 (div (ez_size_bytes t) 1048576) ++ str " MB";
     date_uploaded := toDateString w (mul (ez_date_released_unix t) (Int 1000)) |}.

(** [new RegExp(`S${s}E${e}`, 'i')]: the digits are literal. *)
Definition episode_regex (s e : jsstring) : list jsstring :=
  [83 :: s ++ 69 :: e].

Definition eztv_request (numericId : jsstring) : completion jsstring :=
  let eztvUrl :=
    str "https://eztv.re/api/get-torrents?imdb_id=" ++ numericId
    ++ str "&limit=50" in
  proxied eztvUrl.

Definition eztv_source (w : world) (cleanQuery numericId : jsstring)
  : io (list Torrent) :=
  proxyUrl <- lift (eztv_request numericId) ;;
  data <- fetch_json (eztv w) proxyUrl ;;
  match data with
  | Some torrents =>
      results <- lift
        match regexp_match_SE cleanQuery with
        | Some (s, e) =>
            filterM
              (fun t => cmap (fun t => regexp_test (episode_regex s e) (ez_title t))
                             (deref t))
              torrents
        | None => Normal torrents
        end ;;
      lift (mapM (fun t => cmap (eztv_torrent w) (deref t)) (firstn 8 results))
  | None => ret []
  end.

(** *** Source 3: APIBay *)

Definition apibay_size (sizeBytes : number) : jsstring :=
  if gt sizeBytes (Int 1073741824)
  then toFixed 2 (div sizeBytes 1073741824) ++ str " GB"
  else toFixed 2 (div sizeBytes 1048576) ++ str " MB".

Definition apibay_torrent (item : apibay_item) : completion Torrent :=
  let meta := parseTorrentName (ab_name item) in
  let sizeBytes := parseInt (ab_size item) in
  let sizeStr := apibay_size sizeBytes in
  cmap
    (fun dn =>
       {| url := str "magnet:?xt=urn:btih:" ++ ab_info_hash item
                 ++ str "&dn=" ++ dn
                 ++ str "&tr=udp://tracker.coppersurfer.tk:6969/announce&tr=udp://tracker.openbittorrent.com:6969/announce";
          hash := ab_info_hash item;
          quality := display_quality (p_quality meta);
          type := p_type meta;
          seeds := Number (parseInt (ab_seeders item));
          peers := parseInt (ab_leechers item);
          size := sizeStr;
          date_uploaded := str "Recent" |})
    (encodeURIComponent (ab_name item)).

Definition apibay_request (encodedQuery : jsstring) : completion jsstring :=
  let apibayUrl := str "https://apibay.org/q.php?q=" ++ encodedQuery in
  proxied apibayUrl.

Definition apibay_source (w : world) (encodedQuery : jsstring)
  : io (list Torrent) :=
  proxyUrl <- lift (apibay_request encodedQuery) ;;
  results <- fetch_json (apibay w) proxyUrl ;;
  match results with
  | Some (first :: rest) =>
      first_item <- lift (deref first) ;;
      if negb (eqb (ab_id first_item) (str "0"))
      then lift (mapM (fun item =>
                         match deref item with
                         | Normal item => apibay_torrent item
                         | Throw e => Throw e
                         end)
                      (firstn 8 (first :: rest)))
      else ret []
  | _ => ret []
  end.

(** *** Source 4: SolidTorrents *)

Definition solid_torrent (item : solid_item) : completion Torrent :=
  let meta := parseTorrentName (so_title item) in
  cmap
    (fun swarm =>
       {| url := so_magnet item;
          hash := so_infoHash item;
          quality := display_quality (p_quality meta);
          type := p_type meta;
          seeds := sw_seeders swarm;
          peers := sw_leechers swarm;
          size := toFixed 2 (div (so_size item) 1073741824) ++ str " GB";
          date_uploaded := str "Recent" |})
    (deref (so_swarm item)).

Definition solid_request (encodedQuery : jsstring) : completion jsstring :=
  let solidUrl :=
    str "https://solidtorrents.to/api/v1/search?q=" ++ encodedQuery
    ++ str "&category=Video" in
  proxied solidUrl.

Definition solid_source (w : world) (encodedQuery : jsstring)
  : io (list Torrent) :=
  proxyUrl <- lift (solid_request encodedQuery) ;;
  data <- fetch_json (solidtorrents w) proxyUrl ;;
  match data with
  | Some (first :: rest) =>
      lift (mapM (fun item =>
                    match deref item with
                    | Normal item => solid_torrent item
                    | Throw e => Throw e
                    end)
                 (firstn 8 (first :: rest)))
  | _ => ret []
  end.

(** ** [fetchMovieDownloads] *)

(** [(async () => { try { body } catch (e) { console.warn(..) } return []; })()]:
    the promise of a source never rejects. *)
Definition isolated (body : io (list Torrent)) : io (list Torrent) :=
  try_catch body (fun _ => ret []).

(** The [try] blocks of the sources a call starts, in the order in which
    their promises are pushed. *)
Definition sources (w : world) (cleanQuery encodedQuery : jsstring)
    (kind : media) (imdbId : option jsstring) : list (io (list Torrent)) :=
  match kind with
  | movie => [yts_source w encodedQuery imdbId]
  | tv => []
  end
  ++ match kind with
     | tv =>
         if truthy imdbId then
           match cleanImdbId imdbId with
           | Some (c :: r) => [eztv_source w cleanQuery (c :: r)]
           | _ => []
           end
         else []
     | movie => []
     end
  ++ [apibay_source w encodedQuery]
  ++ [solid_source w encodedQuery].

(** [results.forEach(...)]: the fulfilled values, concatenated. *)
Definition collect (results : list (settled (list Torrent))) : list Torrent :=
  fold_left
    (fun allTorrents result =>
       match result with
       | fulfilled value => allTorrents ++ value
       | rejected _ => allTorrents
       end)
    results [].

(** [Array.from(new Map(allTorrents.map(item => [item.hash, item])).values())]. *)
Definition uniqueTorrents (allTorrents : list Torrent) : list Torrent :=
  values (Map (map (fun item => (hash item, item)) allTorrents)).

(** [t.seeds > 0]. *)
Definition alive (t : Torrent) : completion bool :=
  cmap (fun seeds => gt seeds (Int 0)) (ToNumber (seeds t)).

(** [b.seeds - a.seeds]. *)
Definition bySeeds (a b : Torrent) : completion number :=
  match ToNumber (seeds b) with
  | Normal seeds_b => cmap (fun seeds_a => sub seeds_b seeds_a) (ToNumber (seeds a))
  | Throw e => Throw e
  end.

(** The last two statements of the function: deduplicate, then filter and
    sort.  The filter and the sort are outside every [try]. *)
Definition rank (allTorrents : list Torrent) : completion (list Torrent) :=
  match filterM alive (uniqueTorrents allTorrents) with
  | Normal seeded => sort bySeeds seeded
  | Throw e => Throw e
  end.

Definition fetchMovieDownloads (w : world) (query : jsstring) (kind : media)
    (imdbId : option jsstring) : io (list Torrent) :=
  match query with
  | [] => ret []
  | _ :: _ =>
      let cleanQuery := trim query in
      encodedQuery <- lift (encodeURIComponent cleanQuery) ;;
      let promises :=
        map isolated (sources w cleanQuery encodedQuery kind imdbId) in
      results <- allSettled promises ;;
      lift (rank (collect results))
  end.

(** ** A sample world

    YTS knows one movie with two torrents, EZTV lists three episodes,
    APIBay answers with three rows (one of them also known to YTS, one
    dead), and SolidTorrents is down. *)
Module Sample.

Definition yts_torrents : list (option Torrent) :=
  [Some {| url := str "https://yts.mx/torrent/download/AAA"; hash := str "AAA";
           quality := str "1080p"; type := str "bluray"; seeds := Number (Int 120);
           peers := Int 14; size := str "2.1 GB";
           date_uploaded := str "2024-03-01 10:00:00" |};
   Some {| url := str "https://yts.mx/torrent/download/BBB"; hash := str "BBB";
           quality := str "720p"; type := str "web"; seeds := Number (Int 45);
           peers := Int 3; size := str "1.0 GB";
           date_uploaded := str "2024-03-01 09:00:00" |}].

Definition eztv_entries : list (option eztv_entry) :=
  [Some {| ez_title := str "Show.S02E02.HDTV"; ez_magnet_url := str "magnet:?xt=urn:btih:E22";
           ez_hash := str "E22"; ez_seeds := Number (Int 9); ez_peers := Int 1;
           ez_size_bytes := Int 314572800; ez_date_released_unix := Int 1700000000 |};
   Some {| ez_title := str "Show.s01e02.720p.x264"; ez_magnet_url := str "magnet:?xt=urn:btih:E12";
           ez_hash := str "E12"; ez_seeds := Number (Int 31); ez_peers := Int 2;
           ez_size_bytes := Int 734003200; ez_date_released_unix := Int 1690000000 |};
   Some {| ez_title := str "Show.S01E02.HDTV"; ez_magnet_url := str "magnet:?xt=urn:btih:E12b";
           ez_hash := str "E12b"; ez_seeds := Number (Int 31); ez_peers := Int 5;
           ez_size_bytes := Int 367001600; ez_date_released_unix := Int 1690000000 |}].

Definition apibay_rows : list (option apibay_item) :=
  [Some {| ab_id := str "7001"; ab_name := str "Movie.Name.2024.1080p.BluRay.x265-GROUP";
           ab_info_hash := str "AAA"; ab_size := str "2254857830";
           ab_seeders := str "80"; ab_leechers := str "7" |};
   Some {| ab_id := str "7002"; ab_name := str "Movie Name 2024 CAM";
           ab_info_hash := str "CCC"; ab_size := str "1073741824";
           ab_seeders := str "45"; ab_leechers := str "9" |};
   Some {| ab_id := str "7003"; ab_name := str "Movie.Name.2024.480p.x264";
           ab_info_hash := str "DDD"; ab_size := str "524288000";
           ab_seeders := str "0"; ab_leechers := str "2" |}].

Definition online : world :=
  {| yts := fun _ => Normal (Some yts_torrents);
     eztv := fun _ => Normal (Some eztv_entries);
     apibay := fun _ => Normal (Some apibay_rows);
     solidtorrents := fun _ => Throw NetworkError;
     toDateString := fun _ => str "Tue Nov 14 2023" |}.

(** Every upstream is unreachable. *)
Definition offline : world :=
  {| yts := fun _ => Throw NetworkError;
     eztv := fun _ => Throw NetworkError;
     apibay := fun _ => Throw NetworkError;
     solidtorrents := fun _ => Throw NetworkError;
     toDateString := fun _ => str "Thu Jan 01 1970" |}.

(** YTS answers with an array holding [null] (a shape error), EZTV with a
    body that is not JSON, SolidTorrents is unreachable; APIBay works. *)
Definition degraded : world :=
  {| yts := fun _ => Normal (Some [None]);
     eztv := fun _ => Throw SyntaxError;
     apibay := fun _ => Normal (Some apibay_rows);
     solidtorrents := fun _ => Throw NetworkError;
     toDateString := fun _ => str "Thu Jan 01 1970" |}.

(** YTS answers with a torrent whose [seeds] is an object that cannot be
    converted to a number; the other upstreams are unreachable. *)
Definition unconvertible : world :=
  {| yts := fun _ =>
       Normal (Some [Some {| url := str "https://yts.mx/torrent/download/AAA";
                             hash := str "AAA"; quality := str "1080p";
                             type := str "bluray"; seeds := Unconvertible;
                             peers := Int 14; size := str "2.1 GB";
                             date_uploaded := str "2024-03-01 10:00:00" |}]);
     eztv := fun _ => Throw NetworkError;
     apibay := fun _ => Throw NetworkError;
     solidtorrents := fun _ => Throw NetworkError;
     toDateString := fun _ => str "Thu Jan 01 1970" |}.

End Sample.

(** ** The vocabulary of the properties *)

(** Equality of strings is decidable. *)
Definition jsstring_eq_dec : forall a b : jsstring, {a = b} + {a <> b} :=
  list_eq_dec N.eq_dec.

(** Text made of ASCII code units only. *)
Definition ascii_text (s : jsstring) : Prop := Forall (fun c => c < 128) s.

(** What a source contributes once its failure has been caught. *)
Definition recovered (body : io (list Torrent)) : list Torrent :=
  match outcome body with
  | Normal l => l
  | Throw _ => []
  end.


(** The results of the sources that completed normally, in order. *)
Fixpoint successes (bodies : list (io (list Torrent))) : list (list Torrent) :=
  match bodies with
  | [] => []
  | body :: rest =>
      match outcome body with
      | Normal l => l :: successes rest
      | Throw _ => successes rest
      end
  end.

(** [a >= b] on values that are numbers. *)
Definition ge (a b : jsvalue) : bool :=
  match a, b with
  | Number (Int x), Number (Int y) => (y <=? x)%Z
  | _, _ => false
  end.

(** [a.seeds >= b.seeds]. *)
Definition seeds_ge (a b : Torrent) : Prop := ge (seeds a) (seeds b) = true.

(** The candidates whose seeds are the integer [n]. *)
Definition has_seeds (n : Z) (t : Torrent) : bool :=
  match seeds t with
  | Number (Int z) => (z =? n)%Z
  | _ => false
  end.

(** The seeds of [t] are a number greater than zero. *)
Definition positive_seeds (t : Torrent) : bool :=
  match seeds t with
  | Number (Int z) => (0 <? z)%Z
  | _ => false
  end.

(** The seeds of [t] can be converted to a number. *)
Definition convertible (t : Torrent) : Prop := seeds t <> Unconvertible.

(** The post-filter list of a merged list: its deduplicated candidates
    with a positive number of seeds, in their order. *)
Definition post_filter (allTorrents : list Torrent) : list Torrent :=
  filter positive_seeds (uniqueTorrents allTorrents).


(** [m] is the literal [p] up to the case of ASCII letters. *)
Definition ci_equal (m p : jsstring) : Prop :=
  Forall2 (fun c pc => ci_eq c pc = true) m p.

(** [m] occurs in [s]. *)
Definition occurs (m s : jsstring) : Prop :=
  exists pre post, s = pre ++ m ++ post.

(** [s] contains the literal [p], case-insensitively. *)
Definition contains_ci (s p : jsstring) : Prop :=
  exists m, occurs m s /\ ci_equal m p.

(** Text made of decimal digits only. *)
Definition digits (s : jsstring) : Prop := Forall (fun c => isDigit c = true) s.

(** ["S" ++ s ++ "E" ++ e]. *)
Definition SE (s e : jsstring) : jsstring := 83 :: s ++ 69 :: e.

(** A text of the form [S<digits>E<digits>], in either case. *)
Definition is_episode_pattern (m : jsstring) : Prop :=
  exists s e, ci_equal m (SE s e) /\ s <> [] /\ e <> [] /\ digits s /\ digits e.

(** [kept] is [l] without its elements that do not satisfy [P], the others
    in the order of [l]. *)
Inductive selection {A : Type} (P : A -> Prop) : list A -> list A -> Prop :=
| selection_nil : selection P [] []
| selection_keep x l kept :
    P x -> selection P l kept -> selection P (x :: l) (x :: kept)
| selection_drop x l kept :
    ~ P x -> selection P l kept -> selection P (x :: l) kept.

(** Text made of white space only. *)
Definition blank (ws : jsstring) : Prop := Forall (fun c => isWhiteSpace c = true) ws.

(** The release name of the specification's second scenario. *)
Definition x264_release : jsstring := str "Show.Name.S02E05.720p.WEBRip.x264".

(** A decimal numeral with [f] digits after the point (none, and no point,
    when [f] is zero), after an optional minus sign. *)
Definition fixed_point (f : nat) (negative : bool) (s : jsstring) : Prop :=
  exists ip fp,
    s = (if negative then [45] else []) ++ ip
        ++ match f with O => [] | S _ => 46 :: fp end
    /\ digits ip /\ ip <> [] /\ digits fp /\ List.length fp = f.

(** A row of exactly one GiB. *)
Definition one_gib_row : apibay_item :=
  {| ab_id := str "7002"; ab_name := str "Movie Name 2024 CAM";
     ab_info_hash := str "CCC"; ab_size := str "1073741824";
     ab_seeders := str "45"; ab_leechers := str "9" |}.

(** An EZTV entry of 700 MiB. *)
Definition entry_700_mib : eztv_entry :=
  {| ez_title := str "Show.s01e02.720p.x264";
     ez_magnet_url := str "magnet:?xt=urn:btih:E12"; ez_hash := str "E12";
     ez_seeds := Number (Int 31); ez_peers := Int 2;
     ez_size_bytes := Int 734003200; ez_date_released_unix := Int 1690000000 |}.

(** The quality shown for [t] is not ["UNKNOWN"]. *)
Definition quality_known (t : Torrent) : Prop := quality t <> str "UNKNOWN".

(** ** Vocabulary for the further properties *)

(** The last candidate of [l] that carries the hash [h]. *)
Definition last_with_hash (h : jsstring) (l : list Torrent) : option Torrent :=
  fold_left (fun found t => if eqb (hash t) h then Some t else found) l None.

(** The distinct elements of [l], each at its first occurrence; [seen] are
    the elements met before. *)
Fixpoint first_occurrences (seen l : list jsstring) : list jsstring :=
  match l with
  | [] => []
  | h :: r =>
      if existsb (eqb h) seen then first_occurrences seen r
      else h :: first_occurrences (seen ++ [h]) r
  end.

(** A sequence of UTF-16 code units: every element is below 2^16. *)
Definition code_units (s : jsstring) : Prop := Forall (fun c => c < 65536) s.

(** The characters [encodeURIComponent] can produce: the unreserved ones
    and the percent sign. *)
Definition uri_safe (s : jsstring) : Prop :=
  Forall (fun c => unreserved c = true \/ c = 37) s.

(** The prefix of every proxied request. *)
Definition relay : jsstring := str "https://corsproxy.io/?url=".

(** The value of the last entry of [entries] with key [k], or [found]. *)
Definition last_entry {V} (k : jsstring) (entries : list (jsstring * V))
    (found : option V) : option V :=
  fold_left (fun found e => if eqb (fst e) k then Some (snd e) else found)
    entries found.

(** ** [getStreamingSources] *)

(** A number inside a template literal: its decimal text.  This is the
    source's result for [NaN] and for the safe integers. *)
Definition toString (n : number) : jsstring :=
  match n with
  | NaN => str "NaN"
  | Int z => (if (z <? 0)%Z then [45] else []) ++ decimal (Z.abs_N z)
  end.

Module Streaming.
Record StreamingSource : Type := { name : jsstring; url : jsstring }.
End Streaming.

(** [season] and [episode] default to 1 when they are not given. *)
Definition getStreamingSources (id : number) (media_type : media)
    (season episode : option number) : list Streaming.StreamingSource :=
  let season := match season with Some n => n | None => Int 1 end in
  let episode := match episode with Some n => n | None => Int 1 end in
  let vidSrcCcUrl :=
    match media_type with
    | tv => str "https://vidsrc.cc/v2/embed/tv/" ++ toString id ++ str "/"
            ++ toString season ++ str "/" ++ toString episode
    | movie => str "https://vidsrc.cc/v2/embed/movie/" ++ toString id
    end in
  let vidLinkUrl :=
    match media_type with
    | tv => str "https://vidlink.pro/tv/" ++ toString id ++ str "/"
            ++ toString season ++ str "/" ++ toString episode
    | movie => str "https://vidlink.pro/movie/" ++ toString id
    end in
  let superEmbedUrl :=
    match media_type with
    | tv => str "https://multiembed.mov/?video_id=" ++ toString id
            ++ str "&tmdb=1&s=" ++ toString season ++ str "&e=" ++ toString episode
    | movie => str "https://multiembed.mov/?video_id=" ++ toString id
               ++ str "&tmdb=1"
    end in
  let moviesApiUrl :=
    match media_type with
    | tv => str "https://moviesapi.club/tv/" ++ toString id ++ str "-"
            ++ toString season ++ str "-" ++ toString episode
    | movie => str "https://moviesapi.club/movie/" ++ toString id
    end in
  [ {| Streaming.name := str "Server 1: VidSrc.cc (Fast)";
       Streaming.url := vidSrcCcUrl |};
    {| Streaming.name := str "Server 2: VidLink (Multi-Lang)";
       Streaming.url := vidLinkUrl |};
    {| Streaming.name := str "Server 3: SuperEmbed";
       Streaming.url := superEmbedUrl |};
    {| Streaming.name := str "Server 4: MoviesAPI";
       Streaming.url := moviesApiUrl |} ].

(** ** The download modal ([src/components/DownloadModal.tsx]) *)

(** [getMagnetLink], for the modal's [content.title]. *)
Definition getMagnetLink (title : jsstring) (torrent : Torrent)
  : completion jsstring :=
  if match url torrent with
     | [] => false
     | _ :: _ => startsWith (str "magnet:") (url torrent)
     end
  then Normal (url torrent)
  else
    cmap
      (fun dn =>
         str "magnet:?xt=urn:btih:" ++ hash torrent ++ str "&dn=" ++ dn
         ++ str "&tr=udp://open.demonii.com:1337/announce&tr=udp://tracker.openbittorrent.com:80&tr=udp://tracker.coppersurfer.tk:6969&tr=udp://tracker.leechers-paradise.org:6969")
      (encodeURIComponent title).

(** [getFastServerLink]. *)
Definition getFastServerLink (title : jsstring) (torrent : Torrent)
  : completion jsstring :=
  match getMagnetLink title torrent with
  | Normal magnet =>
      cmap (app (str "https://webtor.io/show?magnet=")) (encodeURIComponent magnet)
  | Throw e => Throw e
  end.

(** [s.padStart(2, '0')]. *)
Definition padStart2 (s : jsstring) : jsstring :=
  repeat 48 (2 - List.length s) ++ s.

(** Truthiness of a number: neither zero nor [NaN]. *)
Definition number_truthy (n : number) : bool :=
  match n with
  | Int z => negb (z =? 0)%Z
  | NaN => false
  end.

(** [n ? n.toString().padStart(2, '0') : '01'], for an optional number. *)
Definition episodeStr (n : option number) : jsstring :=
  match n with
  | Some n => if number_truthy n then padStart2 (toString n) else str "01"
  | None => str "01"
  end.

(** The query [loadTorrents] builds for a TV show:
    [`${content.title} S${seasonStr}E${episodeStr}`]. *)
Definition tv_query (title : jsstring) (season episode : option number)
  : jsstring :=
  title ++ str " S" ++ episodeStr season ++ str "E" ++ episodeStr episode.

(** A season or episode number as the components pass it: absent, or a
    non-negative safe integer. *)
Definition counting (n : option number) : Prop :=
  match n with
  | Some (Int z) => (0 <= z)%Z /\ safe_integer z
  | Some NaN => False
  | None => True
  end.

(** ** The TMDB client ([fetchFromTMDB] and the functions built on it) *)

Module TMDB.

(** What a rejected promise of this part carries: the [DOMException] named
    [AbortError] of an aborted request, the [Error] thrown for a response
    that is not ok, or an error of the runtime (a failed [fetch], a body
    that is not JSON, a read on [undefined]). *)
Inductive failure : Type :=
| AbortError
| HttpError (statusText : jsstring)
| Thrown (e : error).

Inductive promise (A : Type) : Type :=
| Resolves (a : A)
| Rejects (f : failure).
Arguments Resolves {A} a.
Arguments Rejects {A} f.

(** A response of [fetch]: [ok], [statusText], and what [json()] gives. *)
Record response (D : Type) : Type := {
  ok : bool;
  statusText : jsstring;
  json : promise D
}.
Arguments ok {D} r.
Arguments statusText {D} r.
Arguments json {D} r.

(** An entry of [apiCache]. *)
Record cached (D : Type) : Type := { data : D; timestamp : Z }.
Arguments data {D} c.
Arguments timestamp {D} c.

(** [apiCache], a [Map] from cache keys to entries. *)
Definition cache (D : Type) : Type := list (jsstring * cached D).

(** [Map.prototype.get]. *)
Definition Map_get {V} (m : list (jsstring * V)) (k : jsstring) : option V :=
  option_map snd (find (fun e => eqb (fst e) k) m).

(** The browser around the client: the network, and the value stored in
    [localStorage] under [cineStreamAdult] ([None] when there is none; the
    storage is taken to be readable). *)
Record browser (D : Type) : Type := {
  fetch : jsstring -> promise (response D);
  cineStreamAdult : option jsstring
}.
Arguments fetch {D} b u.
Arguments cineStreamAdult {D} b.

(** One call: how its promise settles, the cache it leaves, and the URLs
    it has requested. *)
Record run (D A : Type) : Type := {
  result : promise A;
  apiCache : cache D;
  sent : list jsstring
}.
Arguments result {D A} r.
Arguments apiCache {D A} r.
Arguments sent {D A} r.

Definition API_KEY : jsstring := str "704eac84ae43110c55d1265dccaec186".
Definition API_BASE_URL : jsstring := str "https://api.themoviedb.org/3".
Definition CACHE_DURATION : Z := 1000 * 60 * 10.

(** A boolean inside a template literal. *)
Definition bool_text (b : bool) : jsstring :=
  if b then str "true" else str "false".

(** [localStorage.getItem('cineStreamAdult') === 'true']. *)
Definition includeAdult {D} (b : browser D) : bool :=
  match cineStreamAdult b with
  | Some s => eqb s (str "true")
  | None => false
  end.

Definition cacheKey (endpoint params : jsstring) (adult : bool) : jsstring :=
  endpoint ++ str "?" ++ params ++ str "&include_adult=" ++ bool_text adult.

Definition requestUrl (endpoint params : jsstring) (adult : bool) : jsstring :=
  API_BASE_URL ++ str "/" ++ endpoint ++ str "?api_key=" ++ API_KEY
  ++ str "&language=en-US&include_adult=" ++ bool_text adult ++ str "&" ++ params.

(** [fetchFromTMDB].  [now] is [Date.now()] when the cache is consulted,
    [later] is [Date.now()] when the body has been read. *)
Definition fetchFromTMDB {D} (b : browser D) (now later : Z) (apiCache : cache D)
    (endpoint params : jsstring) : run D D :=
  let cacheKey := cacheKey endpoint params (includeAdult b) in
  let fresh :=
    match Map_get apiCache cacheKey with
    | Some cached =>
        if (now - timestamp cached <? CACHE_DURATION)%Z then Some (data cached)
        else None
    | None => None
    end in
  match fresh with
  | Some d => {| result := Resolves d; apiCache := apiCache; sent := [] |}
  | None =>
      let url := requestUrl endpoint params (includeAdult b) in
      match fetch b url with
      | Resolves response =>
          if negb (ok response) then
            {| result := Rejects (HttpError (statusText response));
               apiCache := apiCache; sent := [url] |}
          else
            match json response with
            | Resolves d =>
                {| result := Resolves d;
                   apiCache := map_set apiCache cacheKey
                                 {| data := d; timestamp := later |};
                   sent := [url] |}
            | Rejects f =>
                {| result := Rejects f; apiCache := apiCache; sent := [url] |}
            end
      | Rejects f => {| result := Rejects f; apiCache := apiCache; sent := [url] |}
      end
  end.

(** *** Content items *)

Section Content.
Context {any : Type}.

(** A genre: its [id] and [name]. *)
Definition Genre : Type := (number * jsstring)%type.

(** The fields of a TMDB result that the client reads; [r_other] stands
    for those it copies as they are ([overview], [vote_average],
    [credits], [videos], [number_of_seasons], [seasons]). *)
Record raw_item : Type := {
  r_id : number;
  r_imdb_id : option jsstring;
  r_external_imdb_id : option jsstring;
  r_title : option jsstring;
  r_name : option jsstring;
  r_poster_path : option jsstring;
  r_backdrop_path : option jsstring;
  r_release_date : option jsstring;
  r_first_air_date : option jsstring;
  r_media_type : option jsstring;
  r_genres : option (list Genre);
  r_genre_ids : option (list number);
  r_other : any
}.

Record ContentItem : Type := {
  id : number;
  imdb_id : option jsstring;
  title : option jsstring;
  poster_path : jsstring;
  backdrop_path : jsstring;
  release_date : jsstring;
  media_type : option jsstring;
  genres : list Genre;
  genre_ids : list number;
  other : any
}.

(** [a || b] on optional strings. *)
Definition or_else (a b : option jsstring) : option jsstring :=
  if truthy a then a else b.

(** The [media_type] argument of [processContentList]. *)
Inductive listing : Type :=
| only (m : media)
| all.

Definition media_text (m : media) : jsstring :=
  match m with
  | movie => str "movie"
  | tv => str "tv"
  end.

Definition processContentItem (item : raw_item) (media_type : option jsstring)
  : ContentItem :=
  {| id := r_id item;
     imdb_id := or_else (r_external_imdb_id item) (r_imdb_id item);
     title := or_else (r_title item) (r_name item);
     poster_path :=
       match r_poster_path item with
       | Some (c :: p) => str "https://image.tmdb.org/t/p/w500" ++ c :: p
       | _ => str "https://via.placeholder.com/500x750.png?text=No+Image"
       end;
     backdrop_path :=
       match r_backdrop_path item with
       | Some (c :: p) => str "https://image.tmdb.org/t/p/w1280" ++ c :: p
       | _ => str "https://via.placeholder.com/1280x720.png?text=No+Image"
       end;
     release_date :=
       match or_else (r_release_date item) (r_first_air_date item) with
       | Some (c :: d) => c :: d
       | _ => str "N/A"
       end;
     media_type := media_type;
     genres := match r_genres item with Some l => l | None => [] end;
     genre_ids := match r_genre_ids item with Some l => l | None => [] end;
     other := r_other item |}.

(** An element of [items] may be [null]; reading its fields then throws. *)
Definition processContentList (items : list (option raw_item)) (media_type : listing)
  : completion (list ContentItem) :=
  match
    filterM
      (fun item =>
         cmap (fun item => truthy (r_poster_path item) && truthy (r_backdrop_path item))
              (deref item))
      items
  with
  | Normal kept =>
      mapM (fun item =>
              cmap (fun item =>
                      processContentItem item
                        match media_type with
                        | all => r_media_type item
                        | only m => Some (media_text m)
                        end)
                   (deref item))
           kept
  | Throw e => Throw e
  end.

(** The body of a list endpoint: its [results], if it has any. *)
Definition results : Type := option (list (option raw_item)).

(** [data.results], read for a method call. *)
Definition results_of (d : results) : completion (list (option raw_item)) :=
  deref d.

(** [a === b] on numbers. *)
Definition strict_eq (a b : number) : bool :=
  match a, b with
  | Int x, Int y => (x =? y)%Z
  | _, _ => false
  end.


(** [getSimilarByGenre]: nothing is asked when there is no genre. *)
Definition getSimilarByGenre (b : browser results) (now later : Z)
    (apiCache : cache results) (idToExclude : number) (m : media)
    (genres : option (list Genre)) : run results (list ContentItem) :=
  match genres with
  | None | Some [] => {| result := Resolves []; apiCache := apiCache; sent := [] |}
  | Some ((genreId, _) :: _) =>
      let endpoint :=
        match m with
        | movie => str "discover/movie"
        | tv => str "discover/tv"
        end in
      let params :=
        str "with_genres=" ++ toString genreId ++ str "&sort_by=popularity.desc" in
      let r := fetchFromTMDB b now later apiCache endpoint params in
      {| result :=
           match result r with
           | Resolves d =>
               match
                 match results_of d with
                 | Normal items => processContentList items (only m)
                 | Throw e => Throw e
                 end
               with
               | Normal similarContent =>
                   Resolves
                     (firstn 10
                        (filter (fun item => negb (strict_eq (id item) idToExclude))
                           similarContent))
               | Throw e => Rejects (Thrown e)
               end
           | Rejects f => Rejects f
           end;
         apiCache := TMDB.apiCache r;
         sent := sent r |}
  end.




(** [`${s}`] for a string that may be missing. *)
Definition template (s : option jsstring) : jsstring :=
  match s with
  | Some s => s
  | None => str "undefined"
  end.

(** The body of a details endpoint: one item, or [null]. *)
Definition details : Type := option raw_item.

(** [getMovieDetails]. *)
Definition getMovieDetails (b : browser details) (now later : Z)
    (apiCache : cache details) (id : number) (media_type : option jsstring)
  : run details ContentItem :=
  let r := fetchFromTMDB b now later apiCache
             (template media_type ++ str "/" ++ toString id)
             (str "append_to_response=videos,credits,seasons,external_ids") in
  {| result :=
       match result r with
       | Resolves details =>
           match deref details with
           | Normal item => Resolves (processContentItem item media_type)
           | Throw e => Rejects (Thrown e)
           end
       | Rejects f => Rejects f
       end;
     apiCache := TMDB.apiCache r;
     sent := sent r |}.

End Content.

End TMDB.

(** ** Vocabulary for the TMDB client *)

(** The condition under which [processContentList] keeps an item. *)
Definition has_images {any} (item : @TMDB.raw_item any) : bool :=
  truthy (TMDB.r_poster_path item) && truthy (TMDB.r_backdrop_path item).

(** The media type [processContentList] gives to an item. *)
Definition listed_as {any} (l : TMDB.listing) (item : @TMDB.raw_item any)
  : option jsstring :=
  match l with
  | TMDB.all => TMDB.r_media_type item
  | TMDB.only m => Some (TMDB.media_text m)
  end.

(** Both images of a content item come from TMDB's image host: neither is
    the placeholder. *)
Definition tmdb_images {any} (c : @TMDB.ContentItem any) : Prop :=
  startsWith (str "https://image.tmdb.org/t/p/w500") (TMDB.poster_path c) = true
  /\ startsWith (str "https://image.tmdb.org/t/p/w1280") (TMDB.backdrop_path c) = true.


(** A fresh entry of the cache for a key, at a time. *)
Definition fresh_entry {D} (cache : TMDB.cache D) (key : jsstring) (now : Z)
    (c : TMDB.cached D) : Prop :=
  TMDB.Map_get cache key = Some c
  /\ (now - TMDB.timestamp c < TMDB.CACHE_DURATION)%Z.

(** A browser whose network answers every request with the same body. *)
Definition answering {D} (d : D) (adult : option jsstring) : TMDB.browser D :=
  {| TMDB.fetch := fun _ =>
       TMDB.Resolves {| TMDB.ok := true; TMDB.statusText := str "OK";
                        TMDB.json := TMDB.Resolves d |};
     TMDB.cineStreamAdult := adult |}.


(** Sample results: a movie with both images, a person, and a TV show
    without a backdrop. *)
Module TMDBSample.

Definition dune : @TMDB.raw_item unit :=
  {| TMDB.r_id := Int 438631; TMDB.r_imdb_id := None;
     TMDB.r_external_imdb_id := None;
     TMDB.r_title := Some (str "Dune"); TMDB.r_name := None;
     TMDB.r_poster_path := Some (str "/d5NXSklXo0qyIYkgV94XAgMIckC.jpg");
     TMDB.r_backdrop_path := Some (str "/jYEW5xZkZk2WTrdbMGAPFuBqbDc.jpg");
     TMDB.r_release_date := Some (str "2021-09-15");
     TMDB.r_first_air_date := None;
     TMDB.r_media_type := Some (str "movie");
     TMDB.r_genres := None; TMDB.r_genre_ids := Some [Int 878; Int 12];
     TMDB.r_other := tt |}.

Definition person : @TMDB.raw_item unit :=
  {| TMDB.r_id := Int 1190668; TMDB.r_imdb_id := None;
     TMDB.r_external_imdb_id := None;
     TMDB.r_title := None; TMDB.r_name := Some (str "Timothee Chalamet");
     TMDB.r_poster_path := None; TMDB.r_backdrop_path := None;
     TMDB.r_release_date := None; TMDB.r_first_air_date := None;
     TMDB.r_media_type := Some (str "person");
     TMDB.r_genres := None; TMDB.r_genre_ids := None;
     TMDB.r_other := tt |}.

Definition show : @TMDB.raw_item unit :=
  {| TMDB.r_id := Int 1399; TMDB.r_imdb_id := None;
     TMDB.r_external_imdb_id := None;
     TMDB.r_title := None; TMDB.r_name := Some (str "Game of Thrones");
     TMDB.r_poster_path := Some (str "/1XS1oqL89opfnbLl8WnZY1O1uJx.jpg");
     TMDB.r_backdrop_path := None;
     TMDB.r_release_date := None;
     TMDB.r_first_air_date := Some (str "2011-04-17");
     TMDB.r_media_type := Some (str "tv");
     TMDB.r_genres := None; TMDB.r_genre_ids := Some [Int 10765];
     TMDB.r_other := tt |}.

(** A network that answers every request with these three results. *)
Definition online : TMDB.browser (@TMDB.results unit) :=
  answering (Some [Some dune; Some person; Some show]) None.

End TMDBSample.

(** ** The download modal ([loadTorrents]) *)

Module Modal.

(** The state of the modal that [loadTorrents] sets. *)
Record state : Type := { torrents : list Torrent; isLoading : bool }.

(** One run of [loadTorrents]: the state it leaves, the error it rejected
    with (if it did), the cache of the TMDB client, the requests sent to
    TMDB and those sent to the torrent sources. *)
Record loading (D : Type) : Type := {
  modal : state;
  rejection : option error;
  apiCache : TMDB.cache D;
  sent : list jsstring;
  relayed : list jsstring
}.
Arguments modal {D} l.
Arguments rejection {D} l.
Arguments apiCache {D} l.
Arguments sent {D} l.
Arguments relayed {D} l.

End Modal.

(** A [query] argument that may be missing: [!query] holds of [undefined]
    as it does of the empty string. *)
Definition query_text (s : option jsstring) : jsstring :=
  match s with
  | Some s => s
  | None => []
  end.

(** [content.media_type === 'movie']. *)
Definition is_movie (media_type : option jsstring) : bool :=
  match media_type with
  | Some m => eqb m (str "movie")
  | None => false
  end.

(** The searches of [loadTorrents], once the id has been looked up. *)
Definition searchTorrents (w : world) (title : option jsstring)
    (media_type : option jsstring) (season episode : option number)
    (imdbId : option jsstring) : io (list Torrent) :=
  if is_movie media_type then
    results <- (if truthy imdbId
                then fetchMovieDownloads w (query_text title) movie imdbId
                else ret []) ;;
    match results with
    | [] => fetchMovieDownloads w (query_text title) movie None
    | _ :: _ => ret results
    end
  else
    fetchMovieDownloads w (tv_query (TMDB.template title) season episode) tv imdbId.

(** The id [loadTorrents] searches with: the one of [content] when it has
    one, else the one [getMovieDetails] finds, if that call succeeds;
    together with the cache and the requests of the lookup. *)
Definition lookupImdbId {any} (b : TMDB.browser (@TMDB.details any))
    (now later : Z) (apiCache : TMDB.cache (@TMDB.details any))
    (content : @TMDB.ContentItem any)
  : option jsstring * TMDB.cache (@TMDB.details any) * list jsstring :=
  if truthy (TMDB.imdb_id content) then (TMDB.imdb_id content, apiCache, [])
  else
    let r := TMDB.getMovieDetails b now later apiCache (TMDB.id content)
               (TMDB.media_type content) in
    (match TMDB.result r with
     | TMDB.Resolves fullDetails => TMDB.imdb_id fullDetails
     | TMDB.Rejects _ => TMDB.imdb_id content
     end,
     TMDB.apiCache r, TMDB.sent r).

Definition loadTorrents {any} (b : TMDB.browser (@TMDB.details any)) (w : world)
    (now later : Z) (apiCache : TMDB.cache (@TMDB.details any))
    (content : @TMDB.ContentItem any) (season episode : option number)
  : Modal.loading (@TMDB.details any) :=
  let '(imdbId, apiCache, sent) := lookupImdbId b now later apiCache content in
  let search :=
    searchTorrents w (TMDB.title content) (TMDB.media_type content)
      season episode imdbId in
  {| Modal.modal :=
       match outcome search with
       | Normal results => {| Modal.torrents := results; Modal.isLoading := false |}
       | Throw _ => {| Modal.torrents := []; Modal.isLoading := true |}
       end;
     Modal.rejection :=
       match outcome search with
       | Normal _ => None
       | Throw e => Some e
       end;
     Modal.apiCache := apiCache;
     Modal.sent := sent;
     Modal.relayed := requests search |}.



(** The request [getMovieDetails] sends for a content item. *)
Definition details_url {any} (content : @TMDB.ContentItem any) (adult : bool)
  : jsstring :=
  TMDB.requestUrl
    (TMDB.template (TMDB.media_type content) ++ str "/" ++ toString (TMDB.id content))
    (str "append_to_response=videos,credits,seasons,external_ids") adult.

(** Sample contents of the modal: a movie whose id is known, and one whose
    title ends in an unpaired surrogate. *)
Module ModalSample.

Definition known : @TMDB.ContentItem unit :=
  {| TMDB.id := Int 438631; TMDB.imdb_id := Some (str "tt1160419");
     TMDB.title := Some (str "Movie Name");
     TMDB.poster_path := str "https://image.tmdb.org/t/p/w500/p.jpg";
     TMDB.backdrop_path := str "https://image.tmdb.org/t/p/w1280/b.jpg";
     TMDB.release_date := str "2021-09-15";
     TMDB.media_type := Some (str "movie");
     TMDB.genres := []; TMDB.genre_ids := [Int 878]; TMDB.other := tt |}.


(** A TMDB that knows the details of one movie. *)
Definition tmdb : TMDB.browser (@TMDB.details unit) :=
  answering (Some TMDBSample.dune) None.

End ModalSample.

(** ** The hero carousel ([src/components/HeroSection.tsx]) *)

Module HeroSection.

(** The state update of [nextSlide]: [(prevIndex + 1) % items.length] when
    there are items ([%] takes the sign of the dividend). *)
Definition nextSlide (length : nat) (prevIndex : Z) : Z :=
  if (0 <? Z.of_nat length)%Z then Z.rem (prevIndex + 1) (Z.of_nat length)
  else prevIndex.

(** [array.filter(Boolean)] on an array of objects and [undefined]. *)
Definition filter_Boolean {A} (l : list (option A)) : list A :=
  flat_map (fun x => match x with Some a => [a] | None => [] end) l.

(** [displayGenres]: the genres of the current item, or those its genre
    ids name in the list of known [genres]; a missing [genres] or
    [genre_ids] of the item behaves as the empty list. *)
Definition displayGenres {any} (currentItem : @TMDB.ContentItem any)
    (genres : list TMDB.Genre) : list TMDB.Genre :=
  match TMDB.genres currentItem with
  | _ :: _ => TMDB.genres currentItem
  | [] =>
      match genres with
      | _ :: _ =>
          filter_Boolean
            (map (fun id => find (fun g => TMDB.strict_eq (fst g) id) genres)
               (TMDB.genre_ids currentItem))
      | [] => []
      end
  end.

End HeroSection.

(** ** The definitions at work on sample values *)

Example trim_example : trim (str "  Dune S01E02 ") = str "Dune S01E02".
Proof. reflexivity. Qed.

Example encodeURIComponent_example :
  encodeURIComponent (str "Dune: Part Two") = Normal (str "Dune%3A%20Part%20Two").
Proof. reflexivity. Qed.

Example encodeURIComponent_pair :
  encodeURIComponent [55357; 56832] = Normal (str "%F0%9F%98%80").
Proof. reflexivity. Qed.

Example parseInt_example : parseInt (str " 1073741824") = Int 1073741824.
Proof. reflexivity. Qed.

Example parseInt_nan : parseInt (str "n/a") = NaN.
Proof. reflexivity. Qed.

Example toFixed_example : toFixed 2 (div (Int 1610612736) 1073741824) = str "1.50".
Proof. reflexivity. Qed.

Example toFixed_small : toFixed 2 (div (Int 5243) 1048576) = str "0.01".
Proof. reflexivity. Qed.

Example toFixed_zero_digits : toFixed 0 (div (Int 734003200) 1048576) = str "700".
Proof. reflexivity. Qed.

Example parseTorrentName_bluray :
  parseTorrentName (str "Movie.Name.2024.1080p.BluRay.x265-GROUP")
  = {| p_quality := str "1080P"; p_type := str "BLURAY (HEVC)" |}.
Proof. reflexivity. Qed.

Example parseTorrentName_default :
  parseTorrentName (str "Some.Show.HDTV")
  = {| p_quality := str "UNKNOWN"; p_type := str "WEBRIP" |}.
Proof. reflexivity. Qed.

Example cleanImdbId_example : cleanImdbId (Some (str "tt0944947")) = Some (str "0944947").
Proof. reflexivity. Qed.

Example fetch_movie_sample :
  option_map (map (fun t => (hash t, seeds t, quality t)))
    match outcome (fetchMovieDownloads Sample.online (str "Movie Name") movie None) with
    | Normal l => Some l
    | Throw _ => None
    end
  = Some [(str "AAA", Number (Int 80), str "1080P");
          (str "BBB", Number (Int 45), str "720p");
          (str "CCC", Number (Int 45), str "HD")].
Proof. vm_compute. reflexivity. Qed.

Example fetch_tv_sample :
  option_map (map (fun t => (hash t, seeds t, size t)))
    match outcome (fetchMovieDownloads Sample.online (str "Show S01E02") tv
                     (Some (str "tt0944947"))) with
    | Normal l => Some l
    | Throw _ => None
    end
  = Some [(str "AAA", Number (Int 80), str "2.10 GB");
          (str "CCC", Number (Int 45), str "1024.00 MB");
          (str "E12", Number (Int 31), str "700 MB");
          (str "E12b", Number (Int 31), str "350 MB")].
Proof. vm_compute. reflexivity. Qed.

Example fetch_degraded :
  outcome (yts_source Sample.degraded (str "Movie%20Name") None) = Throw TypeError
  /\ outcome (solid_source Sample.degraded (str "Movie%20Name")) = Throw NetworkError
  /\ option_map (map (fun t => (hash t, seeds t)))
       match outcome (fetchMovieDownloads Sample.degraded (str "Movie Name") movie None) with
       | Normal l => Some l
       | Throw _ => None
       end
     = Some [(str "AAA", Number (Int 80)); (str "CCC", Number (Int 45))].
Proof. repeat split. Qed.

Example fetch_offline :
  outcome (fetchMovieDownloads Sample.offline (str "Movie Name") movie None)
  = Normal [].
Proof. reflexivity. Qed.

(** A [seeds] value that cannot be converted makes [t.seeds > 0] throw,
    outside every [try]: the call rejects. *)
Example fetch_unconvertible :
  option_map (map seeds)
    match outcome (yts_source Sample.unconvertible (str "Movie%20Name") None) with
    | Normal l => Some l
    | Throw _ => None
    end
  = Some [Unconvertible]
  /\ outcome (fetchMovieDownloads Sample.unconvertible (str "Movie Name") movie None)
     = Throw TypeError.
Proof. split; reflexivity. Qed.

(** ** Facts about the runtime *)

Lemma eqb_eq (a b : jsstring) : eqb a b = true <-> a = b.
Proof.
  revert b; induction a as [|x a IH]; intros [|y b]; simpl;
    try (split; (reflexivity || discriminate)).
  rewrite andb_true_iff, N.eqb_eq, IH.
  split; [intros [-> ->]; reflexivity | intros [= -> ->]; auto].
Qed.

Lemma eqb_refl (a : jsstring) : eqb a a = true.
Proof. apply eqb_eq; reflexivity. Qed.

Lemma eqb_neq (a b : jsstring) : eqb a b = false <-> a <> b.
Proof.
  rewrite <- eqb_eq. destruct (eqb a b); split; intros; congruence.
Qed.

(** Completions of [mapM] and [filterM] over an array that may hold
    [null]: a normal completion means no element read was [null]. *)
Lemma mapM_deref_normal {A B} (g : A -> B) (l : list (option A)) out :
  mapM (fun t => cmap g (deref t)) l = Normal out ->
  exists es, l = map Some es /\ out = map g es.
Proof.
  revert out; induction l as [|[a|] l IH]; simpl; intros out H.
  - injection H as <-. exists []; auto.
  - destruct (mapM _ l) as [r|e]; simpl in H; [|discriminate].
    injection H as <-. destruct (IH r eq_refl) as (es & -> & ->).
    exists (a :: es); auto.
  - discriminate.
Qed.

Lemma filterM_deref_normal {A} (f : A -> bool) (l : list (option A)) out :
  filterM (fun t => cmap f (deref t)) l = Normal out ->
  exists es, l = map Some es /\ out = map Some (filter f es).
Proof.
  revert out; induction l as [|[a|] l IH]; simpl; intros out H.
  - injection H as <-. exists []; auto.
  - destruct (filterM _ l) as [r|e]; simpl in H; [|discriminate].
    injection H as <-. destruct (IH r eq_refl) as (es & -> & ->).
    exists (a :: es); split; [reflexivity|]. simpl. destruct (f a); reflexivity.
  - discriminate.
Qed.

Lemma mapM_bind_normal {A B} (g : A -> completion B) (l : list (option A)) out :
  mapM (fun t => match deref t with Normal a => g a | Throw e => Throw e end) l
  = Normal out ->
  exists es, l = map Some es /\ Forall2 (fun a b => g a = Normal b) es out.
Proof.
  revert out; induction l as [|[a|] l IH]; simpl; intros out H.
  - injection H as <-. exists []; auto.
  - destruct (g a) as [b|e] eqn:Hg; [|discriminate].
    destruct (mapM _ l) as [r|e]; simpl in H; [|discriminate].
    injection H as <-. destruct (IH r eq_refl) as (es & -> & HF).
    exists (a :: es); auto.
  - discriminate.
Qed.

(** ** Facts about asynchronous computations *)

Lemma outcome_bind {A B} (m : io A) (f : A -> io B) :
  outcome (bind m f)
  = match outcome m with
    | Normal a => outcome (f a)
    | Throw e => Throw e
    end.
Proof.
  destruct m as [[a|e] l]; simpl; [destruct (f a)|]; reflexivity.
Qed.

Lemma requests_bind {A B} (m : io A) (f : A -> io B) :
  requests (bind m f)
  = requests m ++ match outcome m with
                  | Normal a => requests (f a)
                  | Throw _ => []
                  end.
Proof.
  destruct m as [[a|e] l]; simpl; [destruct (f a)|rewrite app_nil_r]; reflexivity.
Qed.

Lemma outcome_lift {A} (c : completion A) : outcome (lift c) = c.
Proof. reflexivity. Qed.

Lemma requests_lift {A} (c : completion A) : requests (lift c) = [].
Proof. reflexivity. Qed.

Lemma isolated_outcome (body : io (list Torrent)) :
  outcome (isolated body) = Normal (recovered body).
Proof.
  unfold isolated, try_catch, recovered.
  destruct body as [[l|e] rq]; reflexivity.
Qed.

Lemma isolated_requests (body : io (list Torrent)) :
  requests (isolated body) = requests body.
Proof.
  unfold isolated, try_catch.
  destruct body as [[l|e] rq]; simpl; [|rewrite app_nil_r]; reflexivity.
Qed.

Lemma allSettled_outcome {A} (promises : list (io A)) :
  outcome (allSettled promises)
  = Normal (map (fun p => match outcome p with
                          | Normal v => fulfilled v
                          | Throw e => rejected e
                          end) promises).
Proof.
  induction promises as [|p ps IH]; [reflexivity|].
  cbn [allSettled]. rewrite outcome_bind. unfold settle at 1. cbn [outcome fst].
  rewrite outcome_bind, IH. reflexivity.
Qed.

Lemma allSettled_requests {A} (promises : list (io A)) :
  requests (allSettled promises) = flat_map requests promises.
Proof.
  induction promises as [|p ps IH]; [reflexivity|].
  cbn [allSettled flat_map]. rewrite requests_bind.
  unfold settle at 1 2. cbn [outcome requests fst snd].
  rewrite requests_bind, IH, allSettled_outcome.
  cbn [ret requests snd]. rewrite app_nil_r. reflexivity.
Qed.

Lemma collect_from (acc : list Torrent) (ls : list (list Torrent)) :
  fold_left
    (fun allTorrents result =>
       match result with
       | fulfilled value => allTorrents ++ value
       | rejected _ => allTorrents
       end)
    (map fulfilled ls) acc
  = acc ++ List.concat ls.
Proof.
  revert acc; induction ls as [|l ls IH]; intros acc; simpl.
  - rewrite app_nil_r; reflexivity.
  - rewrite IH, app_assoc; reflexivity.
Qed.

(** The promises handed to [Promise.allSettled] are all fulfilled, and the
    merged list is the concatenation of what the sources contribute. *)
Lemma collect_isolated (bodies : list (io (list Torrent))) :
  match outcome (allSettled (map isolated bodies)) with
  | Normal results => collect results = flat_map recovered bodies
  | Throw _ => False
  end.
Proof.
  rewrite allSettled_outcome, map_map.
  unfold collect.
  rewrite (map_ext _ (fun b => fulfilled (recovered b)))
    by (intros b; rewrite isolated_outcome; reflexivity).
  rewrite <- (map_map recovered fulfilled), collect_from, flat_map_concat_map.
  reflexivity.
Qed.

(** The call, unfolded: an empty query returns at once; otherwise the
    query is trimmed and encoded, and the sources are run. *)
Lemma fetchMovieDownloads_outcome w query kind imdbId :
  outcome (fetchMovieDownloads w query kind imdbId)
  = match query with
    | [] => Normal []
    | _ :: _ =>
        match encodeURIComponent (trim query) with
        | Normal encodedQuery =>
            rank (flat_map recovered
                    (sources w (trim query) encodedQuery kind imdbId))
        | Throw e => Throw e
        end
    end.
Proof.
  unfold fetchMovieDownloads. destruct query as [|c q]; [reflexivity|].
  rewrite outcome_bind, outcome_lift.
  destruct (encodeURIComponent (trim (c :: q))) as [enc|e]; [|reflexivity].
  rewrite outcome_bind.
  pose proof (collect_isolated (sources w (trim (c :: q)) enc kind imdbId)) as H.
  destruct (outcome (allSettled _)) as [results|e]; [|contradiction].
  rewrite outcome_lift, H. reflexivity.
Qed.

Lemma fetchMovieDownloads_requests w query kind imdbId :
  requests (fetchMovieDownloads w query kind imdbId)
  = match query with
    | [] => []
    | _ :: _ =>
        match encodeURIComponent (trim query) with
        | Normal encodedQuery =>
            flat_map requests (sources w (trim query) encodedQuery kind imdbId)
        | Throw e => []
        end
    end.
Proof.
  unfold fetchMovieDownloads. destruct query as [|c q]; [reflexivity|].
  rewrite requests_bind, outcome_lift, requests_lift.
  destruct (encodeURIComponent (trim (c :: q))) as [enc|e]; [|reflexivity].
  cbn [app]. rewrite requests_bind, allSettled_requests, allSettled_outcome.
  rewrite requests_lift, app_nil_r, flat_map_concat_map, map_map.
  rewrite (map_ext _ requests) by apply isolated_requests.
  rewrite <- flat_map_concat_map. reflexivity.
Qed.

(** Whatever the call returns is the ranking of some merged list. *)
Lemma fetchMovieDownloads_ranked w query kind imdbId out :
  outcome (fetchMovieDownloads w query kind imdbId) = Normal out ->
  exists allTorrents, rank allTorrents = Normal out.
Proof.
  rewrite fetchMovieDownloads_outcome.
  destruct query as [|c q].
  - intros [= <-]. exists []. reflexivity.
  - destruct (encodeURIComponent _) as [enc|e]; [|discriminate].
    intros H. eexists. exact H.
Qed.

(** ** Failure isolation *)

Lemma recovered_successes (bodies : list (io (list Torrent))) :
  flat_map recovered bodies = List.concat (successes bodies).
Proof.
  induction bodies as [|b bs IH]; [reflexivity|].
  simpl. unfold recovered at 1. destruct (outcome b); simpl; congruence.
Qed.



(** ** The filter and the sort *)

Lemma positive_seeds_spec t :
  positive_seeds t = true <-> exists z, seeds t = Number (Int z) /\ (0 < z)%Z.
Proof.
  unfold positive_seeds. destruct (seeds t) as [[|z]|].
  - split; [discriminate|intros (z & H & _); discriminate].
  - rewrite Z.ltb_lt. split; [eauto|intros (z' & [= <-] & H); exact H].
  - split; [discriminate|intros (z & H & _); discriminate].
Qed.

(** [t.seeds > 0] on a value that converts, and on one that does not. *)
Lemma alive_convertible t : convertible t -> alive t = Normal (positive_seeds t).
Proof.
  unfold convertible, alive, positive_seeds.
  destruct (seeds t) as [[|z]|]; [reflexivity|reflexivity|congruence].
Qed.

Lemma alive_unconvertible t : seeds t = Unconvertible -> alive t = Throw TypeError.
Proof. unfold alive. intros ->. reflexivity. Qed.

Lemma alive_spec t :
  alive t = Normal true <-> exists z, seeds t = Number (Int z) /\ (0 < z)%Z.
Proof.
  rewrite <- positive_seeds_spec. unfold alive, positive_seeds.
  destruct (seeds t) as [[|z]|]; cbn [ToNumber cmap gt].
  - split; discriminate.
  - split; [intros [= H]; exact H|intros ->; reflexivity].
  - split; discriminate.
Qed.

Lemma positive_convertible t : positive_seeds t = true -> convertible t.
Proof.
  intros H. apply positive_seeds_spec in H as (z & E & _).
  unfold convertible. congruence.
Qed.

Lemma convertible_or_not l :
  Forall convertible l \/ Exists (fun t => seeds t = Unconvertible) l.
Proof.
  induction l as [|t l [IH|IH]].
  - left. constructor.
  - destruct (seeds t) as [n|] eqn:E.
    + left. constructor; [unfold convertible; congruence|exact IH].
    + right. left. exact E.
  - right. right. exact IH.
Qed.


(** The filter passes over every candidate: it throws as soon as one of
    them has seeds that cannot be converted. *)
Lemma filterM_alive l :
  Forall convertible l -> filterM alive l = Normal (filter positive_seeds l).
Proof.
  induction 1 as [|t l Ht _ IH]; [reflexivity|].
  cbn [filterM filter]. rewrite (alive_convertible t Ht), IH. reflexivity.
Qed.

Lemma filterM_alive_throws l :
  Exists (fun t => seeds t = Unconvertible) l -> filterM alive l = Throw TypeError.
Proof.
  induction 1 as [t l Ht|t l _ IH]; cbn [filterM].
  - rewrite (alive_unconvertible t Ht). reflexivity.
  - rewrite IH. destruct (seeds t) as [n|] eqn:E.
    + rewrite alive_convertible by (unfold convertible; congruence). reflexivity.
    + rewrite (alive_unconvertible t E). reflexivity.
Qed.

Lemma bySeeds_numbers x y zx zy :
  seeds x = Number (Int zx) -> seeds y = Number (Int zy) ->
  bySeeds x y = Normal (Int (zy - zx)).
Proof. unfold bySeeds. intros -> ->. reflexivity. Qed.

(** Inserting a candidate into a list of candidates that all have seeds:
    the comparison never throws; the candidate moves past those with
    strictly more seeds only. *)
Lemma insert_positive x l :
  positive_seeds x = true ->
  Forall (fun t => positive_seeds t = true) l ->
  exists r,
    insert bySeeds x l = Normal r
    /\ Permutation r (x :: l)
    /\ (forall n, filter (has_seeds n) r = filter (has_seeds n) (x :: l))
    /\ (StronglySorted seeds_ge l -> StronglySorted seeds_ge r)
    /\ (StronglySorted seeds_ge (x :: l) -> r = x :: l).
Proof.
  intros Hx Hl. apply positive_seeds_spec in Hx as (zx & Ex & Px).
  induction Hl as [|y l Hy Hl IH].
  - exists [x]. cbn [insert]. repeat split; auto.
    intros _. repeat constructor.
  - apply positive_seeds_spec in Hy as Hy'. destruct Hy' as (zy & Ey & Py).
    destruct IH as (r & Hr & Hperm & Hstable & Hsorted & Hfixed).
    cbn [insert]. rewrite (bySeeds_numbers x y zx zy Ex Ey).
    cbn [gt]. destruct (0 <? zy - zx)%Z eqn:Hcmp.
    + apply Z.ltb_lt in Hcmp. rewrite Hr. exists (y :: r). cbn [cmap].
      split; [reflexivity|]. split; [|split; [|split]].
      * rewrite Hperm. apply perm_swap.
      * intros n. cbn [filter]. rewrite Hstable. cbn [filter].
        unfold has_seeds. rewrite Ex, Ey. cbv beta iota.
        destruct (zx =? n)%Z eqn:Hxn; [|reflexivity].
        apply Z.eqb_eq in Hxn.
        destruct (zy =? n)%Z eqn:Hyn; [apply Z.eqb_eq in Hyn; lia|reflexivity].
      * intros Hs. inversion Hs as [|? ? Hsl Hyl]; subst.
        constructor; [apply Hsorted, Hsl|].
        rewrite Hperm. constructor; [|exact Hyl].
        unfold seeds_ge, ge. rewrite Ex, Ey. apply Z.leb_le. lia.
      * intros Hs. inversion Hs as [|? ? _ Hxl]; subst.
        inversion Hxl as [|? ? Hxy _]; subst.
        unfold seeds_ge, ge in Hxy. rewrite Ex, Ey in Hxy.
        apply Z.leb_le in Hxy. lia.
    + apply Z.ltb_ge in Hcmp. exists (x :: y :: l).
      split; [reflexivity|]. split; [reflexivity|]. split; [reflexivity|].
      split; [|reflexivity].
      intros Hs. inversion Hs as [|? ? Hsl Hyl]; subst.
      assert (Hxy : seeds_ge x y)
        by (unfold seeds_ge, ge; rewrite Ex, Ey; apply Z.leb_le; lia).
      constructor; [exact Hs|]. constructor; [exact Hxy|].
      eapply Forall_impl; [|exact Hyl]. intros z Hyz.
      unfold seeds_ge, ge in *. rewrite Ex. rewrite Ey in Hyz.
      destruct (seeds z) as [[|zz]|]; try discriminate.
      apply Z.leb_le in Hyz. apply Z.leb_le. lia.
Qed.

(** Sorting a list of candidates that all have seeds: the sort does not
    throw; its result is a permutation of the list, in non-increasing order
    of seeds, in which the candidates of any one seed count keep their
    order; a list already in order is returned as it is. *)
Lemma sort_positive l :
  Forall (fun t => positive_seeds t = true) l ->
  exists r,
    sort bySeeds l = Normal r
    /\ Permutation r l
    /\ (forall n, filter (has_seeds n) r = filter (has_seeds n) l)
    /\ StronglySorted seeds_ge r
    /\ (StronglySorted seeds_ge l -> r = l).
Proof.
  induction 1 as [|x l Hx Hl (s & Hs & Hperm & Hstable & Hsorted & Hfixed)].
  - exists []. repeat split; auto. constructor.
  - assert (Hpos : Forall (fun t => positive_seeds t = true) s)
      by (rewrite Hperm; exact Hl).
    destruct (insert_positive x s Hx Hpos) as (r & Hr & Hp & Hst & Hso & Hfx).
    exists r. cbn [sort]. rewrite Hs. split; [exact Hr|].
    split; [|split; [|split]].
    + rewrite Hp, Hperm. reflexivity.
    + intros n. rewrite Hst. cbn [filter]. rewrite Hstable. reflexivity.
    + apply Hso, Hsorted.
    + intros Hxl. inversion Hxl as [|? ? Hl' _]; subst.
      specialize (Hfixed Hl'). subst s. apply Hfx, Hxl.
Qed.

Lemma StronglySorted_nth {A} (R : A -> A -> Prop) l :
  StronglySorted R l ->
  forall i j a b, (i < j)%nat -> nth_error l i = Some a -> nth_error l j = Some b ->
  R a b.
Proof.
  induction 1 as [|x l Hs IH Hx]; intros i j a b Hij Hi Hj.
  - destruct i; discriminate.
  - destruct j as [|j]; [lia|]. simpl in Hj.
    destruct i as [|i]; simpl in Hi.
    + injection Hi as <-. rewrite Forall_forall in Hx.
      apply Hx. eapply nth_error_In; eassumption.
    + apply (IH i j); [lia|assumption|assumption].
Qed.

(** ** The [Map] used for deduplication *)

Section MapFacts.
Context {V : Type}.
Implicit Types (m entries : list (jsstring * V)).

Lemma map_set_keys_In m k v k' :
  In k' (map fst (map_set m k v)) <-> In k' (map fst m) \/ k' = k.
Proof.
  induction m as [|[k0 v0] m IH]; simpl.
  - split; [intros [<-|[]]; auto | intros [[]| ->]; auto].
  - destruct (eqb k k0) eqn:E; simpl.
    + apply eqb_eq in E; subst k0. split; [auto|intros [H| ->]; auto].
    + rewrite IH. tauto.
Qed.

Lemma map_set_keys_NoDup m k v :
  NoDup (map fst m) -> NoDup (map fst (map_set m k v)).
Proof.
  induction m as [|[k0 v0] m IH]; simpl; intros Hm.
  - constructor; [intros []|constructor].
  - inversion Hm as [|? ? Hnotin Hrest]; subst.
    destruct (eqb k k0) eqn:E; simpl; [constructor; assumption|].
    constructor; [|apply IH; assumption].
    rewrite map_set_keys_In. intros [H| ->]; [contradiction|].
    rewrite eqb_refl in E. discriminate.
Qed.

Lemma map_set_values_In m k v x :
  In x (map snd (map_set m k v)) -> In x (map snd m) \/ x = v.
Proof.
  induction m as [|[k0 v0] m IH]; simpl.
  - intros [<-|[]]; auto.
  - destruct (eqb k k0); simpl; intros [<-|H]; auto.
    destruct (IH H); auto.
Qed.

Lemma map_set_keyed (key : V -> jsstring) m k v :
  Forall (fun e => key (snd e) = fst e) m -> key v = k ->
  Forall (fun e => key (snd e) = fst e) (map_set m k v).
Proof.
  intros Hm Hk. induction Hm as [|[k0 v0] m H0 Hm IH]; simpl.
  - constructor; [exact Hk|constructor].
  - destruct (eqb k k0) eqn:E.
    + apply eqb_eq in E; subst k0. constructor; [exact Hk|assumption].
    + constructor; assumption.
Qed.

Lemma Map_add_keys_In m entries k :
  In k (map fst (Map_add m entries))
  <-> In k (map fst m) \/ In k (map fst entries).
Proof.
  revert m; induction entries as [|[k0 v0] es IH]; intros m; simpl.
  - tauto.
  - unfold Map_add in *. simpl. rewrite IH, map_set_keys_In. split.
    + intros [[H|H]|H]; auto.
    + intros [H|[H|H]]; auto.
Qed.

Lemma Map_add_keys_NoDup m entries :
  NoDup (map fst m) -> NoDup (map fst (Map_add m entries)).
Proof.
  revert m; induction entries as [|[k0 v0] es IH]; intros m Hm; simpl.
  - exact Hm.
  - apply IH, map_set_keys_NoDup, Hm.
Qed.

Lemma Map_add_values_In m entries x :
  In x (map snd (Map_add m entries)) ->
  In x (map snd m) \/ In x (map snd entries).
Proof.
  revert m; induction entries as [|[k0 v0] es IH]; intros m; simpl.
  - auto.
  - intros H. apply IH in H as [H|H]; [|auto].
    apply map_set_values_In in H as [H| ->]; auto.
Qed.

Lemma Map_add_keyed (key : V -> jsstring) m entries :
  Forall (fun e => key (snd e) = fst e) m ->
  Forall (fun e => key (snd e) = fst e) entries ->
  Forall (fun e => key (snd e) = fst e) (Map_add m entries).
Proof.
  intros Hm He. revert m Hm.
  induction He as [|[k0 v0] es H0 He IH]; intros m Hm; simpl.
  - exact Hm.
  - apply IH, map_set_keyed; assumption.
Qed.
End MapFacts.

Lemma keyed_values_keys {V} (key : V -> jsstring) (m : list (jsstring * V)) :
  Forall (fun e => key (snd e) = fst e) m -> map key (values m) = map fst m.
Proof.
  unfold values. induction 1 as [|e m He _ IH]; simpl; congruence.
Qed.

Lemma uniqueTorrents_hashes allTorrents :
  map hash (uniqueTorrents allTorrents)
  = map fst (Map (map (fun item => (hash item, item)) allTorrents)).
Proof.
  apply keyed_values_keys, Map_add_keyed; [constructor|].
  apply Forall_forall. intros e He. apply in_map_iff in He as (t & <- & _).
  reflexivity.
Qed.

Lemma uniqueTorrents_NoDup allTorrents :
  NoDup (map hash (uniqueTorrents allTorrents)).
Proof.
  rewrite uniqueTorrents_hashes. apply Map_add_keys_NoDup. constructor.
Qed.

Lemma uniqueTorrents_hash_In allTorrents h :
  In h (map hash (uniqueTorrents allTorrents)) <-> In h (map hash allTorrents).
Proof.
  rewrite uniqueTorrents_hashes. unfold Map. rewrite Map_add_keys_In, map_map.
  simpl. tauto.
Qed.

Lemma uniqueTorrents_incl allTorrents t :
  In t (uniqueTorrents allTorrents) -> In t allTorrents.
Proof.
  unfold uniqueTorrents, values, Map. intros H.
  apply Map_add_values_In in H as [[]|H].
  rewrite map_map, map_id in H. exact H.
Qed.

Lemma NoDup_map_filter {A B} (f : A -> B) (p : A -> bool) l :
  NoDup (map f l) -> NoDup (map f (filter p l)).
Proof.
  induction l as [|x l IH]; simpl; intros H; [constructor|].
  inversion H as [|? ? Hx Hl]; subst.
  destruct (p x); simpl; [|auto].
  constructor; [|auto]. intros Hin. apply Hx.
  apply in_map_iff in Hin as (y & Hy & Hin). apply filter_In in Hin as [Hin _].
  rewrite <- Hy. apply in_map. exact Hin.
Qed.

(** ** The ranking *)

Lemma post_filter_positive allTorrents :
  Forall (fun t => positive_seeds t = true) (post_filter allTorrents).
Proof. apply Forall_forall. intros t Ht. apply filter_In in Ht. apply Ht. Qed.

(** The ranking throws exactly when a deduplicated candidate has seeds
    that cannot be converted. *)
Lemma rank_convertible allTorrents :
  Forall convertible (uniqueTorrents allTorrents) ->
  rank allTorrents = sort bySeeds (post_filter allTorrents).
Proof. intros H. unfold rank. rewrite (filterM_alive _ H). reflexivity. Qed.

Lemma rank_unconvertible allTorrents :
  Exists (fun t => seeds t = Unconvertible) (uniqueTorrents allTorrents) ->
  rank allTorrents = Throw TypeError.
Proof. intros H. unfold rank. rewrite (filterM_alive_throws _ H). reflexivity. Qed.


Lemma rank_normal allTorrents out :
  rank allTorrents = Normal out ->
  Forall convertible (uniqueTorrents allTorrents)
  /\ Permutation out (post_filter allTorrents)
  /\ (forall n, filter (has_seeds n) out
                = filter (has_seeds n) (post_filter allTorrents))
  /\ StronglySorted seeds_ge out
  /\ (StronglySorted seeds_ge (post_filter allTorrents) ->
      out = post_filter allTorrents).
Proof.
  intros H.
  destruct (convertible_or_not (uniqueTorrents allTorrents)) as [Hc|Hu];
    [|rewrite (rank_unconvertible _ Hu) in H; discriminate].
  split; [exact Hc|]. rewrite (rank_convertible _ Hc) in H.
  destruct (sort_positive _ (post_filter_positive allTorrents)) as (r & Hr & Hrest).
  rewrite Hr in H. apply (f_equal (fun c => match c with
                                            | Normal x => x
                                            | Throw _ => []
                                            end)) in H.
  cbv beta iota in H. subst r. exact Hrest.
Qed.

Lemma rank_perm allTorrents out :
  rank allTorrents = Normal out -> Permutation out (post_filter allTorrents).
Proof. intros H. apply (rank_normal _ _ H). Qed.

Lemma rank_In allTorrents out t :
  rank allTorrents = Normal out ->
  In t out <-> In t (uniqueTorrents allTorrents) /\ positive_seeds t = true.
Proof.
  intros H. pose proof (rank_perm _ _ H) as Hp. unfold post_filter in Hp.
  rewrite <- filter_In. split; apply Permutation_in; [|symmetry]; exact Hp.
Qed.

Lemma rank_positive allTorrents out :
  rank allTorrents = Normal out ->
  Forall (fun t => positive_seeds t = true) out.
Proof.
  intros H. apply Forall_forall. intros t Ht.
  apply (rank_In _ _ t H) in Ht. apply Ht.
Qed.

Lemma rank_sorted allTorrents out :
  rank allTorrents = Normal out -> StronglySorted seeds_ge out.
Proof. intros H. apply (rank_normal _ _ H). Qed.

Lemma rank_NoDup allTorrents out :
  rank allTorrents = Normal out -> NoDup (map hash out).
Proof.
  intros H. eapply Permutation_NoDup.
  - apply Permutation_map. symmetry. apply (rank_perm _ _ H).
  - apply NoDup_map_filter, uniqueTorrents_NoDup.
Qed.



(** C2: every candidate of the returned list has a positive number of
    seeds, whatever the sources answered; the returned candidates are
    exactly the deduplicated ones that pass [t.seeds > 0]. *)
Theorem returned_seeds_positive w query kind imdbId out :
  outcome (fetchMovieDownloads w query kind imdbId) = Normal out ->
  Forall (fun t => exists z, seeds t = Number (Int z) /\ (0 < z)%Z) out
  /\ exists allTorrents,
       forall t, In t out
                 <-> In t (uniqueTorrents allTorrents)
                     /\ alive t = Normal true.
Proof.
  intros H. apply fetchMovieDownloads_ranked in H as [allTorrents H]. split.
  - eapply Forall_impl; [|apply (rank_positive _ _ H)].
    intros t Ht. apply positive_seeds_spec, Ht.
  - exists allTorrents. intros t.
    rewrite alive_spec, <- positive_seeds_spec. apply (rank_In _ _ t H).
Qed.

Lemma returned_seeds_positive_witness :
  Forall (fun t => exists z, seeds t = Number (Int z) /\ (0 < z)%Z)
    (recovered (fetchMovieDownloads Sample.online (str "Movie Name") movie None)).
Proof.
  apply (returned_seeds_positive Sample.online (str "Movie Name") movie None).
  vm_compute. reflexivity.
Defined.

(** C3: the returned list is in descending order of seeds, and it is the
    stable sort of the post-filter list: for a non-empty query, the
    returned list is a permutation of the deduplicated candidates with
    seeds of the successful sources' concatenation, and for every seed
    count the candidates with that count appear in the returned list in
    the order they have in that post-filter list. *)
Theorem returned_sorted_by_seeds w query kind imdbId out :
  outcome (fetchMovieDownloads w query kind imdbId) = Normal out ->
  (forall i j a b,
      (i < j)%nat -> nth_error out i = Some a -> nth_error out j = Some b ->
      ge (seeds a) (seeds b) = true)
  /\ (forall encodedQuery,
        query <> [] ->
        encodeURIComponent (trim query) = Normal encodedQuery ->
        Permutation out
          (post_filter
             (List.concat
                (successes (sources w (trim query) encodedQuery kind imdbId))))
        /\ forall n,
             filter (has_seeds n) out
             = filter (has_seeds n)
                 (post_filter
                    (List.concat
                       (successes
                          (sources w (trim query) encodedQuery kind imdbId))))).
Proof.
  intros H. split.
  - apply fetchMovieDownloads_ranked in H as [allTorrents H].
    apply (StronglySorted_nth seeds_ge). apply (rank_sorted _ _ H).
  - intros enc Hne Henc. rewrite fetchMovieDownloads_outcome, Henc in H.
    destruct query as [|c q]; [congruence|].
    rewrite recovered_successes in H.
    destruct (rank_normal _ _ H) as (_ & Hperm & Hstable & _).
    split; [exact Hperm|exact Hstable].
Qed.

(** The sample movie: two candidates with 45 seeds each, the one of YTS
    before the one of APIBay, as in the post-filter list. *)
Lemma returned_sorted_by_seeds_witness :
  filter (has_seeds 45)
    (recovered (fetchMovieDownloads Sample.online (str "Movie Name") movie None))
  = filter (has_seeds 45)
      (post_filter
         (List.concat
            (successes (sources Sample.online (trim (str "Movie Name"))
                          (str "Movie%20Name") movie None)))).
Proof.
  apply (returned_sorted_by_seeds Sample.online (str "Movie Name") movie None
           (recovered (fetchMovieDownloads Sample.online (str "Movie Name")
                         movie None))).
  - vm_compute. reflexivity.
  - discriminate.
  - reflexivity.
Defined.

(** C4: deduplication by hash is exact.  When the merged list holds [k]
    distinct hashes, the deduplicated list has [k] entries, its hashes are
    pairwise distinct and are the hashes of the merged list; hashes stay
    pairwise distinct in the list that is returned. *)
Theorem dedup_by_hash_exact allTorrents k :
  List.length (nodup jsstring_eq_dec (map hash allTorrents)) = k ->
  List.length (uniqueTorrents allTorrents) = k
  /\ NoDup (map hash (uniqueTorrents allTorrents))
  /\ (forall h, In h (map hash (uniqueTorrents allTorrents))
                <-> In h (map hash allTorrents))
  /\ (forall out, rank allTorrents = Normal out -> NoDup (map hash out))
  /\ forall w query kind imdbId out,
       outcome (fetchMovieDownloads w query kind imdbId) = Normal out ->
       NoDup (map hash out).
Proof.
  intros <-. split; [|split; [|split; [|split]]].
  - rewrite <- (length_map hash). apply Permutation_length.
    apply NoDup_Permutation.
    + apply uniqueTorrents_NoDup.
    + apply NoDup_nodup.
    + intros h. rewrite nodup_In. apply uniqueTorrents_hash_In.
  - apply uniqueTorrents_NoDup.
  - apply uniqueTorrents_hash_In.
  - apply rank_NoDup.
  - intros w query kind imdbId out H.
    apply fetchMovieDownloads_ranked in H as [l H]. apply (rank_NoDup _ _ H).
Qed.

(** Two candidates sharing the hash [abc123], with 50 and 10 seeds, and a
    third one: three entries, two distinct hashes, two entries kept. *)
Lemma dedup_by_hash_exact_witness :
  List.length
    (uniqueTorrents
       (map (fun hs => {| url := []; hash := fst hs; quality := []; type := [];
                          seeds := Number (Int (snd hs)); peers := Int 0; size := [];
                          date_uploaded := [] |})
            [(str "abc123", 50%Z); (str "ffff00", 7%Z); (str "abc123", 10%Z)]))
  = 2%nat.
Proof.
  apply (dedup_by_hash_exact _ 2). vm_compute. reflexivity.
Defined.

(** ** Regular expressions: what a match means *)

Lemma match_here_sound p s m :
  match_here p s = Some m -> exists post, s = m ++ post /\ ci_equal m p.
Proof.
  revert s m; induction p as [|pc p IH]; intros s m; simpl.
  - intros [= <-]. exists s. split; [reflexivity|constructor].
  - destruct s as [|c s]; [discriminate|].
    destruct (ci_eq c pc) eqn:E; [|discriminate].
    destruct (match_here p s) as [m'|] eqn:Hm; [|discriminate].
    intros [= <-]. destruct (IH _ _ Hm) as (post & -> & Hci).
    exists post. split; [reflexivity|constructor; assumption].
Qed.

Lemma first_alt_sound alts s m :
  first_alt alts s = Some m ->
  exists p post, In p alts /\ s = m ++ post /\ ci_equal m p.
Proof.
  induction alts as [|p alts IH]; simpl; [discriminate|].
  destruct (match_here p s) as [m'|] eqn:Hm.
  - intros [= <-]. destruct (match_here_sound _ _ _ Hm) as (post & H1 & H2).
    exists p, post. auto.
  - intros H. destruct (IH H) as (p' & post & Hin & H1 & H2).
    exists p', post. auto.
Qed.

Lemma regexp_match_sound alts s m :
  regexp_match alts s = Some m ->
  exists p, In p alts /\ occurs m s /\ ci_equal m p.
Proof.
  induction s as [|c s IH]; simpl.
  - destruct (first_alt alts []) as [m'|] eqn:Hm; [|discriminate].
    intros [= <-]. destruct (first_alt_sound _ _ _ Hm) as (p & post & Hin & H1 & H2).
    exists p. split; [assumption|]. split; [|assumption].
    exists [], post. exact H1.
  - destruct (first_alt alts (c :: s)) as [m'|] eqn:Hm.
    + intros [= <-].
      destruct (first_alt_sound _ _ _ Hm) as (p & post & Hin & H1 & H2).
      exists p. split; [assumption|]. split; [|assumption].
      exists [], post. exact H1.
    + intros H. destruct (IH H) as (p & Hin & (pre & post & ->) & H2).
      exists p. split; [assumption|]. split; [|assumption].
      exists (c :: pre), post. reflexivity.
Qed.

Lemma regexp_test_sound p s :
  regexp_test [p] s = true -> contains_ci s p.
Proof.
  unfold regexp_test. destruct (regexp_match [p] s) as [m|] eqn:Hm; [|discriminate].
  intros _. destruct (regexp_match_sound _ _ _ Hm) as (p' & [<-|[]] & Hocc & Hci).
  exists m. auto.
Qed.

Lemma match_here_complete p m post :
  ci_equal m p -> match_here p (m ++ post) = Some m.
Proof.
  induction 1 as [|c pc m p Hc _ IH]; [reflexivity|].
  simpl. rewrite Hc, IH. reflexivity.
Qed.

Lemma first_alt_complete alts p m post :
  In p alts -> ci_equal m p -> first_alt alts (m ++ post) <> None.
Proof.
  induction alts as [|a alts IH]; simpl; [contradiction|].
  intros [->|Hin] Hci.
  - rewrite (match_here_complete _ _ _ Hci). discriminate.
  - destruct (match_here a (m ++ post)); [discriminate|auto].
Qed.

Lemma regexp_match_complete alts p s :
  In p alts -> contains_ci s p -> regexp_match alts s <> None.
Proof.
  intros Hin (m & (pre & post & ->) & Hci).
  induction pre as [|c pre IH].
  - pose proof (first_alt_complete alts p m post Hin Hci) as H.
    cbn [app]. destruct (m ++ post) as [|x r]; cbn [regexp_match];
      destruct (first_alt alts _); congruence.
  - cbn [app regexp_match]. destruct (first_alt alts _); [discriminate|exact IH].
Qed.

(** Matched text upper-cases to the upper-cased literal. *)
Lemma ci_equal_toUpperCase m p : ci_equal m p -> toUpperCase m = toUpperCase p.
Proof.
  induction 1 as [|c pc m p Hc _ IH]; [reflexivity|].
  simpl. apply N.eqb_eq in Hc. congruence.
Qed.

(** The texts that [parseTorrentName] upper-cases are ASCII: matched text
    of ASCII literals, the default literals, and the codec suffixes. *)
Lemma ci_eq_ascii c pc : pc < 128 -> ci_eq c pc = true -> c < 128.
Proof.
  unfold ci_eq, upper. intros Hp H. apply N.eqb_eq in H.
  destruct ((97 <=? c) && (c <=? 122)) eqn:Ec.
  - apply andb_true_iff in Ec as [_ Ec]. apply N.leb_le in Ec. lia.
  - destruct ((97 <=? pc) && (pc <=? 122)); lia.
Qed.

Lemma ci_equal_ascii m p : ascii_text p -> ci_equal m p -> ascii_text m.
Proof.
  intros Hp H. induction H as [|c pc m p Hc _ IH]; [constructor|].
  inversion Hp as [|? ? Hpc Hrest]; subst.
  constructor; [exact (ci_eq_ascii c pc Hpc Hc)|exact (IH Hrest)].
Qed.

Lemma regexp_match_ascii alts s m :
  Forall ascii_text alts -> regexp_match alts s = Some m -> ascii_text m.
Proof.
  intros Ha H. apply regexp_match_sound in H as (p & Hin & _ & Hci).
  rewrite Forall_forall in Ha. eapply ci_equal_ascii; [apply Ha|]; eassumption.
Qed.

Lemma parseTorrentName_ascii name :
  exists q t,
    parseTorrentName name = {| p_quality := toUpperCase q; p_type := toUpperCase t |}
    /\ ascii_text q /\ ascii_text t.
Proof.
  assert (Hq : Forall ascii_text quality_tokens)
    by (vm_compute; repeat constructor).
  assert (Ht : Forall ascii_text type_tokens)
    by (vm_compute; repeat constructor).
  eexists _, _. split; [reflexivity|]. split.
  - destruct (regexp_match quality_tokens name) eqn:E.
    + exact (regexp_match_ascii _ _ _ Hq E).
    + vm_compute; repeat constructor.
  - assert (Hb : ascii_text (base_type name)).
    { unfold base_type. destruct (regexp_match type_tokens name) eqn:E.
      - exact (regexp_match_ascii _ _ _ Ht E).
      - vm_compute; repeat constructor. }
    destruct (regexp_test [str "x265"; str "hevc"] name);
      [|destruct (regexp_test [str "x264"] name)];
      try exact Hb; apply Forall_app; split; try exact Hb;
      vm_compute; repeat constructor.
Qed.

(** *** The season/episode pattern *)

Lemma span_digits_spec r :
  r = fst (span_digits r) ++ snd (span_digits r) /\ digits (fst (span_digits r)).
Proof.
  induction r as [|c r [IH1 IH2]]; simpl; [split; [reflexivity|constructor]|].
  destruct (isDigit c) eqn:E; [|split; [reflexivity|constructor]].
  destruct (span_digits r) as [ds rest]; simpl in *.
  split; [congruence|constructor; assumption].
Qed.

Lemma span_digits_app s r :
  digits s -> span_digits (s ++ r) = (s ++ fst (span_digits r), snd (span_digits r)).
Proof.
  induction 1 as [|c s Hc _ IH]; simpl; [destruct (span_digits r); reflexivity|].
  rewrite Hc, IH. reflexivity.
Qed.

Lemma ci_eq_letter_not_digit c p :
  ci_eq c p = true -> (65 <= p <= 90) -> isDigit c = false.
Proof.
  unfold ci_eq, upper, isDigit. intros H Hp.
  apply N.eqb_eq in H.
  destruct ((97 <=? p) && (p <=? 122)) eqn:Ep.
  - apply andb_true_iff in Ep as [Ep _]. apply N.leb_le in Ep. lia.
  - destruct ((97 <=? c) && (c <=? 122)) eqn:Ec.
    + apply andb_true_iff in Ec as [Ec _]. apply N.leb_le in Ec.
      apply andb_false_iff. right. apply N.leb_gt. lia.
    + subst c. apply andb_false_iff. right. apply N.leb_gt. lia.
Qed.

Lemma ci_eq_digit c d : isDigit d = true -> ci_eq c d = true -> c = d.
Proof.
  unfold ci_eq, upper, isDigit. intros Hd H.
  apply andb_true_iff in Hd as [H1 H2]. apply N.leb_le in H1, H2.
  apply N.eqb_eq in H.
  destruct ((97 <=? d) && (d <=? 122)) eqn:Ed.
  - apply andb_true_iff in Ed as [Ed _]. apply N.leb_le in Ed. lia.
  - destruct ((97 <=? c) && (c <=? 122)) eqn:Ec; [|exact H].
    apply andb_true_iff in Ec as [Ec1 Ec2]. apply N.leb_le in Ec1, Ec2. lia.
Qed.

Lemma ci_equal_digits m s : digits s -> ci_equal m s -> m = s.
Proof.
  intros Hs H. induction H as [|c d m s Hc _ IH]; [reflexivity|].
  inversion Hs; subst. f_equal; [apply ci_eq_digit; assumption|auto].
Qed.

Lemma ci_equal_app_inv m p1 p2 :
  ci_equal m (p1 ++ p2) ->
  exists m1 m2, m = m1 ++ m2 /\ ci_equal m1 p1 /\ ci_equal m2 p2.
Proof.
  revert m; induction p1 as [|c p1 IH]; intros m H; simpl in H.
  - exists [], m. repeat split; [constructor|exact H].
  - inversion H as [|x ? m' ? Hx Hm']; subst.
    destruct (IH _ Hm') as (m1 & m2 & -> & H1 & H2).
    exists (x :: m1), m2. repeat split; [constructor; assumption|assumption].
Qed.

(** At the head of a text that starts with an episode pattern, the regular
    expression matches, with the season digits as its first group. *)
Lemma match_SE_here_complete m post :
  is_episode_pattern m -> match_SE_here (m ++ post) <> None.
Proof.
  intros (s & e & Hci & Hs & He & Ds & De).
  inversion Hci as [|c1 ? m' ? Hc1 Hm']; subst.
  apply ci_equal_app_inv in Hm' as (ms & m2 & -> & Hms & Hm2).
  inversion Hm2 as [|c2 ? me ? Hc2 Hme]; subst.
  apply (ci_equal_digits _ _ Ds) in Hms. apply (ci_equal_digits _ _ De) in Hme.
  subst ms me. cbn [app match_SE_here]. rewrite Hc1.
  rewrite <- app_assoc. rewrite (span_digits_app _ _ Ds).
  cbn [app span_digits].
  rewrite (ci_eq_letter_not_digit c2 69 Hc2) by lia. cbn [fst snd].
  rewrite app_nil_r. destruct s as [|d ds]; [congruence|].
  rewrite Hc2. rewrite (span_digits_app _ _ De).
  destruct e as [|d' es]; [congruence|]. cbn [app]. discriminate.
Qed.

Lemma regexp_match_SE_complete m query :
  is_episode_pattern m -> occurs m query -> regexp_match_SE query <> None.
Proof.
  intros Hm (pre & post & ->). induction pre as [|c pre IH].
  - pose proof (match_SE_here_complete m post Hm) as H.
    destruct Hm as (s & e & Hci & _). inversion Hci; subst.
    cbn [app] in *. cbn [regexp_match_SE].
    destruct (match_SE_here _); [discriminate|congruence].
  - cbn [app regexp_match_SE]. destruct (match_SE_here _); [discriminate|exact IH].
Qed.

Lemma match_SE_here_sound q s e :
  match_SE_here q = Some (s, e) ->
  s <> [] /\ e <> [] /\ digits s /\ digits e
  /\ exists m post, q = m ++ post /\ ci_equal m (SE s e).
Proof.
  unfold match_SE_here. destruct q as [|c1 r]; [discriminate|].
  destruct (ci_eq c1 83) eqn:Hc1; [|discriminate].
  destruct (span_digits_spec r) as [Hr Dr].
  destruct (span_digits r) as [[|d ds] [|c2 r2]]; try discriminate.
  destruct (ci_eq c2 69) eqn:Hc2; [|discriminate].
  destruct (span_digits_spec r2) as [Hr2 Dr2].
  destruct (span_digits r2) as [[|d' es] rest]; [discriminate|].
  intros [= <- <-]. cbn [fst snd] in *.
  repeat split; try discriminate; try assumption.
  exists (c1 :: (d :: ds) ++ c2 :: d' :: es), rest. split.
  - rewrite Hr, Hr2. cbn [app]. rewrite <- !app_assoc. reflexivity.
  - unfold SE. constructor; [exact Hc1|].
    apply Forall2_app.
    + clear -Dr. induction Dr as [|x l Hx _ IH]; constructor; [|exact IH].
      unfold ci_eq. apply N.eqb_refl.
    + constructor; [exact Hc2|].
      clear -Dr2. induction Dr2 as [|x l Hx _ IH]; constructor; [|exact IH].
      unfold ci_eq. apply N.eqb_refl.
Qed.

Lemma regexp_match_SE_sound q s e :
  regexp_match_SE q = Some (s, e) ->
  s <> [] /\ e <> [] /\ digits s /\ digits e /\ contains_ci q (SE s e).
Proof.
  induction q as [|c q IH]; cbn [regexp_match_SE].
  - cbn. discriminate.
  - destruct (match_SE_here (c :: q)) as [[s' e']|] eqn:Hm.
    + intros [= -> ->]. apply match_SE_here_sound in Hm
        as (H1 & H2 & H3 & H4 & m & post & Hq & Hci).
      repeat split; try assumption.
      exists m. split; [exists [], post; exact Hq|exact Hci].
    + intros H. destruct (IH H) as (H1 & H2 & H3 & H4 & m & (pre & post & ->) & Hci).
      repeat split; try assumption.
      exists m. split; [exists (c :: pre), post; reflexivity|exact Hci].
Qed.

(** *** [trim] keeps what is not white space *)

Lemma trimStart_split s : exists ws, s = ws ++ trimStart s /\ blank ws.
Proof.
  induction s as [|c s (ws & IH & Hws)]; simpl.
  - exists []. split; [reflexivity|constructor].
  - destruct (isWhiteSpace c) eqn:E.
    + exists (c :: ws). split; [simpl; congruence|constructor; assumption].
    + exists []. split; [reflexivity|constructor].
Qed.

Lemma trim_split s :
  exists ws1 ws2, s = ws1 ++ trim s ++ ws2 /\ blank ws1 /\ blank ws2.
Proof.
  destruct (trimStart_split s) as (ws1 & H1 & B1).
  destruct (trimStart_split (rev (trimStart s))) as (ws2 & H2 & B2).
  exists ws1, (rev ws2). unfold trim. split; [|split; [exact B1|]].
  - rewrite <- rev_app_distr, <- H2, rev_involutive. exact H1.
  - apply Forall_rev. exact B2.
Qed.

Lemma occurs_strip_prefix ws c m r :
  blank ws -> isWhiteSpace c = false -> occurs (c :: m) (ws ++ r) -> occurs (c :: m) r.
Proof.
  intros Hws Hc. induction Hws as [|w ws Hw _ IH]; [auto|].
  intros (pre & post & H). destruct pre as [|x pre]; simpl in H.
  - injection H as Hx _. congruence.
  - injection H as _ H. apply IH. exists pre, post. exact H.
Qed.

Lemma occurs_rev m s : occurs m s -> occurs (rev m) (rev s).
Proof.
  intros (pre & post & ->). exists (rev post), (rev pre).
  rewrite !rev_app_distr, app_assoc. reflexivity.
Qed.

Lemma occurs_trim c m d s :
  isWhiteSpace c = false -> isWhiteSpace d = false ->
  occurs (c :: m ++ [d]) s -> occurs (c :: m ++ [d]) (trim s).
Proof.
  intros Hc Hd H.
  destruct (trim_split s) as (ws1 & ws2 & Hs & B1 & B2).
  rewrite Hs in H. apply (occurs_strip_prefix _ _ _ _ B1 Hc) in H.
  assert (E : rev (c :: m ++ [d]) = d :: rev (c :: m)).
  { change (c :: m ++ [d]) with ((c :: m) ++ [d]).
    rewrite rev_app_distr. reflexivity. }
  apply occurs_rev in H. rewrite E, rev_app_distr in H.
  apply occurs_strip_prefix in H; [|apply Forall_rev; exact B2|exact Hd].
  apply occurs_rev in H. rewrite <- E, !rev_involutive in H.
  exact H.
Qed.

Lemma occurs_in_trim m s : occurs m (trim s) -> occurs m s.
Proof.
  intros (pre & post & H).
  destruct (trim_split s) as (ws1 & ws2 & Hs & _).
  exists (ws1 ++ pre), (post ++ ws2). rewrite Hs, H, <- !app_assoc. reflexivity.
Qed.

Ltac not_white :=
  unfold isWhiteSpace; cbn [existsb];
  repeat (apply orb_false_iff; split);
  try (apply N.eqb_neq; lia); try reflexivity;
  apply andb_false_iff; left; apply N.leb_gt; lia.

Lemma digit_not_white c : isDigit c = true -> isWhiteSpace c = false.
Proof.
  unfold isDigit. intros H. apply andb_true_iff in H as [H1 H2].
  apply N.leb_le in H1, H2. not_white.
Qed.

Lemma ci_eq_S_not_white c : ci_eq c 83 = true -> isWhiteSpace c = false.
Proof.
  unfold ci_eq, upper. intros H. apply N.eqb_eq in H. cbn in H.
  destruct ((97 <=? c) && (c <=? 122)) eqn:E.
  - apply andb_true_iff in E as [E1 E2]. apply N.leb_le in E1, E2. not_white.
  - subst c. reflexivity.
Qed.

(** An episode pattern starts with a letter and ends with a digit. *)
Lemma episode_pattern_ends m :
  is_episode_pattern m ->
  exists c m' d, m = c :: m' ++ [d]
                 /\ isWhiteSpace c = false /\ isWhiteSpace d = false.
Proof.
  intros (s & e & Hci & Hs & He & Ds & De).
  inversion Hci as [|c1 ? m0 ? Hc1 Hm0]; subst.
  apply ci_equal_app_inv in Hm0 as (ms & m2 & -> & Hms & Hm2).
  inversion Hm2 as [|c2 ? me ? Hc2 Hme]; subst.
  apply (ci_equal_digits _ _ De) in Hme. subst me.
  destruct (exists_last He) as (e' & d & ->).
  exists c1, (ms ++ c2 :: e'), d. split; [|split].
  - rewrite <- app_assoc. reflexivity.
  - apply ci_eq_S_not_white, Hc1.
  - apply digit_not_white. unfold digits in De. rewrite Forall_app in De.
    destruct De as [_ De]. inversion De; assumption.
Qed.

(** ** The episodic source *)

Lemma eztv_source_outcome w cleanQuery numericId :
  outcome (eztv_source w cleanQuery numericId)
  = match eztv_request numericId with
    | Normal proxyUrl =>
        match eztv w proxyUrl with
        | Normal (Some torrents) =>
            match
              match regexp_match_SE cleanQuery with
              | Some (s, e) =>
                  filterM
                    (fun t => cmap (fun t => regexp_test (episode_regex s e) (ez_title t))
                                   (deref t))
                    torrents
              | None => Normal torrents
              end
            with
            | Normal results =>
                mapM (fun t => cmap (eztv_torrent w) (deref t)) (firstn 8 results)
            | Throw e => Throw e
            end
        | Normal None => Normal []
        | Throw e => Throw e
        end
    | Throw e => Throw e
    end.
Proof.
  unfold eztv_source. rewrite outcome_bind, outcome_lift.
  destruct (eztv_request numericId) as [u|]; [|reflexivity].
  rewrite outcome_bind. unfold fetch_json at 1. cbn [outcome fst].
  destruct (eztv w u) as [[torrents|]|]; try reflexivity.
  rewrite outcome_bind, outcome_lift.
  destruct (match regexp_match_SE cleanQuery with Some _ => _ | None => _ end);
    reflexivity.
Qed.

Lemma map_Some_inj {A} (l1 l2 : list A) : map Some l1 = map Some l2 -> l1 = l2.
Proof.
  revert l2; induction l1 as [|x l1 IH]; intros [|y l2]; simpl; try discriminate.
  - reflexivity.
  - intros [= -> H]. f_equal. auto.
Qed.

(** With an episode in the query, a normal completion of the source is
    the conversion of the first eight entries that pass the filter. *)
Lemma eztv_source_normal w cleanQuery numericId s e out :
  regexp_match_SE cleanQuery = Some (s, e) ->
  outcome (eztv_source w cleanQuery numericId) = Normal out ->
  out = []
  \/ exists proxyUrl entries,
       eztv_request numericId = Normal proxyUrl
       /\ eztv w proxyUrl = Normal (Some (map Some entries))
       /\ out = map (eztv_torrent w)
                  (firstn 8 (filter (fun t => regexp_test (episode_regex s e) (ez_title t))
                               entries)).
Proof.
  intros Hre. rewrite eztv_source_outcome, Hre.
  destruct (eztv_request numericId) as [u|]; [|discriminate].
  destruct (eztv w u) as [[torrents|]|] eqn:Hw;
    [| intros [= <-]; auto | discriminate].
  destruct (filterM _ torrents) as [results|] eqn:Hf; [|discriminate].
  intros Hm. right. exists u.
  apply filterM_deref_normal in Hf as (entries & -> & ->).
  rewrite firstn_map in Hm.
  apply mapM_deref_normal in Hm as (es & Hes & ->).
  apply map_Some_inj in Hes. subst es.
  exists entries. repeat split. exact Hw.
Qed.

Lemma eztv_source_well_shaped w cleanQuery numericId s e proxyUrl entries :
  regexp_match_SE cleanQuery = Some (s, e) ->
  eztv_request numericId = Normal proxyUrl ->
  eztv w proxyUrl = Normal (Some (map Some entries)) ->
  outcome (eztv_source w cleanQuery numericId)
  = Normal (map (eztv_torrent w)
              (firstn 8 (filter (fun t => regexp_test (episode_regex s e) (ez_title t))
                           entries))).
Proof.
  intros Hre Hu Hw. rewrite eztv_source_outcome, Hre, Hu, Hw.
  assert (Hf : forall l : list eztv_entry,
             filterM (fun t => cmap (fun t => regexp_test (episode_regex s e) (ez_title t))
                                    (deref t)) (map Some l)
             = Normal (map Some (filter (fun t => regexp_test (episode_regex s e) (ez_title t)) l))).
  { induction l as [|x l IH]; [reflexivity|]. simpl. rewrite IH. simpl.
    destruct (regexp_test _ _); reflexivity. }
  rewrite Hf, firstn_map.
  generalize (firstn 8 (filter (fun t => regexp_test (episode_regex s e) (ez_title t)) entries)).
  induction l as [|x l IH]; [reflexivity|]. simpl. rewrite IH. reflexivity.
Qed.

(** The episodic source is the one started for a TV call with an id. *)
Lemma episodic_source_started w cleanQuery encodedQuery imdbId c r :
  cleanImdbId imdbId = Some (c :: r) ->
  sources w cleanQuery encodedQuery tv imdbId
  = [eztv_source w cleanQuery (c :: r);
     apibay_source w encodedQuery; solid_source w encodedQuery].
Proof.
  intros H. unfold sources. rewrite H.
  destruct imdbId as [[|x id]|]; try discriminate. reflexivity.
Qed.

Lemma regexp_test_complete p s :
  contains_ci s p -> regexp_test [p] s = true.
Proof.
  intros H. unfold regexp_test.
  pose proof (regexp_match_complete [p] p s (or_introl eq_refl) H) as Hm.
  destruct (regexp_match [p] s); [reflexivity|congruence].
Qed.

Lemma selection_filter {A} (P : A -> Prop) (f : A -> bool) l :
  (forall x, f x = true <-> P x) -> selection P l (filter f l).
Proof.
  intros Hf. induction l as [|x l IH]; [constructor|].
  cbn [filter]. destruct (f x) eqn:E.
  - apply selection_keep; [apply Hf, E|exact IH].
  - apply selection_drop; [|exact IH]. intros HP. apply Hf in HP. congruence.
Qed.

(** The filter of the episodic source selects the entries whose title
    contains [S<s>E<e>] up to case. *)
Lemma episode_filter_selection s e entries :
  selection (fun t => contains_ci (ez_title t) (SE s e)) entries
    (filter (fun t => regexp_test (episode_regex s e) (ez_title t)) entries).
Proof.
  apply selection_filter. intros t. split.
  - apply regexp_test_sound.
  - apply regexp_test_complete.
Qed.

(** C5: when the query of an episodic call contains a season/episode
    pattern, the regular expression finds one, [S<s>E<e>], in the trimmed
    query, and the EZTV source emits exactly this: from the entries EZTV
    answered, those whose title does not contain [S<s>E<e>] up to case are
    removed, the others are kept in their order, and the first eight of
    the kept entries are converted; the removal comes before the cap.  On
    any other answer (a failure, no [torrents] field, a [null] entry) the
    source emits nothing.  This source, run on the trimmed query, is the
    one a TV call with an IMDB id starts. *)
Theorem eztv_keeps_requested_episode w query numericId :
  (exists m, is_episode_pattern m /\ occurs m query) ->
  (forall encodedQuery imdbId c r,
      cleanImdbId imdbId = Some (c :: r) -> numericId = c :: r ->
      In (eztv_source w (trim query) numericId)
         (sources w (trim query) encodedQuery tv imdbId))
  /\ exists s e,
    regexp_match_SE (trim query) = Some (s, e)
    /\ s <> [] /\ e <> [] /\ digits s /\ digits e
    /\ contains_ci query (SE s e)
    /\ (forall proxyUrl entries,
          eztv_request numericId = Normal proxyUrl ->
          eztv w proxyUrl = Normal (Some (map Some entries)) ->
          exists kept,
            selection (fun t => contains_ci (ez_title t) (SE s e)) entries kept
            /\ outcome (isolated (eztv_source w (trim query) numericId))
               = Normal (map (eztv_torrent w) (firstn 8 kept)))
    /\ (outcome (isolated (eztv_source w (trim query) numericId)) = Normal []
        \/ exists proxyUrl entries kept,
            eztv_request numericId = Normal proxyUrl
            /\ eztv w proxyUrl = Normal (Some (map Some entries))
            /\ selection (fun t => contains_ci (ez_title t) (SE s e))
                 entries kept
            /\ outcome (isolated (eztv_source w (trim query) numericId))
               = Normal (map (eztv_torrent w) (firstn 8 kept))).
Proof.
  intros (m & Hm & Hocc). split.
  { intros enc imdbId c r Hid ->.
    rewrite (episodic_source_started _ _ _ _ _ _ Hid). left. reflexivity. }
  destruct (episode_pattern_ends m Hm) as (c & m' & d & Em & Hc & Hd).
  assert (Hocc' : occurs m (trim query))
    by (rewrite Em in *; apply occurs_trim; assumption).
  pose proof (regexp_match_SE_complete m (trim query) Hm Hocc') as Hsome.
  destruct (regexp_match_SE (trim query)) as [[s e]|] eqn:Hre; [|congruence].
  destruct (regexp_match_SE_sound _ _ _ Hre) as (Hs & He & Ds & De & m2 & Hocc2 & Hci).
  exists s, e. repeat (split; [assumption || reflexivity|]).
  split; [exists m2; split; [apply occurs_in_trim|]; assumption|].
  split.
  - intros u entries Hu Hw.
    exists (filter (fun t => regexp_test (episode_regex s e) (ez_title t)) entries).
    split; [apply episode_filter_selection|].
    rewrite isolated_outcome. unfold recovered.
    rewrite (eztv_source_well_shaped _ _ _ _ _ _ _ Hre Hu Hw). reflexivity.
  - rewrite isolated_outcome. unfold recovered.
    destruct (outcome (eztv_source w (trim query) numericId)) as [out|] eqn:Hout;
      [|left; reflexivity].
    destruct (eztv_source_normal _ _ _ _ _ _ Hre Hout)
      as [->|(u & entries & Hu & Hw & ->)]; [left; reflexivity|].
    right. exists u, entries. eexists. split; [exact Hu|]. split; [exact Hw|].
    split; [apply episode_filter_selection|reflexivity].
Qed.

Lemma eztv_keeps_requested_episode_witness :
  exists s e kept,
    regexp_match_SE (trim (str "Show S01E02")) = Some (s, e)
    /\ selection (fun t => contains_ci (ez_title t) (SE s e))
         (flat_map (fun t => match t with Some t => [t] | None => [] end)
            Sample.eztv_entries)
         kept
    /\ outcome (isolated (eztv_source Sample.online (trim (str "Show S01E02"))
                            (str "0944947")))
       = Normal (map (eztv_torrent Sample.online) (firstn 8 kept)).
Proof.
  destruct (eztv_keeps_requested_episode Sample.online (str "Show S01E02")
              (str "0944947"))
    as (_ & s & e & Hre & _ & _ & _ & _ & _ & Hkept & _).
  - exists (str "S01E02"). split.
    + exists (str "01"), (str "02").
      repeat split; try discriminate; vm_compute; repeat constructor.
    + exists (str "Show "), []. reflexivity.
  - destruct (Hkept
                match eztv_request (str "0944947") with
                | Normal proxyUrl => proxyUrl
                | Throw _ => []
                end
                (flat_map (fun t => match t with Some t => [t] | None => [] end)
                   Sample.eztv_entries))
      as (kept & H1 & H2); [reflexivity|reflexivity|].
    exists s, e, kept. split; [exact Hre|]. split; assumption.
Defined.

(** The example of the specification: of the titles [Show.S01E02.HDTV] and
    [Show.S02E02.HDTV], only the first passes the filter for the query
    [Show S01E02]. *)
Example episode_filter_example :
  option_map (fun g => filter (regexp_test (episode_regex (fst g) (snd g)))
                         [str "Show.S01E02.HDTV"; str "Show.S02E02.HDTV"])
    (regexp_match_SE (str "Show S01E02"))
  = Some [str "Show.S01E02.HDTV"].
Proof. reflexivity. Qed.

(** ** [parseTorrentName]: the codec suffix *)

(** C7, as stated, fails: the suffix is appended before the whole type is
    upper-cased, so the tag of an x264 release ends with [" (X264)"], not
    with [" (x264)"]. *)
Lemma parseTorrentName_x264_suffix_upper_cased :
  regexp_test [str "x264"] x264_release = true
  /\ regexp_test [str "x265"; str "hevc"] x264_release = false
  /\ p_type (parseTorrentName x264_release) = str "WEBRIP (X264)"
  /\ endsWith (p_type (parseTorrentName x264_release)) (str " (x264)") = false.
Proof. repeat split. Qed.

(** C7 (amended): the type is the upper-cased base type followed by the
    upper-cased codec suffix: [" (HEVC)"] for every name matching x265 or
    hevc, whether or not x264 matches too; [" (X264)"] for every name
    matching x264 and neither x265 nor hevc; the quality is upper-cased as
    well. *)
Theorem parseTorrentName_codec_suffix name :
  (regexp_test [str "x265"; str "hevc"] name = true ->
   p_type (parseTorrentName name) = toUpperCase (base_type name) ++ str " (HEVC)")
  /\ (regexp_test [str "x265"; str "hevc"] name = false ->
      regexp_test [str "x264"] name = true ->
      p_type (parseTorrentName name) = toUpperCase (base_type name) ++ str " (X264)"
      /\ endsWith (p_type (parseTorrentName name)) (str " (X264)") = true)
  /\ p_quality (parseTorrentName name)
     = toUpperCase match regexp_match quality_tokens name with
                   | Some m => m
                   | None => str "Unknown"
                   end.
Proof.
  unfold parseTorrentName. cbn [p_type p_quality]. split; [|split].
  - intros ->. unfold toUpperCase. rewrite map_app. reflexivity.
  - intros -> ->. unfold toUpperCase. rewrite map_app. split; [reflexivity|].
    unfold endsWith. rewrite rev_app_distr. reflexivity.
  - reflexivity.
Qed.

Lemma parseTorrentName_codec_suffix_witness :
  p_type (parseTorrentName x264_release)
  = toUpperCase (base_type x264_release) ++ str " (X264)"
  /\ p_type (parseTorrentName (str "Movie.2024.1080p.BluRay.x264.HEVC-GRP"))
     = toUpperCase (base_type (str "Movie.2024.1080p.BluRay.x264.HEVC-GRP"))
       ++ str " (HEVC)".
Proof.
  split.
  - apply (parseTorrentName_codec_suffix x264_release); reflexivity.
  - apply (parseTorrentName_codec_suffix
             (str "Movie.2024.1080p.BluRay.x264.HEVC-GRP")); reflexivity.
Defined.

(** ** Size labels *)

Lemma decimal_digits n : digits (decimal n).
Proof.
  unfold decimal. generalize (N.to_uint n). intros d.
  induction d; simpl; constructor; (reflexivity || assumption).
Qed.

Lemma decimal_nonempty n : decimal n <> [].
Proof.
  unfold decimal. destruct n as [|p]; [discriminate|].
  simpl. pose proof (DecimalPos.Unsigned.to_uint_nonnil p) as H.
  destruct (Pos.to_uint p); [congruence| | | | | | | | | |]; discriminate.
Qed.

Lemma digits_firstn_skipn n s :
  digits s -> digits (firstn n s) /\ digits (skipn n s).
Proof.
  intros H. rewrite <- (firstn_skipn n s) in H. apply Forall_app in H. exact H.
Qed.

Lemma toFixed_shape f num den :
  fixed_point f (num <? 0)%Z (toFixed f (Quot num den)).
Proof.
  unfold toFixed.
  set (n := (2 * Z.abs_N num * 10 ^ N.of_nat f + N.pos den) / (2 * N.pos den)).
  set (m := repeat 48 (S f - List.length (decimal n)) ++ decimal n).
  assert (Dm : digits m).
  { apply Forall_app. split; [|apply decimal_digits].
    apply Forall_forall. intros c Hc. apply repeat_spec in Hc. subst c. reflexivity. }
  assert (Lm : (S f <= List.length m)%nat).
  { unfold m. rewrite length_app, repeat_length. lia. }
  destruct f as [|f].
  - exists m, []. rewrite app_nil_r. repeat split; try assumption; [|constructor].
    destruct m; [simpl in Lm; lia|discriminate].
  - exists (firstn (List.length m - S f) m), (skipn (List.length m - S f) m).
    repeat split.
    + apply digits_firstn_skipn, Dm.
    + intros H. apply (f_equal (@List.length N)) in H.
      rewrite length_firstn in H. simpl in H. lia.
    + apply digits_firstn_skipn, Dm.
    + rewrite length_skipn. lia.
Qed.

Lemma apibay_torrent_size item t :
  apibay_torrent item = Normal t -> size t = apibay_size (parseInt (ab_size item)).
Proof.
  unfold apibay_torrent. destruct (encodeURIComponent _); [|discriminate].
  intros [= <-]. reflexivity.
Qed.

(** A size that [parseInt] cannot read is labelled without decimals. *)
Example apibay_size_unparsable : apibay_size (parseInt (str "n/a")) = str "NaN MB".
Proof. reflexivity. Qed.

(** C8, as stated, fails: the test is [sizeBytes > 1073741824], so a byte
    count of exactly 1073741824 is labelled in MB. *)
Lemma apibay_one_gib_in_MB :
  parseInt (ab_size one_gib_row) = Int 1073741824
  /\ cmap size (apibay_torrent one_gib_row) = Normal (str "1024.00 MB")
  /\ cmap (fun t => endsWith (size t) (str " GB")) (apibay_torrent one_gib_row)
     = Normal false.
Proof. repeat split. Qed.

(** C8 (amended): for every APIBay entry whose size parses to the safe
    integer [b], the label is [b / 1073741824] with two decimals followed by
    [" GB"] if and only if [b] is strictly greater than 1073741824, and
    otherwise [b / 1048576] with two decimals followed by [" MB"]; a byte
    count of exactly 1073741824 is labelled ["1024.00 MB"]. *)
Theorem apibay_size_threshold item t b :
  apibay_torrent item = Normal t ->
  parseInt (ab_size item) = Int b ->
  safe_integer b ->
  exists num unit_,
    size t = num ++ unit_
    /\ fixed_point 2 (b <? 0)%Z num
    /\ (unit_ = str " GB" <-> (1073741824 < b)%Z)
    /\ (unit_ = str " MB" <-> (b <= 1073741824)%Z)
    /\ ((1073741824 < b)%Z -> num = toFixed 2 (Quot b 1073741824))
    /\ ((b <= 1073741824)%Z -> num = toFixed 2 (Quot b 1048576))
    /\ (b = 1073741824%Z -> size t = str "1024.00 MB").
Proof.
  intros Ht Hb _. rewrite (apibay_torrent_size _ _ Ht), Hb.
  unfold apibay_size, gt, div. destruct (1073741824 <? b)%Z eqn:E.
  - apply Z.ltb_lt in E.
    exists (toFixed 2 (Quot b 1073741824)), (str " GB").
    split; [reflexivity|]. split; [apply toFixed_shape|].
    repeat split; intros; try reflexivity; try assumption; try lia; discriminate.
  - apply Z.ltb_ge in E.
    exists (toFixed 2 (Quot b 1048576)), (str " MB").
    split; [reflexivity|]. split; [apply toFixed_shape|].
    repeat split; intros; try reflexivity; try assumption; try lia;
      try discriminate.
    subst b. reflexivity.
Qed.

Lemma apibay_size_threshold_witness :
  exists num unit_,
    cmap size
      (apibay_torrent
         {| ab_id := str "7001";
            ab_name := str "Movie.Name.2024.1080p.BluRay.x265-GROUP";
            ab_info_hash := str "AAA"; ab_size := str "2254857830";
            ab_seeders := str "80"; ab_leechers := str "7" |})
    = Normal (num ++ unit_)
    /\ unit_ = str " GB" /\ num = str "2.10".
Proof.
  destruct (apibay_torrent
              {| ab_id := str "7001";
                 ab_name := str "Movie.Name.2024.1080p.BluRay.x265-GROUP";
                 ab_info_hash := str "AAA"; ab_size := str "2254857830";
                 ab_seeders := str "80"; ab_leechers := str "7" |})
    as [t|] eqn:Ht; [|discriminate].
  destruct (apibay_size_threshold _ t 2254857830 Ht eq_refl
              ltac:(unfold safe_integer, MAX_SAFE_INTEGER; lia))
    as (num & unit_ & Hsize & _ & Hgb & _ & Hnum & _).
  exists num, unit_. simpl. rewrite Hsize. split; [reflexivity|]. split.
  - apply Hgb. reflexivity.
  - rewrite Hnum; reflexivity.
Defined.

(** C9, as stated, fails: the label is made with [toFixed(0)]; it has no
    decimal place at all. *)
Lemma eztv_size_has_no_decimal_place :
  size (eztv_torrent Sample.online entry_700_mib) = str "700 MB"
  /\ ~ (exists ip d,
          size (eztv_torrent Sample.online entry_700_mib)
          = ip ++ [46; d] ++ str " MB").
Proof.
  split; [reflexivity|]. intros (ip & d & H).
  assert (Hin : In 46 (size (eztv_torrent Sample.online entry_700_mib)))
    by (rewrite H; apply in_or_app; right; left; reflexivity).
  vm_compute in Hin. repeat (destruct Hin as [Hin|Hin]; [discriminate|]).
  exact Hin.
Qed.

(** C9 (amended): for every EZTV entry whose byte count is the safe
    integer [b], the
    label is [b / 1048576] rounded to the nearest integer (half up in
    absolute value), written in decimal without a decimal point, and
    followed by [" MB"]. *)
Theorem eztv_size_whole_megabytes w t b :
  ez_size_bytes t = Int b ->
  safe_integer b ->
  size (eztv_torrent w t)
  = (if (b <? 0)%Z then [45] else [])
    ++ decimal ((2 * Z.abs_N b + 1048576) / 2097152) ++ str " MB"
  /\ digits (decimal ((2 * Z.abs_N b + 1048576) / 2097152))
  /\ ~ In 46 (size (eztv_torrent w t)).
Proof.
  intros Hb _.
  assert (E : size (eztv_torrent w t)
              = (if (b <? 0)%Z then [45] else [])
                ++ decimal ((2 * Z.abs_N b + 1048576) / 2097152) ++ str " MB").
  { unfold eztv_torrent. cbn [size]. rewrite Hb. unfold div, toFixed.
    change (N.of_nat 0) with 0. change (10 ^ 0) with 1.
    change (2 * N.pos 1048576) with 2097152. rewrite N.mul_1_r.
    set (n := (2 * Z.abs_N b + N.pos 1048576) / 2097152).
    pose proof (decimal_nonempty n) as Hne.
    destruct (decimal n) as [|c ds] eqn:Ed; [congruence|].
    cbn [List.length Nat.sub repeat app]. rewrite <- app_assoc. reflexivity. }
  split; [exact E|]. split; [apply decimal_digits|].
  rewrite E. intros Hin.
  apply in_app_or in Hin as [Hin|Hin].
  - destruct (b <? 0)%Z; [destruct Hin as [Hin|[]]; discriminate|destruct Hin].
  - apply in_app_or in Hin as [Hin|Hin].
    + pose proof (decimal_digits ((2 * Z.abs_N b + 1048576) / 2097152)) as D.
      unfold digits in D. rewrite Forall_forall in D.
      specialize (D _ Hin). discriminate.
    + vm_compute in Hin. repeat (destruct Hin as [Hin|Hin]; [discriminate|]).
      exact Hin.
Qed.

Lemma eztv_size_whole_megabytes_witness :
  size (eztv_torrent Sample.online entry_700_mib) = str "700 MB".
Proof.
  apply (eztv_size_whole_megabytes Sample.online entry_700_mib 734003200);
    [reflexivity|unfold safe_integer, MAX_SAFE_INTEGER; lia].
Defined.

(** ** The quality label of title-parsed candidates *)

Lemma display_quality_known q : display_quality q <> str "UNKNOWN".
Proof.
  unfold display_quality. destruct (eqb q (str "UNKNOWN")) eqn:E.
  - discriminate.
  - apply eqb_neq, E.
Qed.

Lemma display_quality_remaps q : q = str "UNKNOWN" -> display_quality q = str "HD".
Proof. intros ->. reflexivity. Qed.

Lemma apibay_torrent_quality item t :
  apibay_torrent item = Normal t ->
  quality t = display_quality (p_quality (parseTorrentName (ab_name item))).
Proof.
  unfold apibay_torrent. destruct (encodeURIComponent _); [|discriminate].
  intros [= <-]. reflexivity.
Qed.

Lemma solid_torrent_quality item t :
  solid_torrent item = Normal t ->
  quality t = display_quality (p_quality (parseTorrentName (so_title item))).
Proof.
  unfold solid_torrent. destruct (deref _); [|discriminate].
  intros [= <-]. reflexivity.
Qed.

Lemma Forall2_converted {A} (g : A -> completion Torrent) items out :
  (forall a t, g a = Normal t -> quality_known t) ->
  Forall2 (fun a t => g a = Normal t) items out -> Forall quality_known out.
Proof.
  intros Hg H. induction H; constructor; eauto.
Qed.

Lemma apibay_source_known w encodedQuery out :
  outcome (apibay_source w encodedQuery) = Normal out -> Forall quality_known out.
Proof.
  unfold apibay_source. rewrite outcome_bind, outcome_lift.
  destruct (apibay_request encodedQuery) as [u|]; [|discriminate].
  rewrite outcome_bind. unfold fetch_json at 1. cbn [outcome fst].
  destruct (apibay w u) as [[[|first rest]|]|];
    try discriminate; try (intros [= <-]; constructor).
  rewrite outcome_bind, outcome_lift.
  destruct (deref first) as [first_item|]; [|discriminate].
  destruct (negb _); [|intros [= <-]; constructor].
  rewrite outcome_lift. intros H.
  apply mapM_bind_normal in H as (items & _ & H).
  apply (Forall2_converted _ _ _ (fun a t Ht => eq_ind_r (fun q => q <> _)
           (display_quality_known _) (apibay_torrent_quality a t Ht)) H).
Qed.

Lemma solid_source_known w encodedQuery out :
  outcome (solid_source w encodedQuery) = Normal out -> Forall quality_known out.
Proof.
  unfold solid_source. rewrite outcome_bind, outcome_lift.
  destruct (solid_request encodedQuery) as [u|]; [|discriminate].
  rewrite outcome_bind. unfold fetch_json at 1. cbn [outcome fst].
  destruct (solidtorrents w u) as [[[|first rest]|]|];
    try discriminate; try (intros [= <-]; constructor).
  rewrite outcome_lift. intros H.
  apply mapM_bind_normal in H as (items & _ & H).
  apply (Forall2_converted _ _ _ (fun a t Ht => eq_ind_r (fun q => q <> _)
           (display_quality_known _) (solid_torrent_quality a t Ht)) H).
Qed.

Lemma eztv_source_known w cleanQuery numericId out :
  outcome (eztv_source w cleanQuery numericId) = Normal out ->
  Forall quality_known out.
Proof.
  rewrite eztv_source_outcome.
  destruct (eztv_request numericId) as [u|]; [|discriminate].
  destruct (eztv w u) as [[torrents|]|];
    [| intros [= <-]; constructor | discriminate].
  destruct (match regexp_match_SE cleanQuery with Some _ => _ | None => _ end)
    as [results|]; [|discriminate].
  intros H. apply mapM_deref_normal in H as (es & _ & ->).
  apply Forall_forall. intros t Ht. apply in_map_iff in Ht as (e & <- & _).
  apply display_quality_known.
Qed.

Lemma recovered_known body :
  (forall out, outcome body = Normal out -> Forall quality_known out) ->
  Forall quality_known (recovered body).
Proof.
  intros H. unfold recovered. destruct (outcome body); [auto|constructor].
Qed.

Lemma rank_from allTorrents out t :
  rank allTorrents = Normal out -> In t out -> In t allTorrents.
Proof.
  intros Hr H. apply (rank_In _ _ t Hr) in H. apply uniqueTorrents_incl, H.
Qed.

(** C10: every candidate emitted by the APIBay and SolidTorrents sources
    has a quality other than ["UNKNOWN"]: as in the EZTV source, a parsed
    quality of ["UNKNOWN"] is replaced by ["HD"].  So a candidate of the
    returned list with quality ["UNKNOWN"] can only be one that YTS
    supplied, whose quality is not parsed from a title. *)
Theorem title_parsed_quality_never_unknown w :
  (forall encodedQuery out,
      outcome (apibay_source w encodedQuery) = Normal out ->
      Forall quality_known out)
  /\ (forall encodedQuery out,
        outcome (solid_source w encodedQuery) = Normal out ->
        Forall quality_known out)
  /\ (forall item t,
        apibay_torrent item = Normal t ->
        p_quality (parseTorrentName (ab_name item)) = str "UNKNOWN" ->
        quality t = str "HD")
  /\ (forall item t,
        solid_torrent item = Normal t ->
        p_quality (parseTorrentName (so_title item)) = str "UNKNOWN" ->
        quality t = str "HD")
  /\ (forall t, quality_known (eztv_torrent w t))
  /\ (forall query kind imdbId out t,
        outcome (fetchMovieDownloads w query kind imdbId) = Normal out ->
        In t out ->
        quality_known t
        \/ (kind = movie
            /\ exists encodedQuery,
                 In t (recovered (yts_source w encodedQuery imdbId)))).
Proof.
  split; [intros; eapply apibay_source_known; eassumption|].
  split; [intros; eapply solid_source_known; eassumption|].
  split; [intros item t Ht Hq;
          rewrite (apibay_torrent_quality _ _ Ht); apply display_quality_remaps, Hq|].
  split; [intros item t Ht Hq;
          rewrite (solid_torrent_quality _ _ Ht); apply display_quality_remaps, Hq|].
  split; [intros t; apply display_quality_known|].
  intros query kind imdbId out t Hout Ht.
  rewrite fetchMovieDownloads_outcome in Hout.
  destruct query as [|c q]; [injection Hout as <-; destruct Ht|].
  destruct (encodeURIComponent (trim (c :: q))) as [enc|]; [|discriminate].
  apply (rank_from _ _ _ Hout) in Ht.
  apply in_flat_map in Ht as (body & Hbody & Ht).
  assert (Hab : Forall quality_known (recovered (apibay_source w enc)))
    by (apply recovered_known; intros; eapply apibay_source_known; eassumption).
  assert (Hso : Forall quality_known (recovered (solid_source w enc)))
    by (apply recovered_known; intros; eapply solid_source_known; eassumption).
  rewrite Forall_forall in Hab, Hso.
  unfold sources in Hbody. destruct kind.
  - cbn [app] in Hbody. destruct Hbody as [<-|[<-|[<-|[]]]].
    + right. split; [reflexivity|]. exists enc. exact Ht.
    + left. exact (Hab _ Ht).
    + left. exact (Hso _ Ht).
  - assert (Hez : forall id, Forall quality_known
                               (recovered (eztv_source w (trim (c :: q)) id)))
      by (intros id; apply recovered_known; intros;
          eapply eztv_source_known; eassumption).
    left.
    assert (Hcases : (exists id, body = eztv_source w (trim (c :: q)) id)
                     \/ body = apibay_source w enc \/ body = solid_source w enc).
    { destruct (truthy imdbId);
        [destruct (cleanImdbId imdbId) as [[|x r]|]|];
        cbn [app] in Hbody;
        repeat (destruct Hbody as [Hbody|Hbody]; [now eauto|]);
        destruct Hbody. }
    destruct Hcases as [[id ->]|[->| ->]].
    + specialize (Hez id). rewrite Forall_forall in Hez. exact (Hez _ Ht).
    + exact (Hab _ Ht).
    + exact (Hso _ Ht).
Qed.

Lemma title_parsed_quality_never_unknown_witness :
  p_quality (parseTorrentName (ab_name one_gib_row)) = str "UNKNOWN"
  /\ cmap quality (apibay_torrent one_gib_row) = Normal (str "HD").
Proof.
  split; [reflexivity|].
  destruct (apibay_torrent one_gib_row) as [t|] eqn:Ht; [|discriminate].
  simpl. f_equal.
  apply (title_parsed_quality_never_unknown Sample.online) with (item := one_gib_row);
    [exact Ht|reflexivity].
Defined.

(** ** Empty and blank queries *)

Lemma yts_source_requests w encodedQuery imdbId :
  requests (yts_source w encodedQuery imdbId)
  = match yts_request encodedQuery imdbId with
    | Normal proxyUrl => [proxyUrl]
    | Throw _ => []
    end.
Proof.
  unfold yts_source. rewrite requests_bind, outcome_lift, requests_lift.
  destruct (yts_request _ _) as [u|]; [|reflexivity].
  cbn [app]. rewrite requests_bind. unfold fetch_json. cbn [requests outcome fst snd].
  destruct (yts w u) as [[ts|]|]; reflexivity.
Qed.

Lemma apibay_source_requests w encodedQuery :
  requests (apibay_source w encodedQuery)
  = match apibay_request encodedQuery with
    | Normal proxyUrl => [proxyUrl]
    | Throw _ => []
    end.
Proof.
  unfold apibay_source. rewrite requests_bind, outcome_lift, requests_lift.
  destruct (apibay_request _) as [u|]; [|reflexivity].
  cbn [app]. rewrite requests_bind. unfold fetch_json. cbn [requests outcome fst snd].
  destruct (apibay w u) as [[[|first rest]|]|]; try reflexivity.
  rewrite requests_bind, outcome_lift, requests_lift.
  destruct (deref first); [|reflexivity].
  destruct (negb _); reflexivity.
Qed.

Lemma solid_source_requests w encodedQuery :
  requests (solid_source w encodedQuery)
  = match solid_request encodedQuery with
    | Normal proxyUrl => [proxyUrl]
    | Throw _ => []
    end.
Proof.
  unfold solid_source. rewrite requests_bind, outcome_lift, requests_lift.
  destruct (solid_request _) as [u|]; [|reflexivity].
  cbn [app]. rewrite requests_bind. unfold fetch_json. cbn [requests outcome fst snd].
  destruct (solidtorrents w u) as [[[|first rest]|]|]; reflexivity.
Qed.

(** The empty query returns at once: an empty list, and no request. *)
Lemma empty_query_fails_fast w kind imdbId :
  fetchMovieDownloads w [] kind imdbId = (Normal [], []).
Proof. reflexivity. Qed.

Lemma trimStart_blank ws : blank ws -> trimStart ws = [].
Proof.
  induction 1 as [|c ws Hc _ IH]; [reflexivity|]. simpl. rewrite Hc. exact IH.
Qed.

Lemma trim_blank ws : blank ws -> trim ws = [].
Proof. intros H. unfold trim. rewrite (trimStart_blank _ H). reflexivity. Qed.

(** A query of white space only passes the guard [!query]; it is trimmed
    to the empty string, and the two general sources are asked for it. *)
Lemma blank_query_requests w query kind imdbId :
  query <> [] -> blank query ->
  incl [str "https://corsproxy.io/?url=https%3A%2F%2Fapibay.org%2Fq.php%3Fq%3D";
        str "https://corsproxy.io/?url=https%3A%2F%2Fsolidtorrents.to%2Fapi%2Fv1%2Fsearch%3Fq%3D%26category%3DVideo"]
       (requests (fetchMovieDownloads w query kind imdbId)).
Proof.
  intros Hne Hb. rewrite fetchMovieDownloads_requests.
  destruct query as [|c q]; [congruence|].
  rewrite (trim_blank _ Hb). cbn [encodeURIComponent].
  unfold sources. rewrite !flat_map_app. cbn [flat_map].
  rewrite apibay_source_requests, solid_source_requests.
  intros u [<-|[<-|[]]]; apply in_or_app; right; apply in_or_app; right.
  - left. reflexivity.
  - right. left. reflexivity.
Qed.

(** C6 at the query of three spaces, for a movie without an id: the call
    does not fail fast; it sends three requests, each for the empty search
    term. *)
Theorem blank_query_is_sent_to_the_sources w :
  requests (fetchMovieDownloads w (str "   ") movie None)
  = [str "https://corsproxy.io/?url=https%3A%2F%2Fyts.mx%2Fapi%2Fv2%2Flist_movies.json%3Fquery_term%3D%26limit%3D10";
     str "https://corsproxy.io/?url=https%3A%2F%2Fapibay.org%2Fq.php%3Fq%3D";
     str "https://corsproxy.io/?url=https%3A%2F%2Fsolidtorrents.to%2Fapi%2Fv1%2Fsearch%3Fq%3D%26category%3DVideo"].
Proof.
  rewrite fetchMovieDownloads_requests.
  change (str "   ") with [32; 32; 32].
  change (trim [32; 32; 32]) with (@nil N). cbn [encodeURIComponent].
  unfold sources. cbn [app flat_map].
  rewrite yts_source_requests, apibay_source_requests, solid_source_requests.
  reflexivity.
Qed.

(** In the sample world the list returned for that query is not empty. *)
Example blank_query_returns_candidates :
  option_map (map hash)
    match outcome (fetchMovieDownloads Sample.online (str "   ") movie None) with
    | Normal l => Some l
    | Throw _ => None
    end
  = Some [str "AAA"; str "BBB"; str "CCC"].
Proof. vm_compute. reflexivity. Qed.

(** ** Further properties of [parseTorrentName] *)

Lemma regexp_match_upper alts s m :
  regexp_match alts s = Some m ->
  exists p, In p alts /\ toUpperCase m = toUpperCase p.
Proof.
  intros H. apply regexp_match_sound in H as (p & Hin & _ & Hci).
  exists p. split; [exact Hin|apply ci_equal_toUpperCase, Hci].
Qed.

(** X1: the quality [parseTorrentName] returns is one of six labels, and it
    is ["UNKNOWN"] exactly when the name contains none of the five quality
    tokens. *)
Theorem parseTorrentName_quality_labels name :
  In (p_quality (parseTorrentName name))
     [str "2160P"; str "4K"; str "1080P"; str "720P"; str "480P"; str "UNKNOWN"]
  /\ (p_quality (parseTorrentName name) = str "UNKNOWN"
      <-> forall p, In p quality_tokens -> ~ contains_ci name p).
Proof.
  unfold parseTorrentName. cbn [p_quality].
  destruct (regexp_match quality_tokens name) as [m|] eqn:E.
  - destruct (regexp_match_upper _ _ _ E) as (p & Hin & ->).
    pose proof (regexp_match_sound _ _ _ E) as (p' & Hin' & Hocc & Hci).
    split.
    + cbn in Hin. repeat (destruct Hin as [<-|Hin]; [cbn; tauto|]). destruct Hin.
    + split.
      * intros Hq. exfalso. cbn in Hin.
        repeat (destruct Hin as [<-|Hin]; [discriminate Hq|]). destruct Hin.
      * intros Hnone. exfalso. apply (Hnone p' Hin'). exists m. auto.
  - split; [cbn; tauto|]. split; [|reflexivity].
    intros _ p Hin Hc. exact (regexp_match_complete _ _ _ Hin Hc E).
Qed.

(** X2: the type [parseTorrentName] returns is one of five upper-cased
    release types, ["WEBRIP"] when the name contains none of the type
    tokens, followed by nothing, [" (HEVC)"] or [" (X264)"]. *)
Theorem parseTorrentName_type_tags name :
  exists base suffix,
    p_type (parseTorrentName name) = base ++ suffix
    /\ In base [str "BLURAY"; str "WEB-DL"; str "WEBRIP"; str "HDRIP"; str "DVDRIP"]
    /\ In suffix [[]; str " (HEVC)"; str " (X264)"]
    /\ ((forall p, In p type_tokens -> ~ contains_ci name p) -> base = str "WEBRIP").
Proof.
  exists (toUpperCase (base_type name)).
  exists (toUpperCase
            (if regexp_test [str "x265"; str "hevc"] name then str " (HEVC)"
             else if regexp_test [str "x264"] name then str " (x264)" else [])).
  split.
  - unfold parseTorrentName. cbn [p_type]. unfold toUpperCase.
    rewrite <- map_app. f_equal.
    destruct (regexp_test [str "x265"; str "hevc"] name);
      [|destruct (regexp_test [str "x264"] name)];
      rewrite ?app_nil_r; reflexivity.
  - split; [|split].
    + unfold base_type. destruct (regexp_match type_tokens name) as [m|] eqn:E.
      * destruct (regexp_match_upper _ _ _ E) as (p & Hin & ->).
        cbn in Hin. repeat (destruct Hin as [<-|Hin]; [cbn; tauto|]). destruct Hin.
      * cbn; tauto.
    + destruct (regexp_test [str "x265"; str "hevc"] name);
        [|destruct (regexp_test [str "x264"] name)]; cbn; tauto.
    + intros Hnone. unfold base_type.
      destruct (regexp_match type_tokens name) as [m|] eqn:E; [|reflexivity].
      exfalso. apply regexp_match_sound in E as (p & Hin & Hocc & Hci).
      apply (Hnone p Hin). exists m. auto.
Qed.

(** ** Further properties of the deduplication and the ranking *)

Section MapLast.
Context {V : Type}.
Implicit Types (m entries : list (jsstring * V)).

Lemma last_entry_from k entries found :
  last_entry k entries found
  = match last_entry k entries None with
    | Some v => Some v
    | None => found
    end.
Proof.
  unfold last_entry. revert found.
  induction entries as [|e es IH]; intros found; cbn [fold_left]; [reflexivity|].
  rewrite IH. rewrite (IH (if eqb (fst e) k then Some (snd e) else None)).
  destruct (fold_left _ es None); [reflexivity|].
  destruct (eqb (fst e) k); reflexivity.
Qed.

Lemma map_set_In m k v k' v' :
  NoDup (map fst m) ->
  In (k', v') (map_set m k v)
  <-> (k' = k /\ v' = v) \/ (k' <> k /\ In (k', v') m).
Proof.
  induction m as [|[k0 v0] m IH]; cbn [map_set map fst]; intros Hnd.
  - cbn. split.
    + intros [[= -> ->]|[]]. auto.
    + intros [[-> ->]|[_ []]]. auto.
  - inversion Hnd as [|? ? Hnotin Hrest]; subst.
    destruct (eqb k k0) eqn:E.
    + apply eqb_eq in E; subst k0. cbn [In]. split.
      * intros [[= -> ->]|H]; [auto|]. right. split; [|auto].
        intros ->. apply Hnotin. apply (in_map fst) in H. exact H.
      * intros [[-> ->]|[Hne [[= -> ->]|H]]]; auto. congruence.
    + apply eqb_neq in E. cbn [In]. rewrite (IH Hrest). split.
      * intros [[= -> ->]|[H|H]]; [right; split; auto|auto|].
        right. split; [apply H|right; apply H].
      * intros [H|[Hne [H|H]]]; auto.
Qed.

Lemma Map_add_In m entries k v :
  NoDup (map fst m) ->
  In (k, v) (Map_add m entries)
  <-> last_entry k entries None = Some v
      \/ (last_entry k entries None = None /\ In (k, v) m).
Proof.
  revert m. induction entries as [|[k0 v0] es IH]; intros m Hnd.
  - cbn. split; [auto|intros [H|[_ H]]; [discriminate|exact H]].
  - change (Map_add m ((k0, v0) :: es)) with (Map_add (map_set m k0 v0) es).
    rewrite (IH _ (map_set_keys_NoDup m k0 v0 Hnd)).
    rewrite (map_set_In _ _ _ _ _ Hnd).
    change (last_entry k ((k0, v0) :: es) None)
      with (last_entry k es (if eqb k0 k then Some v0 else None)).
    rewrite (last_entry_from k es (if eqb k0 k then Some v0 else None)).
    destruct (last_entry k es None) as [x|].
    + split; (intros [H|[H _]]; [auto|discriminate]).
    + destruct (eqb k0 k) eqn:E.
      * apply eqb_eq in E; subst k0. split.
        -- intros [H|[_ [[_ ->]|[Hne _]]]]; [discriminate|auto|congruence].
        -- intros [[= ->]|[H _]]; [|discriminate]. right. auto.
      * apply eqb_neq in E. split.
        -- intros [H|[_ [[-> _]|[_ H]]]]; [discriminate|congruence|auto].
        -- intros [H|[_ H]]; [discriminate|]. right. split; [reflexivity|].
           right. split; [congruence|exact H].
Qed.

Lemma map_set_keys m k v :
  map fst (map_set m k v)
  = if existsb (eqb k) (map fst m) then map fst m else map fst m ++ [k].
Proof.
  induction m as [|[k0 v0] m IH]; cbn [map_set map fst existsb]; [reflexivity|].
  destruct (eqb k k0); cbn [orb map fst]; [reflexivity|].
  rewrite IH. destruct (existsb (eqb k) (map fst m)); reflexivity.
Qed.

Lemma Map_add_keys m entries :
  map fst (Map_add m entries)
  = map fst m ++ first_occurrences (map fst m) (map fst entries).
Proof.
  revert m. induction entries as [|[k0 v0] es IH]; intros m.
  - cbn. rewrite app_nil_r. reflexivity.
  - change (Map_add m ((k0, v0) :: es)) with (Map_add (map_set m k0 v0) es).
    rewrite IH, map_set_keys. cbn [map fst first_occurrences].
    destruct (existsb (eqb k0) (map fst m)); [reflexivity|].
    rewrite <- app_assoc. reflexivity.
Qed.

Lemma map_set_fresh m k v :
  ~ In k (map fst m) -> map_set m k v = m ++ [(k, v)].
Proof.
  induction m as [|[k0 v0] m IH]; cbn [map_set map fst app]; intros H; [reflexivity|].
  destruct (eqb k k0) eqn:E.
  - apply eqb_eq in E. subst. exfalso. apply H. left. reflexivity.
  - rewrite IH; [reflexivity|]. intros Hin. apply H. right. exact Hin.
Qed.

Lemma Map_add_fresh m entries :
  NoDup (map fst m ++ map fst entries) -> Map_add m entries = m ++ entries.
Proof.
  revert m. induction entries as [|[k0 v0] es IH]; intros m Hnd.
  - cbn. rewrite app_nil_r. reflexivity.
  - change (Map_add m ((k0, v0) :: es)) with (Map_add (map_set m k0 v0) es).
    cbn [map fst] in Hnd.
    assert (Hk : ~ In k0 (map fst m)).
    { apply NoDup_remove_2 in Hnd. intros Hin. apply Hnd.
      apply in_or_app. left. exact Hin. }
    rewrite (map_set_fresh _ _ _ Hk), IH.
    + rewrite <- app_assoc. reflexivity.
    + rewrite map_app. cbn [map fst]. rewrite <- app_assoc. exact Hnd.
Qed.
End MapLast.

Lemma last_with_hash_entries h l :
  last_entry h (map (fun item => (hash item, item)) l) None = last_with_hash h l.
Proof.
  unfold last_entry, last_with_hash. generalize (@None Torrent).
  induction l as [|t l IH]; intros acc; cbn [map fold_left fst snd]; [reflexivity|].
  apply IH.
Qed.

Lemma uniqueTorrents_In allTorrents t :
  In t (uniqueTorrents allTorrents)
  <-> last_with_hash (hash t) allTorrents = Some t.
Proof.
  rewrite <- last_with_hash_entries.
  assert (Hkeyed : Forall (fun e : jsstring * Torrent => hash (snd e) = fst e)
                     (Map (map (fun item => (hash item, item)) allTorrents))).
  { apply Map_add_keyed; [constructor|]. apply Forall_forall.
    intros e He. apply in_map_iff in He as (x & <- & _). reflexivity. }
  assert (Hin : In t (uniqueTorrents allTorrents)
                <-> In (hash t, t) (Map (map (fun item => (hash item, item)) allTorrents))).
  { unfold uniqueTorrents, values. rewrite in_map_iff. split.
    - intros ([k v] & Hv & Hkv). cbn in Hv. subst v.
      rewrite Forall_forall in Hkeyed. pose proof (Hkeyed _ Hkv) as E.
      cbn in E. rewrite E. exact Hkv.
    - intros H. exists (hash t, t). auto. }
  rewrite Hin. unfold Map. rewrite Map_add_In by constructor.
  split; [intros [H|[_ []]]; exact H|auto].
Qed.

(** X3: deduplication keeps, for every hash, the last candidate of the
    merged list that carries it, at the position where the hash first
    appeared. *)
Theorem dedup_keeps_last_at_first_position allTorrents :
  (forall t, In t (uniqueTorrents allTorrents)
             <-> last_with_hash (hash t) allTorrents = Some t)
  /\ map hash (uniqueTorrents allTorrents)
     = first_occurrences [] (map hash allTorrents).
Proof.
  split; [intros t; apply uniqueTorrents_In|].
  rewrite uniqueTorrents_hashes. unfold Map. rewrite Map_add_keys, map_map.
  reflexivity.
Qed.

(** X4: the candidates returned for a non-empty, encodable query are
    exactly those that are the last of their hash in the concatenation of
    the successful sources' lists and have a positive number of seeds.  A
    candidate with seeds is therefore lost when a later source lists the
    same hash without seeds. *)
Theorem returned_are_last_and_alive w query kind imdbId encodedQuery out :
  query <> [] ->
  encodeURIComponent (trim query) = Normal encodedQuery ->
  outcome (fetchMovieDownloads w query kind imdbId) = Normal out ->
  forall t,
    In t out
    <-> last_with_hash (hash t)
          (List.concat (successes (sources w (trim query) encodedQuery kind imdbId)))
        = Some t
        /\ exists z, seeds t = Number (Int z) /\ (0 < z)%Z.
Proof.
  intros Hne Henc Hout t. rewrite fetchMovieDownloads_outcome, Henc in Hout.
  destruct query as [|c q]; [congruence|].
  rewrite recovered_successes in Hout.
  rewrite (rank_In _ _ t Hout), uniqueTorrents_In, positive_seeds_spec.
  reflexivity.
Qed.

Lemma returned_are_last_and_alive_witness :
  forallb
    (fun t =>
       match last_with_hash (hash t)
               (List.concat (successes (sources Sample.online (str "Movie Name")
                                          (str "Movie%20Name") movie None))) with
       | Some t' => eqb (url t') (url t)
       | None => false
       end)
    (recovered (fetchMovieDownloads Sample.online (str "Movie Name") movie None))
  = true.
Proof.
  apply forallb_forall. intros t Ht.
  apply (returned_are_last_and_alive Sample.online (str "Movie Name") movie None
           (str "Movie%20Name")) in Ht as [Hlast _];
    [|discriminate|reflexivity|vm_compute; reflexivity].
  change (trim (str "Movie Name")) with (str "Movie Name") in Hlast.
  rewrite Hlast. apply eqb_refl.
Defined.

(** A candidate with seeds followed by a dead one of the same hash: neither
    is returned. *)
Example dead_duplicate_shadows :
  rank [{| url := []; hash := str "aa"; quality := []; type := [];
           seeds := Number (Int 50);
           peers := Int 0; size := []; date_uploaded := [] |};
        {| url := []; hash := str "aa"; quality := []; type := [];
           seeds := Number (Int 0);
           peers := Int 0; size := []; date_uploaded := [] |}]
  = Normal [].
Proof. reflexivity. Qed.

(** A candidate whose seeds cannot be converted is harmless once a later
    candidate of the same hash has replaced it. *)
Example unconvertible_duplicate_replaced :
  option_map (map seeds)
    match rank [{| url := []; hash := str "aa"; quality := []; type := [];
                   seeds := Unconvertible;
                   peers := Int 0; size := []; date_uploaded := [] |};
                {| url := []; hash := str "aa"; quality := []; type := [];
                   seeds := Number (Int 7);
                   peers := Int 0; size := []; date_uploaded := [] |}] with
    | Normal l => Some l
    | Throw _ => None
    end
  = Some [Number (Int 7)].
Proof. reflexivity. Qed.

Lemma uniqueTorrents_fixed l : NoDup (map hash l) -> uniqueTorrents l = l.
Proof.
  intros H. unfold uniqueTorrents, Map, values.
  rewrite Map_add_fresh; cbn [map app]; rewrite map_map; cbn [fst snd];
    [apply map_id|exact H].
Qed.

Lemma filter_fixed {A} (f : A -> bool) l :
  Forall (fun x => f x = true) l -> filter f l = l.
Proof.
  induction 1 as [|x l Hx _ IH]; [reflexivity|]. cbn. rewrite Hx, IH. reflexivity.
Qed.

(** X5: ranking is idempotent: deduplicating, filtering and sorting a
    list that was already ranked returns it unchanged. *)
Theorem rank_idempotent allTorrents out :
  rank allTorrents = Normal out -> rank out = Normal out.
Proof.
  intros H.
  pose proof (rank_NoDup _ _ H) as Hnd.
  pose proof (rank_positive _ _ H) as Hpos.
  pose proof (rank_sorted _ _ H) as Hs.
  assert (Hc : Forall convertible (uniqueTorrents out)).
  { rewrite (uniqueTorrents_fixed _ Hnd).
    eapply Forall_impl; [|exact Hpos]. apply positive_convertible. }
  rewrite (rank_convertible _ Hc). unfold post_filter.
  rewrite (uniqueTorrents_fixed _ Hnd), (filter_fixed _ _ Hpos).
  destruct (sort_positive out Hpos) as (r & Hr & _ & _ & _ & Hfixed).
  rewrite Hr, (Hfixed Hs). reflexivity.
Qed.

Lemma rank_idempotent_witness :
  rank (recovered (fetchMovieDownloads Sample.online (str "Movie Name") movie None))
  = Normal (recovered (fetchMovieDownloads Sample.online (str "Movie Name")
                         movie None)).
Proof.
  apply (rank_idempotent
           (List.concat (successes (sources Sample.online (str "Movie Name")
                                      (str "Movie%20Name") movie None)))).
  vm_compute. reflexivity.
Defined.

(** ** Bounds on what a call returns *)

Lemma map_set_length {V} (m : list (jsstring * V)) k v :
  (List.length (map_set m k v) <= S (List.length m))%nat.
Proof.
  induction m as [|[k0 v0] m IH]; cbn [map_set List.length]; [lia|].
  destruct (eqb k k0); cbn [List.length]; lia.
Qed.

Lemma Map_add_length {V} (m entries : list (jsstring * V)) :
  (List.length (Map_add m entries) <= List.length m + List.length entries)%nat.
Proof.
  revert m. induction entries as [|[k0 v0] es IH]; intros m.
  - cbn. lia.
  - change (Map_add m ((k0, v0) :: es)) with (Map_add (map_set m k0 v0) es).
    pose proof (IH (map_set m k0 v0)). pose proof (map_set_length m k0 v0).
    cbn [List.length]. lia.
Qed.

Lemma rank_length allTorrents out :
  rank allTorrents = Normal out ->
  (List.length out <= List.length allTorrents)%nat.
Proof.
  intros H. rewrite (Permutation_length (rank_perm _ _ H)).
  unfold post_filter. etransitivity; [apply filter_length_le|].
  unfold uniqueTorrents, values, Map. rewrite length_map.
  etransitivity; [apply Map_add_length|]. rewrite length_map. cbn. lia.
Qed.

Lemma Forall2_length_eq {A B} (R : A -> B -> Prop) l1 l2 :
  Forall2 R l1 l2 -> List.length l1 = List.length l2.
Proof. induction 1; cbn; congruence. Qed.

Lemma capped_conversion {A} (g : A -> completion Torrent) (l : list (option A)) out :
  mapM (fun item => match deref item with
                    | Normal item => g item
                    | Throw e => Throw e
                    end) (firstn 8 l) = Normal out ->
  (List.length out <= 8)%nat.
Proof.
  intros H. apply mapM_bind_normal in H as (es & Hes & HF).
  rewrite <- (Forall2_length_eq _ _ _ HF), <- (length_map Some), <- Hes.
  apply firstn_le_length.
Qed.

Lemma apibay_source_cap w encodedQuery out :
  outcome (apibay_source w encodedQuery) = Normal out -> (List.length out <= 8)%nat.
Proof.
  unfold apibay_source. rewrite outcome_bind, outcome_lift.
  destruct (apibay_request encodedQuery) as [u|]; [|discriminate].
  rewrite outcome_bind. unfold fetch_json at 1. cbn [outcome fst].
  destruct (apibay w u) as [[[|first rest]|]|];
    try discriminate; try (intros [= <-]; cbn; lia).
  rewrite outcome_bind, outcome_lift.
  destruct (deref first) as [first_item|]; [|discriminate].
  destruct (negb _); [|intros [= <-]; cbn; lia].
  rewrite outcome_lift. apply capped_conversion.
Qed.

Lemma solid_source_cap w encodedQuery out :
  outcome (solid_source w encodedQuery) = Normal out -> (List.length out <= 8)%nat.
Proof.
  unfold solid_source. rewrite outcome_bind, outcome_lift.
  destruct (solid_request encodedQuery) as [u|]; [|discriminate].
  rewrite outcome_bind. unfold fetch_json at 1. cbn [outcome fst].
  destruct (solidtorrents w u) as [[[|first rest]|]|];
    try discriminate; try (intros [= <-]; cbn; lia).
  rewrite outcome_lift. apply capped_conversion.
Qed.

Lemma eztv_source_cap w cleanQuery numericId out :
  outcome (eztv_source w cleanQuery numericId) = Normal out ->
  (List.length out <= 8)%nat.
Proof.
  rewrite eztv_source_outcome.
  destruct (eztv_request numericId) as [u|]; [|discriminate].
  destruct (eztv w u) as [[torrents|]|];
    [| intros [= <-]; cbn; lia | discriminate].
  destruct (match regexp_match_SE cleanQuery with Some _ => _ | None => _ end)
    as [results|]; [|discriminate].
  intros H. apply mapM_deref_normal in H as (es & Hes & ->).
  rewrite length_map, <- (length_map Some), <- Hes. apply firstn_le_length.
Qed.

Lemma recovered_cap body :
  (forall out, outcome body = Normal out -> (List.length out <= 8)%nat) ->
  (List.length (recovered body) <= 8)%nat.
Proof.
  intros H. unfold recovered. destruct (outcome body); [auto|cbn; lia].
Qed.

(** X6: the EZTV, APIBay and SolidTorrents sources emit at most eight
    candidates each, and a TV call returns at most twenty-four. *)
Theorem tv_call_is_capped w :
  (forall cleanQuery numericId out,
      outcome (eztv_source w cleanQuery numericId) = Normal out ->
      (List.length out <= 8)%nat)
  /\ (forall encodedQuery out,
        outcome (apibay_source w encodedQuery) = Normal out ->
        (List.length out <= 8)%nat)
  /\ (forall encodedQuery out,
        outcome (solid_source w encodedQuery) = Normal out ->
        (List.length out <= 8)%nat)
  /\ (forall query imdbId out,
        outcome (fetchMovieDownloads w query tv imdbId) = Normal out ->
        (List.length out <= 24)%nat).
Proof.
  split; [intros; eapply eztv_source_cap; eassumption|].
  split; [intros; eapply apibay_source_cap; eassumption|].
  split; [intros; eapply solid_source_cap; eassumption|].
  intros query imdbId out Hout. rewrite fetchMovieDownloads_outcome in Hout.
  destruct query as [|c q]; [injection Hout as <-; cbn; lia|].
  destruct (encodeURIComponent (trim (c :: q))) as [enc|]; [|discriminate].
  etransitivity; [apply (rank_length _ _ Hout)|].
  pose proof (recovered_cap (apibay_source w enc)
                (fun out => apibay_source_cap w enc out)) as Ha.
  pose proof (recovered_cap (solid_source w enc)
                (fun out => solid_source_cap w enc out)) as Hs.
  unfold sources.
  destruct (truthy imdbId); [destruct (cleanImdbId imdbId) as [[|x r]|]|];
    cbn [app flat_map]; rewrite ?length_app; cbn [List.length]; try lia.
  pose proof (recovered_cap (eztv_source w (trim (c :: q)) (x :: r))
                (fun out => eztv_source_cap w _ _ out)).
  lia.
Qed.

Lemma tv_call_is_capped_witness :
  (List.length
     (recovered (fetchMovieDownloads Sample.online (str "Show S01E02") tv
                   (Some (str "tt0944947"))))
   <= 24)%nat.
Proof.
  apply (tv_call_is_capped Sample.online) with
    (query := str "Show S01E02") (imdbId := Some (str "tt0944947")).
  vm_compute. reflexivity.
Defined.

(** ** What a call requests *)

Lemma unreserved_digit c : isDigit c = true -> unreserved c = true.
Proof.
  unfold unreserved. intros ->. rewrite orb_true_r. reflexivity.
Qed.

Lemma unreserved_upper c : 65 <= c <= 90 -> unreserved c = true.
Proof.
  unfold unreserved. intros [H1 H2].
  apply N.leb_le in H1, H2. rewrite H1, H2. reflexivity.
Qed.

Lemma unreserved_ascii c : unreserved c = true -> c < 128.
Proof.
  unfold unreserved, isDigit. cbn [existsb].
  rewrite !orb_true_iff, !andb_true_iff, !N.leb_le, !N.eqb_eq. lia.
Qed.

Lemma hexDigit_unreserved n : n < 16 -> unreserved (hexDigit n) = true.
Proof.
  intros H. unfold hexDigit. destruct (n <? 10) eqn:E.
  - apply N.ltb_lt in E. apply unreserved_digit. unfold isDigit.
    apply andb_true_iff. split; apply N.leb_le; lia.
  - apply N.ltb_ge in E. apply unreserved_upper. lia.
Qed.

Lemma percent_safe byte : byte < 256 -> uri_safe (percent byte).
Proof.
  intros H. unfold percent.
  constructor; [right; reflexivity|].
  constructor; [left; apply hexDigit_unreserved, N.Div0.div_lt_upper_bound; lia|].
  constructor; [left; apply hexDigit_unreserved, N.mod_lt; lia|constructor].
Qed.

Lemma utf8_bytes cp : cp < 1114112 -> Forall (fun b => b < 256) (utf8 cp).
Proof.
  intros H. unfold utf8.
  assert (M : forall x, x mod 64 < 64) by (intros; apply N.mod_lt; lia).
  destruct (cp <? 128) eqn:E1; [apply N.ltb_lt in E1; repeat constructor; lia|].
  destruct (cp <? 2048) eqn:E2.
  { apply N.ltb_lt in E2.
    assert (cp / 64 < 32) by (apply N.Div0.div_lt_upper_bound; lia).
    pose proof (M cp). repeat constructor; lia. }
  destruct (cp <? 65536) eqn:E3.
  { apply N.ltb_lt in E3.
    assert (cp / 4096 < 16) by (apply N.Div0.div_lt_upper_bound; lia).
    pose proof (M cp). pose proof (M (cp / 64)). repeat constructor; lia. }
  assert (cp / 262144 < 5) by (apply N.Div0.div_lt_upper_bound; lia).
  pose proof (M cp). pose proof (M (cp / 64)). pose proof (M (cp / 4096)).
  repeat constructor; lia.
Qed.

Lemma escape_safe cp : cp < 1114112 -> uri_safe (escape cp).
Proof.
  intros H. unfold escape. pose proof (utf8_bytes cp H) as Hb.
  induction Hb as [|b l Hlt _ IH]; [constructor|].
  cbn [flat_map]. apply Forall_app. split; [apply percent_safe, Hlt|exact IH].
Qed.

Lemma encodeURIComponent_cons c r :
  encodeURIComponent (c :: r)
  = if unreserved c then cmap (cons c) (encodeURIComponent r)
    else if isTrailSurrogate c then Throw URIError
    else if isLeadSurrogate c then
      match r with
      | d :: r' =>
          if isTrailSurrogate d then
            cmap (app (escape (65536 + (c - 55296) * 1024 + (d - 56320))))
                 (encodeURIComponent r')
          else Throw URIError
      | [] => Throw URIError
      end
    else cmap (app (escape c)) (encodeURIComponent r).
Proof. reflexivity. Qed.

(** What [encodeURIComponent] returns is made of unreserved characters and
    percent signs. *)
Lemma encodeURIComponent_safe s e :
  code_units s -> encodeURIComponent s = Normal e -> uri_safe e.
Proof.
  remember (List.length s) as n eqn:Hn.
  assert (Hle : (List.length s <= n)%nat) by lia. clear Hn.
  revert s e Hle. induction n as [|n IH]; intros s e Hle Hs H.
  - destruct s; [|cbn in Hle; lia]. injection H as <-. constructor.
  - destruct s as [|c r]; [injection H as <-; constructor|].
    inversion Hs as [|? ? Hc Hr]; subst. cbn [List.length] in Hle.
    rewrite encodeURIComponent_cons in H.
    destruct (unreserved c) eqn:Eu.
    { destruct (encodeURIComponent r) as [e'|] eqn:Er; [|discriminate].
      injection H as <-. constructor; [left; exact Eu|].
      apply (IH r); [lia|exact Hr|exact Er]. }
    destruct (isTrailSurrogate c) eqn:Et; [discriminate|].
    destruct (isLeadSurrogate c) eqn:El.
    { destruct r as [|d r']; [discriminate|].
      destruct (isTrailSurrogate d) eqn:Ed; [|discriminate].
      destruct (encodeURIComponent r') as [e'|] eqn:Er; [|discriminate].
      apply (f_equal (fun x => match x with Normal y => y | Throw _ => [] end)) in H.
      cbv beta iota delta [cmap] in H. subst e.
      inversion Hr; subst. cbn [List.length] in Hle.
      apply Forall_app. split; [|apply (IH r'); [lia|assumption|exact Er]].
      apply escape_safe.
      unfold isLeadSurrogate in El. unfold isTrailSurrogate in Ed.
      apply andb_true_iff in El as [_ El]. apply andb_true_iff in Ed as [_ Ed].
      apply N.leb_le in El, Ed. lia. }
    destruct (encodeURIComponent r) as [e'|] eqn:Er; [|discriminate].
    injection H as <-.
    apply Forall_app. split; [apply escape_safe; lia|].
    apply (IH r); [lia|exact Hr|exact Er].
Qed.

Lemma uri_safe_ascii e : uri_safe e -> ascii_text e.
Proof.
  apply Forall_impl. intros c [H| ->]; [apply unreserved_ascii, H|lia].
Qed.

(** ASCII text has no surrogate: [encodeURIComponent] accepts it. *)
Lemma encodeURIComponent_ascii s :
  ascii_text s -> exists e, encodeURIComponent s = Normal e.
Proof.
  induction 1 as [|c r Hc _ (e & IH)]; [exists []; reflexivity|].
  rewrite encodeURIComponent_cons, IH.
  destruct (unreserved c); [eexists; reflexivity|].
  assert (Et : isTrailSurrogate c = false)
    by (apply andb_false_iff; left; apply N.leb_gt; lia).
  assert (El : isLeadSurrogate c = false)
    by (apply andb_false_iff; left; apply N.leb_gt; lia).
  rewrite Et, El. eexists; reflexivity.
Qed.

Lemma ascii_code_units s : ascii_text s -> code_units s.
Proof. apply Forall_impl. intros c H. lia. Qed.

Lemma str_code_units (s : string) : code_units (str s).
Proof.
  unfold code_units, str. apply Forall_map.
  apply Forall_forall. intros a _.
  destruct a as [[] [] [] [] [] [] [] []]; vm_compute; reflexivity.
Qed.

(** A literal of the source is ASCII. *)
Ltac ascii_literal := vm_compute; repeat constructor.

Lemma trimStart_Forall (P : N -> Prop) s : Forall P s -> Forall P (trimStart s).
Proof.
  induction 1 as [|c s Hc Hs IH]; [constructor|].
  cbn. destruct (isWhiteSpace c); [exact IH|constructor; assumption].
Qed.

Lemma trim_code_units s : code_units s -> code_units (trim s).
Proof.
  intros H. unfold trim. apply Forall_rev, trimStart_Forall, Forall_rev,
    trimStart_Forall, H.
Qed.

Lemma replace_Forall (P : N -> Prop) pat s :
  Forall P s -> Forall P (replace pat [] s).
Proof.
  induction 1 as [|c s Hc Hs IH].
  - cbn. destruct (startsWith pat []); [destruct pat|]; cbn; constructor.
  - cbn [replace]. destruct (startsWith pat (c :: s)).
    + cbn [app]. pose proof (Forall_cons c Hc Hs) as H.
      rewrite <- (firstn_skipn (List.length pat) (c :: s)) in H.
      apply Forall_app in H. apply H.
    + constructor; assumption.
Qed.

(** A proxied request for a target made of code units: the relay prefix
    followed by safe characters. *)
Lemma proxied_shape u r :
  code_units u -> proxied u = Normal r -> exists e, r = relay ++ e /\ uri_safe e.
Proof.
  unfold proxied. intros Hu H.
  destruct (encodeURIComponent u) as [e|] eqn:E; [|discriminate].
  injection H as <-. exists e. split; [reflexivity|].
  eapply encodeURIComponent_safe; eassumption.
Qed.

Lemma proxied_ascii u : ascii_text u -> exists r, proxied u = Normal r.
Proof.
  intros H. unfold proxied. destruct (encodeURIComponent_ascii u H) as (e & ->).
  eexists. reflexivity.
Qed.

Lemma eztv_source_requests w cleanQuery numericId :
  requests (eztv_source w cleanQuery numericId)
  = match eztv_request numericId with
    | Normal proxyUrl => [proxyUrl]
    | Throw _ => []
    end.
Proof.
  unfold eztv_source. rewrite requests_bind, outcome_lift, requests_lift.
  destruct (eztv_request numericId) as [u|]; [|reflexivity].
  cbn [app]. rewrite requests_bind. unfold fetch_json. cbn [requests outcome fst snd].
  destruct (eztv w u) as [[torrents|]|]; try reflexivity.
  rewrite requests_bind, outcome_lift, requests_lift.
  destruct (match regexp_match_SE cleanQuery with Some _ => _ | None => _ end);
    reflexivity.
Qed.

(** The request of the source that depends on the kind of the call: YTS
    for a movie, EZTV for a TV show with a usable id. *)
Lemma sources_requests w cleanQuery encodedQuery kind imdbId :
  flat_map requests (sources w cleanQuery encodedQuery kind imdbId)
  = match kind with
    | movie =>
        match yts_request encodedQuery imdbId with
        | Normal u => [u]
        | Throw _ => []
        end
    | tv =>
        match cleanImdbId imdbId with
        | Some (c :: r) =>
            match eztv_request (c :: r) with
            | Normal u => [u]
            | Throw _ => []
            end
        | _ => []
        end
    end
    ++ match apibay_request encodedQuery with
       | Normal u => [u]
       | Throw _ => []
       end
    ++ match solid_request encodedQuery with
       | Normal u => [u]
       | Throw _ => []
       end.
Proof.
  assert (Hgen : flat_map requests [apibay_source w encodedQuery;
                                    solid_source w encodedQuery]
                 = match apibay_request encodedQuery with
                   | Normal u => [u]
                   | Throw _ => []
                   end
                   ++ match solid_request encodedQuery with
                      | Normal u => [u]
                      | Throw _ => []
                      end).
  { cbn [flat_map]. rewrite apibay_source_requests, solid_source_requests.
    rewrite app_nil_r. reflexivity. }
  unfold sources. destruct kind.
  - cbn [app]. change (flat_map requests (?x :: ?l))
      with (requests x ++ flat_map requests l).
    rewrite Hgen, yts_source_requests. reflexivity.
  - cbn [app]. destruct imdbId as [[|x id]|]; cbn [truthy cleanImdbId];
      try (cbn [app]; exact Hgen).
    destruct (replace (str "tt") [] (x :: id)) as [|c r];
      [cbn [app]; exact Hgen|].
    cbn [app]. change (flat_map requests (?x :: ?l))
      with (requests x ++ flat_map requests l).
    rewrite Hgen, eztv_source_requests. reflexivity.
Qed.

(** X7: for a non-empty query that [encodeURIComponent] accepts, APIBay
    and SolidTorrents are each asked exactly once, last and in this order,
    whatever the kind and the id; before them comes at most one request, to
    YTS for a movie or to EZTV for a TV show whose cleaned id is not empty.
    No source is asked twice. *)
Theorem general_sources_always_asked w query kind imdbId encodedQuery :
  code_units query -> query <> [] ->
  encodeURIComponent (trim query) = Normal encodedQuery ->
  exists a s,
    apibay_request encodedQuery = Normal a
    /\ solid_request encodedQuery = Normal s
    /\ requests (fetchMovieDownloads w query kind imdbId)
       = match kind with
         | movie =>
             match yts_request encodedQuery imdbId with
             | Normal u => [u]
             | Throw _ => []
             end
         | tv =>
             match cleanImdbId imdbId with
             | Some (c :: r) =>
                 match eztv_request (c :: r) with
                 | Normal u => [u]
                 | Throw _ => []
                 end
             | _ => []
             end
         end ++ [a; s]
    /\ (2 <= List.length (requests (fetchMovieDownloads w query kind imdbId)) <= 3)%nat.
Proof.
  intros Hcu Hne Henc.
  assert (Hsafe : ascii_text encodedQuery).
  { apply uri_safe_ascii. eapply encodeURIComponent_safe; [|exact Henc].
    apply trim_code_units, Hcu. }
  destruct (proxied_ascii (str "https://apibay.org/q.php?q=" ++ encodedQuery))
    as (a & Ha); [apply Forall_app; split; [ascii_literal|exact Hsafe]|].
  destruct (proxied_ascii (str "https://solidtorrents.to/api/v1/search?q="
                           ++ encodedQuery ++ str "&category=Video"))
    as (s & Hs);
    [apply Forall_app; split; [ascii_literal|];
     apply Forall_app; split; [exact Hsafe|ascii_literal]|].
  exists a, s. change (apibay_request encodedQuery = Normal a) in Ha.
  change (solid_request encodedQuery = Normal s) in Hs.
  split; [exact Ha|]. split; [exact Hs|].
  assert (E : requests (fetchMovieDownloads w query kind imdbId)
              = flat_map requests (sources w (trim query) encodedQuery kind imdbId)).
  { rewrite fetchMovieDownloads_requests, Henc.
    destruct query; [congruence|reflexivity]. }
  rewrite E, sources_requests, Ha, Hs. split; [reflexivity|].
  rewrite length_app. cbn [List.length].
  destruct kind;
    [destruct (yts_request encodedQuery imdbId)
    |destruct (cleanImdbId imdbId) as [[|c r]|];
     [|destruct (eztv_request (c :: r))|]];
    cbn [List.length app]; lia.
Qed.

Lemma general_sources_always_asked_witness :
  requests (fetchMovieDownloads Sample.offline (str "Dune: Part Two") tv None)
  = [str "https://corsproxy.io/?url=https%3A%2F%2Fapibay.org%2Fq.php%3Fq%3DDune%253A%2520Part%2520Two";
     str "https://corsproxy.io/?url=https%3A%2F%2Fsolidtorrents.to%2Fapi%2Fv1%2Fsearch%3Fq%3DDune%253A%2520Part%2520Two%26category%3DVideo"].
Proof.
  destruct (general_sources_always_asked Sample.offline (str "Dune: Part Two") tv
              None (str "Dune%3A%20Part%20Two"))
    as (a & s & Ha & Hs & Hreq & _).
  - apply str_code_units.
  - discriminate.
  - reflexivity.
  - rewrite Hreq. vm_compute in Ha, Hs.
    injection Ha as <-. injection Hs as <-. reflexivity.
Defined.

(** X8: every request of a call goes to the relay: it is
    [https://corsproxy.io/?url=] followed by the target URL in
    percent-encoded form, where only unreserved characters and percent
    signs occur. *)
Theorem requests_go_through_relay w query kind imdbId :
  code_units query ->
  (forall id, imdbId = Some id -> code_units id) ->
  forall r, In r (requests (fetchMovieDownloads w query kind imdbId)) ->
  exists e, r = relay ++ e /\ uri_safe e.
Proof.
  intros Hq Hid r Hr. rewrite fetchMovieDownloads_requests in Hr.
  destruct query as [|c q]; [destruct Hr|].
  destruct (encodeURIComponent (trim (c :: q))) as [enc|] eqn:Henc; [|destruct Hr].
  assert (Henc_cu : code_units enc).
  { apply ascii_code_units, uri_safe_ascii.
    eapply encodeURIComponent_safe; [|exact Henc]. apply trim_code_units, Hq. }
  assert (Hlit : forall s, code_units (str s)) by apply str_code_units.
  rewrite sources_requests in Hr.
  assert (Hone : forall u (req : completion jsstring),
             code_units u -> req = proxied u ->
             In r match req with Normal x => [x] | Throw _ => [] end ->
             exists e, r = relay ++ e /\ uri_safe e).
  { intros u req Hu -> Hin. destruct (proxied u) as [x|] eqn:E; [|destruct Hin].
    destruct Hin as [<-|[]]. eapply proxied_shape; eassumption. }
  assert (Hmid : forall a m b, code_units m -> code_units (str a ++ m ++ str b)).
  { intros a m b Hm. apply Forall_app. split; [apply Hlit|].
    apply Forall_app. split; [exact Hm|apply Hlit]. }
  apply in_app_or in Hr as [Hr|Hr]; [|apply in_app_or in Hr as [Hr|Hr]].
  - destruct kind.
    + unfold yts_request in Hr. destruct imdbId as [[|x id]|].
      * eapply Hone; [|reflexivity|exact Hr]. apply Hmid, Henc_cu.
      * eapply Hone; [|reflexivity|exact Hr]. apply Hmid, (Hid (x :: id)).
        reflexivity.
      * eapply Hone; [|reflexivity|exact Hr]. apply Hmid, Henc_cu.
    + assert (Hclean : forall id, cleanImdbId imdbId = Some id -> code_units id).
      { intros id Ec. destruct imdbId as [[|y i]|]; cbn [cleanImdbId] in Ec.
        - inversion Ec.
        - apply (f_equal (fun o => match o with Some v => v | None => id end)) in Ec.
          rewrite <- Ec. apply replace_Forall. apply (Hid (y :: i)). reflexivity.
        - inversion Ec. }
      destruct (cleanImdbId imdbId) as [[|x id]|] eqn:Ec; try destruct Hr.
      unfold eztv_request in Hr. eapply Hone; [|reflexivity|exact Hr].
      apply Hmid. apply Hclean. reflexivity.
  - unfold apibay_request in Hr. eapply Hone; [|reflexivity|exact Hr].
    apply Forall_app. split; [apply Hlit|exact Henc_cu].
  - unfold solid_request in Hr. eapply Hone; [|reflexivity|exact Hr].
    apply Hmid, Henc_cu.
Qed.

Lemma requests_go_through_relay_witness :
  exists e,
    str "https://corsproxy.io/?url=https%3A%2F%2Fyts.mx%2Fapi%2Fv2%2Flist_movies.json%3Fquery_term%3Dtt1160419%26limit%3D1"
    = relay ++ e /\ uri_safe e.
Proof.
  apply (requests_go_through_relay Sample.offline (str "Dune") movie
           (Some (str "tt1160419"))).
  - apply str_code_units.
  - intros id [= <-]. apply str_code_units.
  - vm_compute. left. reflexivity.
Defined.

(** ** [cleanImdbId] *)

Lemma startsWith_spec p s : startsWith p s = true <-> exists r, s = p ++ r.
Proof.
  revert s; induction p as [|x p IH]; intros s; cbn [startsWith].
  - split; [intros _; exists s; reflexivity|reflexivity].
  - destruct s as [|y s].
    + split; [discriminate|intros (r & H); discriminate].
    + rewrite andb_true_iff, N.eqb_eq, IH. split.
      * intros [-> (r & ->)]. exists r. reflexivity.
      * intros (r & [= -> ->]). split; [reflexivity|exists r; reflexivity].
Qed.

Lemma replace_absent pat s :
  pat <> [] -> ~ occurs pat s -> replace pat [] s = s.
Proof.
  intros Hp. induction s as [|c s IH]; intros Hno.
  - cbn. destruct pat; [congruence|reflexivity].
  - cbn [replace]. destruct (startsWith pat (c :: s)) eqn:E.
    + exfalso. apply startsWith_spec in E as (r & E). apply Hno.
      exists [], r. exact E.
    + f_equal. apply IH. intros (pre & post & ->). apply Hno.
      exists (c :: pre), post. reflexivity.
Qed.

Lemma replace_first_tt pre post :
  ~ occurs (str "tt") (pre ++ [116]) ->
  replace (str "tt") [] (pre ++ str "tt" ++ post) = pre ++ post.
Proof.
  induction pre as [|c pre IH]; intros Hno; [reflexivity|].
  cbn [app replace].
  destruct (startsWith (str "tt") (c :: pre ++ str "tt" ++ post)) eqn:E.
  - exfalso. apply startsWith_spec in E as (r & E). apply Hno.
    change (str "tt") with [116; 116] in *. cbn [app] in E.
    destruct pre as [|x pre]; cbn [app] in E; inversion E; subst.
    + exists [], []. reflexivity.
    + exists [], (pre ++ [116]). reflexivity.
  - f_equal. apply IH. intros (a & b & H). apply Hno.
    exists (c :: a), b. cbn [app]. rewrite H. reflexivity.
Qed.

(** X9: [cleanImdbId] removes the first occurrence of ["tt"] and nothing
    else: an id of the form [tt<rest>] becomes [<rest>], an id without
    ["tt"] is returned unchanged, and a missing or empty id gives [null]. *)
Theorem cleanImdbId_strips_first_tt :
  cleanImdbId None = None
  /\ cleanImdbId (Some []) = None
  /\ (forall rest, cleanImdbId (Some (str "tt" ++ rest)) = Some rest)
  /\ (forall id, id <> [] -> ~ occurs (str "tt") id ->
                 cleanImdbId (Some id) = Some id)
  /\ (forall pre post,
        ~ occurs (str "tt") (pre ++ [116]) ->
        cleanImdbId (Some (pre ++ str "tt" ++ post)) = Some (pre ++ post)).
Proof.
  split; [reflexivity|]. split; [reflexivity|]. split; [reflexivity|].
  assert (Hsome : forall id, id <> [] ->
            cleanImdbId (Some id) = Some (replace (str "tt") [] id))
    by (intros [|c r] H; [congruence|reflexivity]).
  split.
  - intros id Hne Hno. rewrite (Hsome id Hne), replace_absent; auto. discriminate.
  - intros pre post Hno. rewrite Hsome, replace_first_tt; auto.
    destruct pre; discriminate.
Qed.

Lemma cleanImdbId_strips_first_tt_witness :
  cleanImdbId (Some (str "0944947")) = Some (str "0944947")
  /\ cleanImdbId (Some (str "att12tt")) = Some (str "a12tt").
Proof.
  destruct cleanImdbId_strips_first_tt as (_ & _ & _ & Habsent & Hfirst).
  split.
  - apply Habsent; [discriminate|].
    intros (pre & post & H).
    apply (f_equal (fun s => regexp_test [str "tt"] s)) in H.
    assert (Ht : regexp_test [str "tt"] (pre ++ str "tt" ++ post) = true).
    { unfold regexp_test.
      destruct (regexp_match [str "tt"] (pre ++ str "tt" ++ post)) eqn:E;
        [reflexivity|].
      exfalso. revert E. apply (regexp_match_complete _ (str "tt")); [left; reflexivity|].
      exists (str "tt"). split; [exists pre, post; reflexivity|].
      vm_compute. repeat constructor. }
    rewrite Ht in H. discriminate H.
  - apply (Hfirst (str "a") (str "12tt")).
    intros (pre & post & H).
    destruct pre as [|x [|y [|z pre]]]; discriminate H.
Defined.

(** ** [getStreamingSources]: the URL identifies what is played *)

Lemma str_inj (s1 s2 : string) : str s1 = str s2 -> s1 = s2.
Proof.
  unfold str. intros H.
  rewrite <- (string_of_list_ascii_of_string s1),
          <- (string_of_list_ascii_of_string s2).
  f_equal. revert H.
  generalize (list_ascii_of_string s1) (list_ascii_of_string s2).
  induction l as [|a l IH]; intros [|b l']; cbn [map]; try discriminate;
    [reflexivity|].
  intros H. inversion H as [[Ha Hl]].
  apply (f_equal ascii_of_N) in Ha. rewrite !ascii_N_embedding in Ha.
  subst b. f_equal. apply IH, Hl.
Qed.

Lemma decimal_inj n m : decimal n = decimal m -> n = m.
Proof.
  unfold decimal. intros H. apply str_inj in H.
  apply DecimalN.Unsigned.to_uint_inj.
  pose proof (NilEmpty.usu (N.to_uint n)) as Hn.
  pose proof (NilEmpty.usu (N.to_uint m)) as Hm.
  rewrite H in Hn. congruence.
Qed.

Lemma toString_counting z :
  (0 <= z)%Z -> toString (Int z) = decimal (Z.to_N z).
Proof.
  intros H. unfold toString.
  destruct (z <? 0)%Z eqn:E; [apply Z.ltb_lt in E; lia|].
  rewrite Zabs2N.abs_N_nonneg by exact H. reflexivity.
Qed.

Lemma toString_counting_inj z z' :
  (0 <= z)%Z -> (0 <= z')%Z -> toString (Int z) = toString (Int z') -> z = z'.
Proof.
  intros H H' E. rewrite !toString_counting in E by assumption.
  apply decimal_inj in E. lia.
Qed.

Lemma toString_counting_digits z : (0 <= z)%Z -> digits (toString (Int z)).
Proof. intros H. rewrite toString_counting by exact H. apply decimal_digits. Qed.

(** Two runs of digits, each followed by something that is not a digit. *)
Lemma digits_sep a b x y r r' :
  digits a -> digits b -> isDigit x = false -> isDigit y = false ->
  a ++ x :: r = b ++ y :: r' -> a = b /\ r = r'.
Proof.
  intros Ha. revert b. induction Ha as [|c a Hc _ IH]; intros b Hb Hx Hy E.
  - destruct b as [|d b]; cbn [app] in E.
    + split; congruence.
    + inversion Hb; subst. injection E as -> _. congruence.
  - destruct b as [|d b]; cbn [app] in E.
    + injection E as -> _. congruence.
    + inversion Hb; subst. injection E as -> E.
      destruct (IH b) with (1 := H2) (4 := E); auto. split; congruence.
Qed.

Lemma digits_end a b x r :
  digits a -> digits b -> isDigit x = false -> a ++ x :: r = b -> False.
Proof.
  intros Ha Hb Hx E. subst b. apply Forall_app in Hb as [_ Hb].
  inversion Hb; congruence.
Qed.

Lemma some_inj {A} (x y : A) : Some x = Some y -> x = y.
Proof. congruence. Qed.

Lemma movie_source_urls id season episode :
  map Streaming.url (getStreamingSources id movie season episode)
  = [str "https://vidsrc.cc/v2/embed/movie/" ++ toString id;
     str "https://vidlink.pro/movie/" ++ toString id;
     str "https://multiembed.mov/?video_id=" ++ toString id ++ str "&tmdb=1";
     str "https://moviesapi.club/movie/" ++ toString id].
Proof. reflexivity. Qed.

Lemma tv_source_urls id s e :
  map Streaming.url (getStreamingSources id tv (Some s) (Some e))
  = [str "https://vidsrc.cc/v2/embed/tv/" ++ toString id ++ str "/"
       ++ toString s ++ str "/" ++ toString e;
     str "https://vidlink.pro/tv/" ++ toString id ++ str "/"
       ++ toString s ++ str "/" ++ toString e;
     str "https://multiembed.mov/?video_id=" ++ toString id
       ++ str "&tmdb=1&s=" ++ toString s ++ str "&e=" ++ toString e;
     str "https://moviesapi.club/tv/" ++ toString id ++ str "-"
       ++ toString s ++ str "-" ++ toString e].
Proof. reflexivity. Qed.

Lemma nth_url l i a :
  nth_error l i = Some a ->
  nth_error (map Streaming.url l) i = Some (Streaming.url a).
Proof. intros H. rewrite nth_error_map, H. reflexivity. Qed.

(** X10: for a movie, the four streaming sources do not depend on the
    season and episode arguments, and at every server the URLs of two
    different ids (non-negative safe integers) differ. *)
Theorem movie_sources_identify_the_movie id id' season episode season' episode' :
  (0 <= id)%Z -> safe_integer id -> (0 <= id')%Z -> safe_integer id' ->
  getStreamingSources (Int id) movie season episode
  = getStreamingSources (Int id) movie None None
  /\ List.length (getStreamingSources (Int id) movie season episode) = 4%nat
  /\ forall i a b,
       nth_error (getStreamingSources (Int id) movie season episode) i = Some a ->
       nth_error (getStreamingSources (Int id') movie season' episode') i = Some b ->
       Streaming.url a = Streaming.url b -> id = id'.
Proof.
  intros Hid _ Hid' _. split; [reflexivity|]. split; [reflexivity|].
  intros i a b Ha Hb E. apply nth_url in Ha, Hb.
  rewrite movie_source_urls in Ha, Hb. rewrite <- E in Hb. clear E.
  destruct i as [|[|[|[|i]]]]; cbn [nth_error] in Ha, Hb;
    try (destruct i; discriminate Ha);
    rewrite <- Ha in Hb; apply some_inj in Hb; rename Hb into E;
    apply app_inv_head in E; symmetry in E.
  - apply toString_counting_inj; assumption.
  - apply toString_counting_inj; assumption.
  - change (str "&tmdb=1") with (38 :: str "tmdb=1") in E.
    apply digits_sep in E as [E _];
      try apply toString_counting_digits; try reflexivity; try assumption.
    apply toString_counting_inj; assumption.
  - apply toString_counting_inj; assumption.
Qed.

Lemma movie_sources_identify_the_movie_witness :
  map Streaming.url (getStreamingSources (Int 693134) movie (Some (Int 4)) None)
  = [str "https://vidsrc.cc/v2/embed/movie/693134";
     str "https://vidlink.pro/movie/693134";
     str "https://multiembed.mov/?video_id=693134&tmdb=1";
     str "https://moviesapi.club/movie/693134"].
Proof.
  destruct (movie_sources_identify_the_movie 693134 693134 (Some (Int 4)) None
              None None) as [-> _];
    try (unfold safe_integer, MAX_SAFE_INTEGER); try lia.
  reflexivity.
Defined.

(** X11: for a TV show, the URL at each of the four servers determines the
    id, the season and the episode (non-negative safe integers). *)
Theorem tv_sources_identify_the_episode id s e id' s' e' :
  (0 <= id)%Z -> (0 <= s)%Z -> (0 <= e)%Z ->
  (0 <= id')%Z -> (0 <= s')%Z -> (0 <= e')%Z ->
  Forall safe_integer [id; s; e; id'; s'; e'] ->
  forall i a b,
    nth_error (getStreamingSources (Int id) tv (Some (Int s)) (Some (Int e))) i
    = Some a ->
    nth_error (getStreamingSources (Int id') tv (Some (Int s')) (Some (Int e'))) i
    = Some b ->
    Streaming.url a = Streaming.url b ->
    id = id' /\ s = s' /\ e = e'.
Proof.
  intros Hid Hs He Hid' Hs' He' _ i a b Ha Hb E.
  assert (D : forall z, (0 <= z)%Z -> digits (toString (Int z)))
    by apply toString_counting_digits.
  assert (I : forall z z', (0 <= z)%Z -> (0 <= z')%Z ->
                           toString (Int z) = toString (Int z') -> z = z')
    by apply toString_counting_inj.
  apply nth_url in Ha, Hb.
  rewrite tv_source_urls in Ha, Hb. rewrite <- E in Hb. clear E.
  destruct i as [|[|[|[|i]]]]; cbn [nth_error] in Ha, Hb;
    try (destruct i; discriminate Ha);
    rewrite <- Ha in Hb; apply some_inj in Hb; rename Hb into E;
    apply app_inv_head in E; symmetry in E.
  - change (str "/") with [47] in E. cbn [app] in E.
    apply digits_sep in E as [E1 E]; auto.
    apply digits_sep in E as [E2 E]; auto.
  - change (str "/") with [47] in E. cbn [app] in E.
    apply digits_sep in E as [E1 E]; auto.
    apply digits_sep in E as [E2 E]; auto.
  - change (str "&tmdb=1&s=") with (38 :: str "tmdb=1&s=") in E.
    change (str "&e=") with (38 :: str "e=") in E. cbn [app] in E.
    apply digits_sep in E as [E1 E]; auto.
    apply app_inv_head in E.
    apply digits_sep in E as [E2 E]; auto.
    apply app_inv_head in E. auto.
  - change (str "-") with [45] in E. cbn [app] in E.
    apply digits_sep in E as [E1 E]; auto.
    apply digits_sep in E as [E2 E]; auto.
Qed.

Lemma tv_sources_identify_the_episode_witness :
  forallb
    (fun i =>
       match nth_error (getStreamingSources (Int 1399) tv (Some (Int 1)) (Some (Int 12))) i,
             nth_error (getStreamingSources (Int 1399) tv (Some (Int 11)) (Some (Int 2))) i
       with
       | Some a, Some b => negb (eqb (Streaming.url a) (Streaming.url b))
       | _, _ => false
       end)
    [0; 1; 2; 3]%nat
  = true.
Proof.
  apply forallb_forall. intros i Hi.
  destruct (nth_error (getStreamingSources (Int 1399) tv (Some (Int 1)) (Some (Int 12))) i)
    as [a|] eqn:Ha;
    [|repeat (destruct Hi as [<-|Hi]; [discriminate Ha|]); destruct Hi].
  destruct (nth_error (getStreamingSources (Int 1399) tv (Some (Int 11)) (Some (Int 2))) i)
    as [b|] eqn:Hb;
    [|repeat (destruct Hi as [<-|Hi]; [discriminate Hb|]); destruct Hi].
  destruct (eqb (Streaming.url a) (Streaming.url b)) eqn:E; [|reflexivity].
  apply eqb_eq in E.
  destruct (tv_sources_identify_the_episode 1399 1 12 1399 11 2
              ltac:(lia) ltac:(lia) ltac:(lia) ltac:(lia) ltac:(lia) ltac:(lia)
              ltac:(repeat constructor; unfold MAX_SAFE_INTEGER; lia)
              i a b Ha Hb E) as (_ & H & _).
  discriminate H.
Defined.

(** ** The download modal *)

Lemma startsWith_app p r : startsWith p (p ++ r) = true.
Proof. apply startsWith_spec. exists r. reflexivity. Qed.

Lemma getMagnetLink_keeps_magnet title torrent :
  startsWith (str "magnet:") (url torrent) = true ->
  getMagnetLink title torrent = Normal (url torrent).
Proof.
  intros H. unfold getMagnetLink.
  destruct (url torrent) as [|c r]; [discriminate H|].
  rewrite H. reflexivity.
Qed.

(** X12: whatever [getMagnetLink] returns starts with ["magnet:"]; a
    candidate whose URL is already a magnet link gets that URL back,
    whatever the title; for any other candidate the link is built from its
    hash, and this fails only when the title cannot be encoded. *)
Theorem getMagnetLink_is_a_magnet title torrent :
  (forall m, getMagnetLink title torrent = Normal m ->
             startsWith (str "magnet:") m = true)
  /\ (startsWith (str "magnet:") (url torrent) = true ->
      getMagnetLink title torrent = Normal (url torrent))
  /\ (startsWith (str "magnet:") (url torrent) = false ->
      forall dn, encodeURIComponent title = Normal dn ->
      getMagnetLink title torrent
      = Normal (str "magnet:?xt=urn:btih:" ++ hash torrent ++ str "&dn=" ++ dn
                ++ str "&tr=udp://open.demonii.com:1337/announce&tr=udp://tracker.openbittorrent.com:80&tr=udp://tracker.coppersurfer.tk:6969&tr=udp://tracker.leechers-paradise.org:6969")).
Proof.
  unfold getMagnetLink.
  assert (Hguard : match url torrent with
                   | [] => false
                   | _ :: _ => startsWith (str "magnet:") (url torrent)
                   end = startsWith (str "magnet:") (url torrent))
    by (destruct (url torrent); reflexivity).
  rewrite Hguard. split; [|split].
  - intros m. destruct (startsWith (str "magnet:") (url torrent)) eqn:E.
    + intros H. apply some_inj. apply (f_equal (fun c => match c with
                                                         | Normal x => Some x
                                                         | Throw _ => None
                                                         end)) in H.
      cbv beta iota in H. apply some_inj in H. subst m. rewrite E. reflexivity.
    + destruct (encodeURIComponent title) as [dn|]; [|discriminate].
      intros H. apply (f_equal (fun c => match c with
                                          | Normal x => x
                                          | Throw _ => []
                                          end)) in H.
      cbv beta iota delta [cmap] in H. subst m.
      change (str "magnet:?xt=urn:btih:") with (str "magnet:" ++ str "?xt=urn:btih:").
      rewrite <- app_assoc. apply startsWith_app.
  - intros ->. reflexivity.
  - intros -> dn ->. reflexivity.
Qed.

Lemma getMagnetLink_is_a_magnet_witness :
  getMagnetLink (str "Dune: Part Two")
    {| url := str "https://yts.mx/torrent/download/AAA"; hash := str "AAA";
       quality := str "1080p"; type := str "bluray"; seeds := Number (Int 120);
       peers := Int 14; size := str "2.1 GB"; date_uploaded := [] |}
  = Normal (str "magnet:?xt=urn:btih:AAA&dn=Dune%3A%20Part%20Two&tr=udp://open.demonii.com:1337/announce&tr=udp://tracker.openbittorrent.com:80&tr=udp://tracker.coppersurfer.tk:6969&tr=udp://tracker.leechers-paradise.org:6969").
Proof.
  destruct (getMagnetLink_is_a_magnet (str "Dune: Part Two")
              {| url := str "https://yts.mx/torrent/download/AAA"; hash := str "AAA";
                 quality := str "1080p"; type := str "bluray"; seeds := Number (Int 120);
                 peers := Int 14; size := str "2.1 GB"; date_uploaded := [] |})
    as (_ & _ & H).
  rewrite (H eq_refl (str "Dune%3A%20Part%20Two") eq_refl). reflexivity.
Defined.

(** X13: a candidate made by the APIBay source carries a magnet link built
    from its own hash, so the modal passes that link on unchanged whatever
    the title is, and never fails on it. *)
Theorem apibay_candidates_keep_their_magnet item t title :
  apibay_torrent item = Normal t ->
  hash t = ab_info_hash item
  /\ startsWith (str "magnet:?xt=urn:btih:" ++ hash t ++ str "&dn=") (url t) = true
  /\ getMagnetLink title t = Normal (url t).
Proof.
  unfold apibay_torrent.
  destruct (encodeURIComponent (ab_name item)) as [dn|]; [|discriminate].
  intros H. apply (f_equal (fun c => match c with
                                      | Normal x => Some x
                                      | Throw _ => None
                                      end)) in H.
  cbv beta iota delta [cmap] in H. apply some_inj in H. subst t.
  cbn [hash url]. split; [reflexivity|]. split.
  - rewrite !app_assoc. rewrite <- (app_assoc _ dn). apply startsWith_app.
  - apply getMagnetLink_keeps_magnet. cbn [url].
    change (str "magnet:?xt=urn:btih:") with (str "magnet:" ++ str "?xt=urn:btih:").
    rewrite <- app_assoc. apply startsWith_app.
Qed.

Lemma apibay_candidates_keep_their_magnet_witness :
  cmap (getMagnetLink (str "Another title")) (apibay_torrent one_gib_row)
  = cmap (fun t => Normal (url t)) (apibay_torrent one_gib_row).
Proof.
  destruct (apibay_torrent one_gib_row) as [t|] eqn:E; [|reflexivity].
  cbn [cmap]. f_equal.
  apply (apibay_candidates_keep_their_magnet one_gib_row t (str "Another title") E).
Defined.

(** ** The query the modal builds for a TV show *)

Lemma span_digits_snoc s c r :
  isDigit c = false ->
  span_digits (s ++ c :: r)
  = (fst (span_digits s), snd (span_digits s) ++ c :: r).
Proof.
  intros Hc. induction s as [|x s IH]; cbn [app span_digits].
  - rewrite Hc. reflexivity.
  - destruct (isDigit x); [|reflexivity].
    rewrite IH. destruct (span_digits s). reflexivity.
Qed.

Lemma match_SE_here_space s r :
  match_SE_here (s ++ 32 :: r) = match_SE_here s.
Proof.
  destruct s as [|c s]; [reflexivity|].
  cbn [app match_SE_here]. destruct (ci_eq c 83); [|reflexivity].
  rewrite span_digits_snoc by reflexivity.
  destruct (span_digits s) as [[|d ds] [|c2 r2]]; cbn [fst snd app]; try reflexivity.
  destruct (ci_eq c2 69); [|reflexivity].
  rewrite span_digits_snoc by reflexivity.
  destruct (span_digits r2) as [[|e es] rest]; reflexivity.
Qed.

Lemma regexp_match_SE_space s r :
  regexp_match_SE (s ++ 32 :: r)
  = match regexp_match_SE s with
    | Some g => Some g
    | None => regexp_match_SE r
    end.
Proof.
  induction s as [|c s IH]; [reflexivity|].
  change ((c :: s) ++ 32 :: r) with (c :: (s ++ 32 :: r)).
  cbn [regexp_match_SE].
  change (c :: (s ++ 32 :: r)) with ((c :: s) ++ 32 :: r).
  rewrite match_SE_here_space.
  destruct (match_SE_here (c :: s)); [reflexivity|exact IH].
Qed.

Lemma span_digits_all b : digits b -> span_digits b = (b, []).
Proof.
  intros H. rewrite <- (app_nil_r b) at 1. rewrite span_digits_app by exact H.
  cbn. rewrite app_nil_r. reflexivity.
Qed.

Lemma match_SE_here_exact a b :
  digits a -> digits b -> a <> [] -> b <> [] ->
  match_SE_here (83 :: a ++ 69 :: b) = Some (a, b).
Proof.
  intros Ha Hb Na Nb. cbn [match_SE_here].
  change (ci_eq 83 83) with true. cbv iota.
  rewrite span_digits_app by exact Ha.
  change (span_digits (69 :: b)) with (@nil N, 69 :: b). cbn [fst snd].
  rewrite app_nil_r. destruct a as [|d ds]; [congruence|].
  change (ci_eq 69 69) with true. cbv iota.
  rewrite span_digits_all by exact Hb.
  destruct b; [congruence|reflexivity].
Qed.

Lemma white_not_S c : isWhiteSpace c = true -> ci_eq c 83 = false.
Proof.
  intros H. destruct (ci_eq c 83) eqn:E; [|reflexivity].
  apply ci_eq_S_not_white in E. congruence.
Qed.

Lemma regexp_match_SE_trimStart s :
  regexp_match_SE (trimStart s) = regexp_match_SE s.
Proof.
  induction s as [|c s IH]; [reflexivity|].
  cbn [trimStart]. destruct (isWhiteSpace c) eqn:E; [|reflexivity].
  rewrite IH. cbn [regexp_match_SE match_SE_here].
  rewrite (white_not_S c E). reflexivity.
Qed.

Lemma trimStart_snoc x d :
  isWhiteSpace d = false -> exists y, trimStart (x ++ [d]) = y ++ [d].
Proof.
  intros Hd. induction x as [|c x (y & IH)]; cbn [app trimStart].
  - rewrite Hd. exists []. reflexivity.
  - destruct (isWhiteSpace c); [exists y; exact IH|].
    exists (c :: x). reflexivity.
Qed.

Lemma trim_ends_nonwhite x d :
  isWhiteSpace d = false -> trim (x ++ [d]) = trimStart (x ++ [d]).
Proof.
  intros Hd. unfold trim. destruct (trimStart_snoc x d Hd) as (y & ->).
  rewrite rev_app_distr. cbn [rev app trimStart]. rewrite Hd.
  change (d :: rev y) with ([d] ++ rev y).
  rewrite rev_app_distr, rev_involutive. reflexivity.
Qed.

Lemma episodeStr_digits n :
  counting n -> digits (episodeStr n) /\ episodeStr n <> [].
Proof.
  destruct n as [[|z]|]; cbn [counting episodeStr]; intros H;
    try contradiction;
    try (split; [vm_compute; repeat constructor|discriminate]).
  unfold number_truthy. destruct (z =? 0)%Z; cbn [negb];
    [split; [vm_compute; repeat constructor|discriminate]|].
  unfold padStart2. rewrite toString_counting by exact (proj1 H). split.
  - apply Forall_app. split; [|apply decimal_digits].
    apply Forall_forall. intros c Hc. apply repeat_spec in Hc. subst c. reflexivity.
  - intros E. apply app_eq_nil in E as [_ E]. exact (decimal_nonempty _ E).
Qed.

(** X14: the query the modal builds for a TV show, for a season and an
    episode that are absent or non-negative safe integers, always contains
    a season/episode pattern, so the EZTV filter is always in force for it.
    The pattern the service reads is the one the modal appended, two-digit
    season and episode, unless the title itself already contains such a
    pattern, which then takes precedence. *)
Theorem tv_query_carries_the_episode title season episode :
  counting season -> counting episode ->
  (exists m, is_episode_pattern m /\ occurs m (tv_query title season episode))
  /\ regexp_match_SE (trim (tv_query title season episode))
     = match regexp_match_SE title with
       | Some g => Some g
       | None => Some (episodeStr season, episodeStr episode)
       end.
Proof.
  intros Hs He.
  destruct (episodeStr_digits season Hs) as [Ds Ns].
  destruct (episodeStr_digits episode He) as [De Ne].
  assert (Hq : tv_query title season episode
               = title ++ 32 :: 83 :: episodeStr season ++ 69 :: episodeStr episode).
  { unfold tv_query. change (str " S") with [32; 83]. change (str "E") with [69].
    reflexivity. }
  split.
  - exists (83 :: episodeStr season ++ 69 :: episodeStr episode). split.
    + exists (episodeStr season), (episodeStr episode).
      repeat split; try assumption.
      unfold SE. constructor; [reflexivity|].
      apply Forall2_app; [|constructor; [reflexivity|]].
      * clear -Ds. induction Ds; constructor; auto. apply N.eqb_refl.
      * clear -De. induction De; constructor; auto. apply N.eqb_refl.
    + rewrite Hq. exists (title ++ [32]), []. rewrite app_nil_r, <- app_assoc.
      reflexivity.
  - destruct (exists_last Ne) as (b & d & Eb).
    assert (Hd : isWhiteSpace d = false).
    { apply digit_not_white. rewrite Eb in De. apply Forall_app in De as [_ De].
      inversion De; assumption. }
    assert (Hsplit : tv_query title season episode
                     = (title ++ 32 :: 83 :: episodeStr season ++ 69 :: b) ++ [d]).
    { rewrite Hq, Eb. rewrite <- !app_assoc. cbn [app].
      rewrite <- app_assoc. reflexivity. }
    rewrite Hsplit, (trim_ends_nonwhite _ _ Hd), regexp_match_SE_trimStart.
    rewrite <- Hsplit, Hq, regexp_match_SE_space.
    destruct (regexp_match_SE title); [reflexivity|].
    cbn [regexp_match_SE]. rewrite match_SE_here_exact by assumption.
    reflexivity.
Qed.

Lemma tv_query_carries_the_episode_witness :
  tv_query (str "Game of Thrones") (Some (Int 1)) (Some (Int 12))
  = str "Game of Thrones S01E12"
  /\ regexp_match_SE (trim (tv_query (str "Game of Thrones") (Some (Int 1))
                              (Some (Int 12))))
     = Some (str "01", str "12").
Proof.
  split; [reflexivity|].
  destruct (tv_query_carries_the_episode (str "Game of Thrones") (Some (Int 1))
              (Some (Int 12))) as [_ H];
    [cbn; unfold safe_integer, MAX_SAFE_INTEGER; lia
    |cbn; unfold safe_integer, MAX_SAFE_INTEGER; lia|].
  rewrite H. reflexivity.
Defined.

(** ** The cache of the TMDB client *)

Lemma Map_get_set_same {V} (m : list (jsstring * V)) k v :
  TMDB.Map_get (map_set m k v) k = Some v.
Proof.
  unfold TMDB.Map_get.
  induction m as [|[k0 v0] m IH]; cbn [map_set find fst].
  - rewrite eqb_refl. reflexivity.
  - destruct (eqb k k0) eqn:E; cbn [find fst].
    + apply eqb_eq in E; subst. rewrite eqb_refl. reflexivity.
    + assert (eqb k0 k = false) as ->
        by (apply eqb_neq; apply eqb_neq in E; congruence).
      exact IH.
Qed.

Lemma Map_get_set_other {V} (m : list (jsstring * V)) k v k' :
  k' <> k -> TMDB.Map_get (map_set m k v) k' = TMDB.Map_get m k'.
Proof.
  intros Hk. unfold TMDB.Map_get.
  induction m as [|[k0 v0] m IH]; cbn [map_set find fst].
  - assert (eqb k k' = false) as -> by (apply eqb_neq; congruence).
    reflexivity.
  - destruct (eqb k k0) eqn:E; cbn [find fst].
    + apply eqb_eq in E; subst k0.
      assert (eqb k k' = false) as -> by (apply eqb_neq; congruence).
      reflexivity.
    + destruct (eqb k0 k'); [reflexivity|exact IH].
Qed.

(** The three ways a call of [fetchFromTMDB] can go: answered from a fresh
    entry; sent and failed; sent and stored. *)
Lemma fetchFromTMDB_cases {D} (b : TMDB.browser D) now later cache endpoint params :
  let key := TMDB.cacheKey endpoint params (TMDB.includeAdult b) in
  let url := TMDB.requestUrl endpoint params (TMDB.includeAdult b) in
  let r := TMDB.fetchFromTMDB b now later cache endpoint params in
  (exists c, fresh_entry cache key now c
             /\ r = {| TMDB.result := TMDB.Resolves (TMDB.data c);
                       TMDB.apiCache := cache; TMDB.sent := [] |})
  \/ ((forall c, ~ fresh_entry cache key now c)
      /\ ((exists f, r = {| TMDB.result := TMDB.Rejects f;
                            TMDB.apiCache := cache; TMDB.sent := [url] |})
          \/ (exists d, r = {| TMDB.result := TMDB.Resolves d;
                               TMDB.apiCache :=
                                 map_set cache key
                                   {| TMDB.data := d; TMDB.timestamp := later |};
                               TMDB.sent := [url] |}))).
Proof.
  intros key url r. subst r. unfold fresh_entry, TMDB.fetchFromTMDB.
  fold key. fold url.
  destruct (TMDB.Map_get cache key) as [c|];
    [destruct (now - TMDB.timestamp c <? TMDB.CACHE_DURATION)%Z eqn:E|].
  - apply Z.ltb_lt in E. left. exists c. auto.
  - apply Z.ltb_ge in E. right. split; [intros c' [[= <-] H]; lia|].
    destruct (TMDB.fetch b url) as [r|f]; [|left; eexists; reflexivity].
    destruct (TMDB.ok r); cbn [negb]; [|left; eexists; reflexivity].
    destruct (TMDB.json r); [right|left]; eexists; reflexivity.
  - right. split; [intros c' [[=] _]|].
    destruct (TMDB.fetch b url) as [r|f]; [|left; eexists; reflexivity].
    destruct (TMDB.ok r); cbn [negb]; [|left; eexists; reflexivity].
    destruct (TMDB.json r); [right|left]; eexists; reflexivity.
Qed.

Lemma fetchFromTMDB_other_keys {D} (b : TMDB.browser D) now later cache endpoint params k :
  k <> TMDB.cacheKey endpoint params (TMDB.includeAdult b) ->
  TMDB.Map_get (TMDB.apiCache (TMDB.fetchFromTMDB b now later cache endpoint params)) k
  = TMDB.Map_get cache k.
Proof.
  intros Hk.
  destruct (fetchFromTMDB_cases b now later cache endpoint params)
    as [(c & _ & E)|(_ & [(f & E)|(d & E)])]; rewrite E; cbn [TMDB.apiCache];
    [reflexivity|reflexivity|apply Map_get_set_other, Hk].
Qed.

(** X15: a response fetched from the network is served from the cache,
    without a request and without touching the cache, to every call for the
    same endpoint, parameters and adult setting made less than ten minutes
    after it was stored; from ten minutes on, such a call goes to the
    network again. *)
Theorem fetched_response_is_served_from_cache {D} (b b' : TMDB.browser D)
    now later now' later' cache endpoint params d :
  TMDB.includeAdult b' = TMDB.includeAdult b ->
  TMDB.result (TMDB.fetchFromTMDB b now later cache endpoint params)
  = TMDB.Resolves d ->
  TMDB.sent (TMDB.fetchFromTMDB b now later cache endpoint params) <> [] ->
  let cache' :=
    TMDB.apiCache (TMDB.fetchFromTMDB b now later cache endpoint params) in
  ((now' - later < 600000)%Z ->
   TMDB.fetchFromTMDB b' now' later' cache' endpoint params
   = {| TMDB.result := TMDB.Resolves d; TMDB.apiCache := cache';
        TMDB.sent := [] |})
  /\ ((600000 <= now' - later)%Z ->
      TMDB.sent (TMDB.fetchFromTMDB b' now' later' cache' endpoint params)
      = [TMDB.requestUrl endpoint params (TMDB.includeAdult b)]).
Proof.
  intros Hb Hd Hs cache'. subst cache'.
  destruct (fetchFromTMDB_cases b now later cache endpoint params)
    as [(c & _ & E)|(_ & [(f & E)|(d' & E)])];
    rewrite E in Hd, Hs |- *; cbn [TMDB.result TMDB.sent TMDB.apiCache] in *;
    [congruence|discriminate|].
  injection Hd as ->.
  set (cache' := map_set cache _ _).
  assert (Hget : TMDB.Map_get cache'
                   (TMDB.cacheKey endpoint params (TMDB.includeAdult b'))
                 = Some {| TMDB.data := d; TMDB.timestamp := later |})
    by (rewrite Hb; apply Map_get_set_same).
  destruct (fetchFromTMDB_cases b' now' later' cache' endpoint params)
    as [(c & [Hc Ht] & E')|(Hstale & E')].
  - rewrite Hget in Hc. injection Hc as <-. cbn [TMDB.timestamp TMDB.data] in *.
    change TMDB.CACHE_DURATION with 600000%Z in Ht.
    split; [intros _; exact E'|lia].
  - split.
    + intros Ht. destruct (Hstale {| TMDB.data := d; TMDB.timestamp := later |}).
      split; [exact Hget|exact Ht].
    + intros _. rewrite <- Hb.
      destruct E' as [(f & ->)|(d' & ->)]; reflexivity.
Qed.

Lemma fetched_response_is_served_from_cache_witness :
  let b := answering 7%nat None in
  let cache' :=
    TMDB.apiCache (TMDB.fetchFromTMDB b 0 5 [] (str "movie/popular") []) in
  TMDB.fetchFromTMDB b 100 105 cache' (str "movie/popular") []
  = {| TMDB.result := TMDB.Resolves 7%nat; TMDB.apiCache := cache';
       TMDB.sent := [] |}.
Proof.
  intros b cache'.
  apply (proj1 (fetched_response_is_served_from_cache b b 0 5 100 105 []
                  (str "movie/popular") [] 7%nat eq_refl eq_refl
                  ltac:(vm_compute; discriminate))).
  reflexivity.
Defined.

(** X16: a call is answered without a request exactly when the cache holds
    an entry for its key that is less than ten minutes old, and then it
    resolves with that entry's data and leaves the cache as it is;
    otherwise it sends exactly one request, to the URL of its endpoint. *)
Theorem fetchFromTMDB_asks_unless_fresh {D} (b : TMDB.browser D)
    now later cache endpoint params :
  let key := TMDB.cacheKey endpoint params (TMDB.includeAdult b) in
  let r := TMDB.fetchFromTMDB b now later cache endpoint params in
  (TMDB.sent r = [] <-> exists c, fresh_entry cache key now c)
  /\ (forall c, fresh_entry cache key now c ->
        r = {| TMDB.result := TMDB.Resolves (TMDB.data c);
               TMDB.apiCache := cache; TMDB.sent := [] |})
  /\ ((forall c, ~ fresh_entry cache key now c) ->
        TMDB.sent r = [TMDB.requestUrl endpoint params (TMDB.includeAdult b)]).
Proof.
  intros key r.
  destruct (fetchFromTMDB_cases b now later cache endpoint params)
    as [(c & Hc & E)|(Hstale & E)]; fold key in Hc || fold key in Hstale;
    fold r in E.
  - split; [|split].
    + rewrite E. split; [intros _; exists c; exact Hc|reflexivity].
    + intros c' Hc'. destruct Hc as [Hc _], Hc' as [Hc' _].
      rewrite Hc in Hc'. injection Hc' as <-. exact E.
    + intros H. destruct (H c Hc).
  - assert (Hs : TMDB.sent r
                 = [TMDB.requestUrl endpoint params (TMDB.includeAdult b)])
      by (destruct E as [(f & ->)|(d & ->)]; reflexivity).
    split; [|split].
    + rewrite Hs. split; [discriminate|]. intros (c & Hc). destruct (Hstale c Hc).
    + intros c Hc. destruct (Hstale c Hc).
    + intros _. exact Hs.
Qed.

Lemma fetchFromTMDB_asks_unless_fresh_witness :
  TMDB.sent (TMDB.fetchFromTMDB (answering 7%nat None) 600005 600010
               [(str "movie/popular?&include_adult=false",
                 {| TMDB.data := 3%nat; TMDB.timestamp := 5 |})]
               (str "movie/popular") [])
  = [TMDB.requestUrl (str "movie/popular") [] false].
Proof.
  apply (proj2 (proj2 (fetchFromTMDB_asks_unless_fresh (answering 7%nat None)
                         600005 600010
                         [(str "movie/popular?&include_adult=false",
                           {| TMDB.data := 3%nat; TMDB.timestamp := 5 |})]
                         (str "movie/popular") []))).
  intros c [Hc Ht]. vm_compute in Hc. injection Hc as <-.
  vm_compute in Ht. discriminate.
Defined.

(** X17: a call that fails leaves the cache as it was (failures are not
    cached) and has sent its request; no call changes what the cache holds
    for any other key, no call removes a key, and the keys stay distinct. *)
Theorem fetchFromTMDB_cache_discipline {D} (b : TMDB.browser D)
    now later cache endpoint params :
  let key := TMDB.cacheKey endpoint params (TMDB.includeAdult b) in
  let r := TMDB.fetchFromTMDB b now later cache endpoint params in
  (forall f, TMDB.result r = TMDB.Rejects f ->
     TMDB.apiCache r = cache
     /\ TMDB.sent r = [TMDB.requestUrl endpoint params (TMDB.includeAdult b)])
  /\ (forall k, k <> key -> TMDB.Map_get (TMDB.apiCache r) k = TMDB.Map_get cache k)
  /\ (forall k, In k (map fst cache) -> In k (map fst (TMDB.apiCache r)))
  /\ (NoDup (map fst cache) -> NoDup (map fst (TMDB.apiCache r))).
Proof.
  intros key r.
  assert (Hcache : TMDB.apiCache r = cache
                   \/ exists v, TMDB.apiCache r = map_set cache key v).
  { destruct (fetchFromTMDB_cases b now later cache endpoint params)
      as [(c & _ & E)|(_ & [(f & E)|(d & E)])]; fold r in E; fold key in E;
      rewrite E; cbn [TMDB.apiCache]; [left|left|right; eexists]; reflexivity. }
  split; [|split; [|split]].
  - intros f Hf.
    destruct (fetchFromTMDB_cases b now later cache endpoint params)
      as [(c & _ & E)|(_ & [(f' & E)|(d & E)])]; fold r in E;
      rewrite E in Hf |- *; cbn [TMDB.result TMDB.apiCache TMDB.sent] in *;
      [discriminate|split; reflexivity|discriminate].
  - intros k Hk. apply fetchFromTMDB_other_keys, Hk.
  - intros k Hk. destruct Hcache as [->|(v & ->)]; [exact Hk|].
    apply map_set_keys_In. auto.
  - intros Hnd. destruct Hcache as [->|(v & ->)]; [exact Hnd|].
    apply map_set_keys_NoDup, Hnd.
Qed.

Lemma fetchFromTMDB_cache_discipline_witness :
  let b : TMDB.browser nat :=
    {| TMDB.fetch := fun _ => TMDB.Rejects (TMDB.Thrown NetworkError);
       TMDB.cineStreamAdult := None |} in
  let cache := [(str "tv/popular?&include_adult=false",
                 {| TMDB.data := 3%nat; TMDB.timestamp := 5 |})] in
  TMDB.apiCache (TMDB.fetchFromTMDB b 10 20 cache (str "movie/popular") []) = cache
  /\ TMDB.sent (TMDB.fetchFromTMDB b 10 20 cache (str "movie/popular") [])
     = [TMDB.requestUrl (str "movie/popular") [] (TMDB.includeAdult b)].
Proof.
  intros b cache.
  apply (proj1 (fetchFromTMDB_cache_discipline b 10 20 cache
                  (str "movie/popular") []) (TMDB.Thrown NetworkError)).
  reflexivity.
Defined.
(** *** Cache keys *)

Lemma split_at_first (x : N) a b r r' :
  ~ In x a -> ~ In x b -> a ++ x :: r = b ++ x :: r' -> a = b /\ r = r'.
Proof.
  revert b; induction a as [|y a IH]; intros [|z b] Ha Hb H; cbn [app] in H.
  - inversion H. auto.
  - inversion H; subst. destruct Hb. left. reflexivity.
  - inversion H; subst. destruct Ha. left. reflexivity.
  - inversion H; subst.
    destruct (IH b) as [-> ->]; auto.
    + intros Hin. apply Ha. right. exact Hin.
    + intros Hin. apply Hb. right. exact Hin.
Qed.

Lemma adult_suffix_differs p p' :
  p ++ str "&include_adult=" ++ TMDB.bool_text true
  <> p' ++ str "&include_adult=" ++ TMDB.bool_text false.
Proof.
  intros H. apply (f_equal (@rev N)) in H. rewrite !rev_app_distr in H.
  change (rev (TMDB.bool_text true)) with [101; 117; 114; 116] in H.
  change (rev (TMDB.bool_text false)) with [101; 115; 108; 97; 102] in H.
  cbn [app] in H. inversion H.
Qed.

Lemma adult_suffix_inj p a p' a' :
  p ++ str "&include_adult=" ++ TMDB.bool_text a
  = p' ++ str "&include_adult=" ++ TMDB.bool_text a' ->
  p = p' /\ a = a'.
Proof.
  intros H. destruct a, a'.
  - split; [exact (app_inv_tail _ _ _ H)|reflexivity].
  - destruct (adult_suffix_differs _ _ H).
  - symmetry in H. destruct (adult_suffix_differs _ _ H).
  - split; [exact (app_inv_tail _ _ _ H)|reflexivity].
Qed.

(** X18: the cache key identifies the request.  For endpoints without a
    question mark (as all endpoints of the client are), two calls have the
    same cache key only if they have the same endpoint, parameters and
    adult setting, hence the same request URL: an entry is only ever served
    to a call that would have asked for the very same URL. *)
Theorem cache_key_identifies_the_request e p a e' p' a' :
  ~ In 63 e -> ~ In 63 e' ->
  TMDB.cacheKey e p a = TMDB.cacheKey e' p' a' ->
  e = e' /\ p = p' /\ a = a'
  /\ TMDB.requestUrl e p a = TMDB.requestUrl e' p' a'.
Proof.
  intros He He' H. unfold TMDB.cacheKey in H.
  change (str "?") with [63] in H. cbn [app] in H.
  apply split_at_first in H as [-> H]; [|assumption|assumption].
  apply adult_suffix_inj in H as [-> ->]. auto.
Qed.

Lemma cache_key_identifies_the_request_witness :
  str "discover/movie" = str "discover/movie"
  /\ str "with_genres=28" = str "with_genres=28"
  /\ false = false
  /\ TMDB.requestUrl (str "discover/movie") (str "with_genres=28") false
     = TMDB.requestUrl (str "discover/movie") (str "with_genres=28") false.
Proof.
  apply cache_key_identifies_the_request.
  - vm_compute. intuition discriminate.
  - vm_compute. intuition discriminate.
  - reflexivity.
Defined.

(** X19: the two adult settings do not share cache entries.  Whatever a
    call made under one setting leaves in the cache, a call for the same
    endpoint and parameters under the other setting behaves as if the
    first had not been made: same outcome, same request. *)
Theorem adult_settings_do_not_share_entries {D} (b b' : TMDB.browser D)
    now later now' later' cache endpoint params :
  TMDB.includeAdult b' <> TMDB.includeAdult b ->
  let cache' :=
    TMDB.apiCache (TMDB.fetchFromTMDB b now later cache endpoint params) in
  TMDB.result (TMDB.fetchFromTMDB b' now' later' cache' endpoint params)
  = TMDB.result (TMDB.fetchFromTMDB b' now' later' cache endpoint params)
  /\ TMDB.sent (TMDB.fetchFromTMDB b' now' later' cache' endpoint params)
     = TMDB.sent (TMDB.fetchFromTMDB b' now' later' cache endpoint params).
Proof.
  intros Hb cache'.
  assert (Hget : TMDB.Map_get cache'
                   (TMDB.cacheKey endpoint params (TMDB.includeAdult b'))
                 = TMDB.Map_get cache
                     (TMDB.cacheKey endpoint params (TMDB.includeAdult b'))).
  { apply fetchFromTMDB_other_keys. unfold TMDB.cacheKey. intros H.
    apply app_inv_head in H. apply app_inv_head in H.
    apply adult_suffix_inj in H as [_ H]. contradiction. }
  clearbody cache'. unfold TMDB.fetchFromTMDB. rewrite Hget.
  destruct (TMDB.Map_get cache _) as [c|];
    [destruct (now' - TMDB.timestamp c <? TMDB.CACHE_DURATION)%Z|].
  1: split; reflexivity.
  all: destruct (TMDB.fetch b' _) as [r|f]; [|split; reflexivity];
    destruct (TMDB.ok r); cbn [negb]; [|split; reflexivity];
    destruct (TMDB.json r); split; reflexivity.
Qed.

Lemma adult_settings_do_not_share_entries_witness :
  let b := answering 7%nat None in
  let b' := answering 9%nat (Some (str "true")) in
  let cache' :=
    TMDB.apiCache (TMDB.fetchFromTMDB b 0 5 [] (str "movie/popular") []) in
  TMDB.result (TMDB.fetchFromTMDB b' 100 105 cache' (str "movie/popular") [])
  = TMDB.result (TMDB.fetchFromTMDB b' 100 105 [] (str "movie/popular") [])
  /\ TMDB.sent (TMDB.fetchFromTMDB b' 100 105 cache' (str "movie/popular") [])
     = TMDB.sent (TMDB.fetchFromTMDB b' 100 105 [] (str "movie/popular") []).
Proof.
  intros b b' cache'.
  apply (adult_settings_do_not_share_entries b b' 0 5 100 105 []
           (str "movie/popular") []).
  vm_compute. discriminate.
Defined.
(** ** Content lists *)

Lemma mapM_deref_somes {A B} (g : A -> B) (es : list A) :
  mapM (fun t => cmap g (deref t)) (map Some es) = Normal (map g es).
Proof.
  induction es as [|a es IH]; [reflexivity|].
  cbn [map mapM deref cmap]. rewrite IH. reflexivity.
Qed.

Lemma filterM_deref_somes {A} (f : A -> bool) (es : list A) :
  filterM (fun t => cmap f (deref t)) (map Some es)
  = Normal (map Some (filter f es)).
Proof.
  induction es as [|a es IH]; [reflexivity|].
  cbn [map filterM deref cmap filter]. rewrite IH.
  destruct (f a); reflexivity.
Qed.

Lemma filterM_deref_none {A} (f : A -> bool) (l : list (option A)) :
  In None l -> filterM (fun t => cmap f (deref t)) l = Throw TypeError.
Proof.
  induction l as [|[a|] l IH]; intros H; [destruct H| |reflexivity].
  destruct H as [H|H]; [discriminate|].
  cbn [filterM deref cmap]. rewrite (IH H). reflexivity.
Qed.

Lemma somes_or_none {A} (l : list (option A)) :
  (exists es, l = map Some es) \/ In None l.
Proof.
  induction l as [|[a|] l [(es & ->)|H]].
  - left. exists []. reflexivity.
  - left. exists (a :: es). reflexivity.
  - right. right. exact H.
  - right. left. reflexivity.
  - right. left. reflexivity.
Qed.

Lemma processContentItem_images {any} (item : @TMDB.raw_item any) mt :
  has_images item = true -> tmdb_images (TMDB.processContentItem item mt).
Proof.
  unfold has_images, tmdb_images, truthy. intros H.
  apply andb_true_iff in H as [Hp Hb].
  unfold TMDB.processContentItem. cbn [TMDB.poster_path TMDB.backdrop_path].
  destruct (TMDB.r_poster_path item) as [[|c p]|]; [discriminate| |discriminate].
  destruct (TMDB.r_backdrop_path item) as [[|c' p']|]; [discriminate| |discriminate].
  split; apply startsWith_app.
Qed.

Lemma processContentList_somes {any} (es : list (@TMDB.raw_item any)) l :
  TMDB.processContentList (map Some es) l
  = Normal (map (fun item => TMDB.processContentItem item (listed_as l item))
              (filter has_images es)).
Proof.
  unfold TMDB.processContentList.
  change (fun item : TMDB.raw_item =>
            truthy (TMDB.r_poster_path item) && truthy (TMDB.r_backdrop_path item))
    with (@has_images any).
  rewrite filterM_deref_somes.
  change (fun item : TMDB.raw_item =>
            TMDB.processContentItem item
              match l with
              | TMDB.only m => Some (TMDB.media_text m)
              | TMDB.all => TMDB.r_media_type item
              end)
    with (fun item : @TMDB.raw_item any =>
            TMDB.processContentItem item (listed_as l item)).
  apply mapM_deref_somes.
Qed.

Lemma processed_images {any} (es : list (@TMDB.raw_item any)) l :
  Forall tmdb_images
    (map (fun item => TMDB.processContentItem item (listed_as l item))
       (filter has_images es)).
Proof.
  apply Forall_forall. intros c Hc.
  apply in_map_iff in Hc as (item & <- & Hitem).
  apply filter_In in Hitem as [_ Hitem].
  apply processContentItem_images, Hitem.
Qed.

Lemma processContentList_none {any}
    (items : list (option (@TMDB.raw_item any))) l :
  In None items -> TMDB.processContentList items l = Throw TypeError.
Proof.
  intros H. unfold TMDB.processContentList.
  rewrite (filterM_deref_none _ _ H). reflexivity.
Qed.

Lemma processContentList_normal {any}
    (items : list (option (@TMDB.raw_item any))) l out :
  TMDB.processContentList items l = Normal out ->
  ~ In None items
  /\ Forall tmdb_images out
  /\ (List.length out <= List.length items)%nat
  /\ forall m, l = TMDB.only m ->
       Forall (fun c => TMDB.media_type c = Some (TMDB.media_text m)) out.
Proof.
  intros Hout.
  destruct (somes_or_none items) as [(es & ->)|H];
    [|rewrite (processContentList_none items l H) in Hout; discriminate].
  rewrite processContentList_somes in Hout. injection Hout as <-.
  split; [|split; [|split]].
  - intros H. apply in_map_iff in H as (x & [=] & _).
  - apply processed_images.
  - rewrite !length_map. apply filter_length_le.
  - intros m ->. apply Forall_forall. intros c Hc.
    apply in_map_iff in Hc as (item & <- & _). reflexivity.
Qed.


(** ** Searching *)









(** ** Similar titles and categories *)

Lemma In_firstn {A} (x : A) n l : In x (firstn n l) -> In x l.
Proof.
  revert l; induction n as [|n IH]; intros [|y l] H; cbn [firstn] in H;
    try contradiction.
  destruct H as [->|H]; [left; reflexivity|right; apply IH, H].
Qed.

Lemma resolves_inj {A} (x y : A) : TMDB.Resolves x = TMDB.Resolves y -> x = y.
Proof. congruence. Qed.

(** X22: what [getSimilarByGenre] resolves to has at most ten items, none
    with the excluded id, all of the requested media type and with both
    images from TMDB; without a genre it resolves to the empty list and
    sends nothing; and, having no handler of its own, it rejects whenever
    the call to TMDB does. *)
Theorem getSimilarByGenre_results {any} (b : TMDB.browser (@TMDB.results any))
    now later cache idToExclude m genres :
  let r := TMDB.getSimilarByGenre b now later cache idToExclude m genres in
  (forall out, TMDB.result r = TMDB.Resolves out ->
     (List.length out <= 10)%nat
     /\ Forall (fun c => TMDB.strict_eq (TMDB.id c) idToExclude = false
                         /\ TMDB.media_type c = Some (TMDB.media_text m)
                         /\ tmdb_images c) out)
  /\ (genres = None \/ genres = Some [] ->
      r = {| TMDB.result := TMDB.Resolves []; TMDB.apiCache := cache;
             TMDB.sent := [] |})
  /\ (forall genreId name rest f,
        genres = Some ((genreId, name) :: rest) ->
        TMDB.result
          (TMDB.fetchFromTMDB b now later cache
             (match m with movie => str "discover/movie" | tv => str "discover/tv" end)
             (str "with_genres=" ++ toString genreId
              ++ str "&sort_by=popularity.desc"))
        = TMDB.Rejects f ->
        TMDB.result r = TMDB.Rejects f).
Proof.
  intros r. subst r. split; [|split].
  - intros out Hout. unfold TMDB.getSimilarByGenre in Hout.
    destruct genres as [[|[genreId name] rest]|];
      [injection Hout as <-; split; [cbn; lia|constructor]|
      |injection Hout as <-; split; [cbn; lia|constructor]].
    cbn [TMDB.result] in Hout.
    destruct (TMDB.result (TMDB.fetchFromTMDB _ _ _ _ _ _)) as [[items|]|f];
      [|discriminate|discriminate].
    cbn [TMDB.results_of deref] in Hout.
    destruct (TMDB.processContentList items (TMDB.only m)) as [similar|e] eqn:E;
      [|discriminate].
    apply resolves_inj in Hout. subst out.
    destruct (processContentList_normal items (TMDB.only m) similar E)
      as (_ & Himg & _ & Hm).
    specialize (Hm m eq_refl).
    split; [apply firstn_le_length|].
    apply Forall_forall. intros c Hc.
    apply In_firstn in Hc.
    apply filter_In in Hc as [Hc Hid].
    rewrite Forall_forall in Himg, Hm.
    split; [apply negb_true_iff, Hid|]. split; [apply Hm, Hc|apply Himg, Hc].
  - intros [->| ->]; reflexivity.
  - intros genreId name rest f -> Hf. unfold TMDB.getSimilarByGenre.
    cbn [TMDB.result]. rewrite Hf. reflexivity.
Qed.

Lemma getSimilarByGenre_results_witness :
  let out := [TMDB.processContentItem TMDBSample.dune (Some (str "movie"))] in
  (List.length out <= 10)%nat
  /\ Forall (fun c => TMDB.strict_eq (TMDB.id c) (Int 1399) = false
                      /\ TMDB.media_type c = Some (TMDB.media_text movie)
                      /\ tmdb_images c) out.
Proof.
  intros out.
  apply (proj1 (getSimilarByGenre_results TMDBSample.online 0 5 [] (Int 1399)
                  movie (Some [(Int 878, str "Science Fiction")]))).
  vm_compute. reflexivity.
Defined.




(** ** The download modal *)

(** *** Upstreams that give numbers for seeds *)


















(** A movie whose YTS torrent has seeds that cannot be converted: the
    modal is left loading. *)
Example loadTorrents_unconvertible_seeds :
  Modal.rejection
    (loadTorrents ModalSample.tmdb Sample.unconvertible 0 5 []
       ModalSample.known None None)
  = Some TypeError
  /\ Modal.isLoading
       (Modal.modal
          (loadTorrents ModalSample.tmdb Sample.unconvertible 0 5 []
             ModalSample.known None None))
     = true.
Proof. split; vm_compute; reflexivity. Qed.

Lemma fetchMovieDownloads_requests_bound w query kind imdbId :
  (List.length (requests (fetchMovieDownloads w query kind imdbId)) <= 3)%nat.
Proof.
  rewrite fetchMovieDownloads_requests.
  destruct query as [|c q]; [cbn [List.length]; lia|].
  destruct (encodeURIComponent (trim (c :: q))) as [enc|e];
    [|cbn [List.length]; lia].
  rewrite sources_requests, !length_app.
  assert (Hone : forall r : completion jsstring,
             (List.length match r with Normal u => [u] | Throw _ => [] end <= 1)%nat)
    by (intros [u|e]; cbn [List.length]; lia).
  pose proof (Hone (apibay_request enc)). pose proof (Hone (solid_request enc)).
  destruct kind.
  - pose proof (Hone (yts_request enc imdbId)). lia.
  - destruct (cleanImdbId imdbId) as [[|x r]|]; cbn [List.length]; try lia.
    pose proof (Hone (eztv_request (x :: r))). lia.
Qed.

Lemma lookupImdbId_sent {any} (b : TMDB.browser (@TMDB.details any))
    now later cache (content : @TMDB.ContentItem any) :
  (truthy (TMDB.imdb_id content) = true ->
   lookupImdbId b now later cache content = (TMDB.imdb_id content, cache, []))
  /\ (snd (lookupImdbId b now later cache content) = []
      \/ snd (lookupImdbId b now later cache content)
         = [details_url content (TMDB.includeAdult b)]).
Proof.
  unfold lookupImdbId. destruct (truthy (TMDB.imdb_id content)).
  - split; [reflexivity|left; reflexivity].
  - split; [discriminate|]. cbn [snd]. unfold TMDB.getMovieDetails.
    cbn [TMDB.sent]. unfold details_url.
    destruct (fetchFromTMDB_cases b now later cache
                (TMDB.template (TMDB.media_type content) ++ str "/"
                 ++ toString (TMDB.id content))
                (str "append_to_response=videos,credits,seasons,external_ids"))
      as [(c & _ & ->)|(_ & [(f & ->)|(d & ->)])]; cbn [TMDB.sent]; auto.
Qed.

(** X25: [loadTorrents] asks TMDB for the details only when the content
    has no IMDb id of its own, and then with at most one request, for that
    content.  For a movie, an empty list is shown only if the search by
    title alone is empty; and a run sends at most six requests to the
    torrent sources for a movie and three for a TV show. *)
Theorem loadTorrents_lookup_and_fallback {any}
    (b : TMDB.browser (@TMDB.details any)) w now later cache
    (content : @TMDB.ContentItem any) season episode :
  let l := loadTorrents b w now later cache content season episode in
  (truthy (TMDB.imdb_id content) = true ->
   Modal.sent l = [] /\ Modal.apiCache l = cache)
  /\ (Modal.sent l = []
      \/ Modal.sent l = [details_url content (TMDB.includeAdult b)])
  /\ (is_movie (TMDB.media_type content) = true ->
      Modal.rejection l = None ->
      Modal.torrents (Modal.modal l) = [] ->
      outcome (fetchMovieDownloads w (query_text (TMDB.title content)) movie None)
      = Normal [])
  /\ (List.length (Modal.relayed l)
      <= if is_movie (TMDB.media_type content) then 6 else 3)%nat.
Proof.
  intros l. subst l. unfold loadTorrents.
  destruct (lookupImdbId_sent b now later cache content) as [Hknown Hsent].
  destruct (lookupImdbId b now later cache content) as [[imdbId cache'] sent].
  cbn [snd] in Hsent.
  cbn [Modal.sent Modal.apiCache Modal.rejection Modal.modal Modal.relayed].
  split; [|split; [exact Hsent|split]].
  - intros H. specialize (Hknown H). inversion Hknown. auto.
  - intros Hmovie.
    destruct (outcome (searchTorrents w (TMDB.title content)
                         (TMDB.media_type content) season episode imdbId))
      as [results|e] eqn:E; [|discriminate].
    intros _ Hempty. cbn [Modal.torrents] in Hempty. subst results.
    unfold searchTorrents in E. rewrite Hmovie, outcome_bind in E.
    destruct (outcome (if truthy imdbId then _ else _)) as [[|t ts]|e];
      [exact E|discriminate E|discriminate E].
  - unfold searchTorrents. destruct (is_movie (TMDB.media_type content)).
    + rewrite requests_bind, length_app.
      assert (H1 : (List.length
                      (requests (if truthy imdbId
                                 then fetchMovieDownloads w
                                        (query_text (TMDB.title content)) movie imdbId
                                 else ret [])) <= 3)%nat).
      { destruct (truthy imdbId); [apply fetchMovieDownloads_requests_bound|].
        cbn. lia. }
      assert (H2 : (List.length
                      match outcome (if truthy imdbId
                                     then fetchMovieDownloads w
                                            (query_text (TMDB.title content)) movie imdbId
                                     else ret []) with
                      | Normal a =>
                          requests match a with
                                   | [] => fetchMovieDownloads w
                                             (query_text (TMDB.title content)) movie None
                                   | _ :: _ => ret a
                                   end
                      | Throw _ => []
                      end <= 3)%nat).
      { destruct (outcome _) as [[|t ts]|e];
          [apply fetchMovieDownloads_requests_bound|cbn; lia|cbn; lia]. }
      lia.
    + apply fetchMovieDownloads_requests_bound.
Qed.

Lemma loadTorrents_lookup_and_fallback_witness :
  let l := loadTorrents ModalSample.tmdb Sample.online 0 5 []
             ModalSample.known None None in
  Modal.sent l = [] /\ Modal.apiCache l = [].
Proof.
  intros l.
  apply (proj1 (loadTorrents_lookup_and_fallback ModalSample.tmdb Sample.online
                  0 5 [] ModalSample.known None None)).
  reflexivity.
Defined.
(** ** The hero carousel *)

Lemma nextSlide_iter length i n :
  (0 <= i < Z.of_nat length)%Z ->
  Nat.iter n (HeroSection.nextSlide length) i
  = ((i + Z.of_nat n) mod Z.of_nat length)%Z.
Proof.
  intros Hi. induction n as [|n IH].
  - change (Nat.iter 0 (HeroSection.nextSlide length) i) with i.
    rewrite Z.add_0_r, Z.mod_small; [reflexivity|exact Hi].
  - change (Nat.iter (S n) (HeroSection.nextSlide length) i)
      with (HeroSection.nextSlide length
              (Nat.iter n (HeroSection.nextSlide length) i)).
    rewrite IH. unfold HeroSection.nextSlide.
    destruct (0 <? Z.of_nat length)%Z eqn:E; [|apply Z.ltb_ge in E; lia].
    apply Z.ltb_lt in E.
    pose proof (Z.mod_pos_bound (i + Z.of_nat n) (Z.of_nat length) E) as Hb.
    rewrite Z.rem_mod_nonneg by lia.
    rewrite Zplus_mod_idemp_l. f_equal. lia.
Qed.

(** X26: the carousel stays on a slide.  From an index within the items,
    any number of ticks of [nextSlide] leaves the index within the items
    (so the current item is always defined); [n] ticks move it [n] places
    forward, cyclically; after as many ticks as there are items it is back
    where it was; and every slide is reached. *)
Theorem nextSlide_stays_on_a_slide length i :
  (0 <= i < Z.of_nat length)%Z ->
  (forall n,
     (0 <= Nat.iter n (HeroSection.nextSlide length) i < Z.of_nat length)%Z
     /\ Nat.iter n (HeroSection.nextSlide length) i
        = ((i + Z.of_nat n) mod Z.of_nat length)%Z)
  /\ Nat.iter length (HeroSection.nextSlide length) i = i
  /\ (forall j, (0 <= j < Z.of_nat length)%Z ->
        exists n, (n < length)%nat
                  /\ Nat.iter n (HeroSection.nextSlide length) i = j).
Proof.
  intros Hi. split; [|split].
  - intros n. rewrite (nextSlide_iter length i n Hi).
    split; [apply Z.mod_pos_bound; lia|reflexivity].
  - rewrite (nextSlide_iter length i length Hi).
    rewrite <- (Z.mul_1_l (Z.of_nat length)) at 1.
    rewrite Z.mod_add by lia. apply Z.mod_small, Hi.
  - intros j Hj. exists (Z.to_nat ((j - i) mod Z.of_nat length)).
    pose proof (Z.mod_pos_bound (j - i) (Z.of_nat length) ltac:(lia)) as Hb.
    split; [lia|].
    rewrite (nextSlide_iter length i _ Hi), Z2Nat.id by lia.
    rewrite Zplus_mod_idemp_r.
    replace (i + (j - i))%Z with j by lia. apply Z.mod_small, Hj.
Qed.

Lemma nextSlide_stays_on_a_slide_witness :
  Nat.iter 5 (HeroSection.nextSlide 5) 3%Z = 3%Z.
Proof.
  apply (proj1 (proj2 (nextSlide_stays_on_a_slide 5 3%Z ltac:(lia)))).
Defined.

Lemma filter_Boolean_In {A} (a : A) l :
  In a (HeroSection.filter_Boolean l) <-> In (Some a) l.
Proof.
  unfold HeroSection.filter_Boolean. rewrite in_flat_map. split.
  - intros ([x|] & Hx & Ha); [|destruct Ha].
    destruct Ha as [->|[]]. exact Hx.
  - intros H. exists (Some a). split; [exact H|left; reflexivity].
Qed.

Lemma filter_Boolean_length {A} (l : list (option A)) :
  (List.length (HeroSection.filter_Boolean l) <= List.length l)%nat.
Proof.
  unfold HeroSection.filter_Boolean.
  induction l as [|[a|] l IH]; cbn [flat_map app List.length]; lia.
Qed.

(** X27: the genres the carousel displays.  An item with genres of its own
    shows exactly those.  Otherwise every genre shown is a known genre
    whose id is one of the item's genre ids; no more genres are shown than
    the item has ids; and when each of these ids is known, one genre is
    shown per id, in the order of the ids. *)
Theorem displayGenres_come_from_the_item {any}
    (currentItem : @TMDB.ContentItem any) (genres : list TMDB.Genre) :
  (TMDB.genres currentItem <> [] ->
   HeroSection.displayGenres currentItem genres = TMDB.genres currentItem)
  /\ (TMDB.genres currentItem = [] ->
      (forall g, In g (HeroSection.displayGenres currentItem genres) ->
         In g genres
         /\ exists id, In id (TMDB.genre_ids currentItem)
                       /\ TMDB.strict_eq (fst g) id = true)
      /\ (List.length (HeroSection.displayGenres currentItem genres)
          <= List.length (TMDB.genre_ids currentItem))%nat
      /\ ((forall id, In id (TMDB.genre_ids currentItem) ->
             exists g, In g genres /\ TMDB.strict_eq (fst g) id = true) ->
          Forall2 (fun g id => In g genres /\ TMDB.strict_eq (fst g) id = true)
            (HeroSection.displayGenres currentItem genres)
            (TMDB.genre_ids currentItem))).
Proof.
  unfold HeroSection.displayGenres. split.
  - destruct (TMDB.genres currentItem); [congruence|reflexivity].
  - intros ->. destruct genres as [|g0 genres].
    + split; [intros g []|]. split; [cbn; lia|].
      intros Hknown. destruct (TMDB.genre_ids currentItem) as [|id ids];
        [constructor|].
      destruct (Hknown id (or_introl eq_refl)) as (g & [] & _).
    + set (known := g0 :: genres). clearbody known.
      generalize (TMDB.genre_ids currentItem). intros ids.
      split; [|split].
      * intros g Hg. apply filter_Boolean_In, in_map_iff in Hg
          as (id & Hfind & Hid).
        apply find_some in Hfind as [Hin Heq]. eauto.
      * etransitivity; [apply filter_Boolean_length|].
        rewrite length_map. reflexivity.
      * induction ids as [|id ids IH]; intros Hknown; [constructor|].
        cbn [map HeroSection.filter_Boolean flat_map].
        destruct (find (fun g => TMDB.strict_eq (fst g) id) known) as [g|] eqn:E.
        -- apply find_some in E as [Hin Heq]. cbn [app]. constructor; [auto|].
           apply IH. intros id' Hid'. apply Hknown. right. exact Hid'.
        -- destruct (Hknown id (or_introl eq_refl)) as (g & Hin & Heq).
           pose proof (find_none _ _ E g Hin) as Hno. cbn beta in Hno. congruence.
Qed.

Lemma displayGenres_come_from_the_item_witness :
  let known := [(Int 12, str "Adventure"); (Int 878, str "Science Fiction")] in
  let item := TMDB.processContentItem TMDBSample.dune (Some (str "movie")) in
  Forall2 (fun g id => In g known /\ TMDB.strict_eq (fst g) id = true)
    (HeroSection.displayGenres item known) (TMDB.genre_ids item).
Proof.
  intros known item.
  apply (proj2 (displayGenres_come_from_the_item item known)); [reflexivity|].
  intros id [<-|[<-|[]]].
  - exists (Int 878, str "Science Fiction").
    split; [right; left; reflexivity|reflexivity].
  - exists (Int 12, str "Adventure").
    split; [left; reflexivity|reflexivity].
Defined.

(** ** The cloud link of the download modal *)

Lemma ascii_text_app a b : ascii_text a -> ascii_text b -> ascii_text (a ++ b).
Proof. intros Ha Hb. apply Forall_app. split; assumption. Qed.

(** The magnet link holds what the candidate and the title hold, and ASCII
    characters. *)
Lemma getMagnetLink_Forall (P : N -> Prop) title torrent m :
  (forall c, c < 128 -> P c) ->
  code_units title ->
  Forall P (url torrent) -> Forall P (hash torrent) ->
  getMagnetLink title torrent = Normal m ->
  Forall P m.
Proof.
  intros HP Ht Hu Hh. unfold getMagnetLink.
  destruct (match url torrent with
            | [] => false
            | _ :: _ => startsWith (str "magnet:") (url torrent)
            end).
  - intros H. apply (f_equal (fun c => match c with
                                       | Normal x => Some x
                                       | Throw _ => None
                                       end)) in H.
    cbv beta iota in H. apply some_inj in H. subst m. exact Hu.
  - destruct (encodeURIComponent title) as [dn|] eqn:E; [|discriminate].
    intros H. apply (f_equal (fun c => match c with
                                       | Normal x => x
                                       | Throw _ => []
                                       end)) in H.
    cbv beta iota delta [cmap] in H. subst m.
    assert (Hlit : forall s, ascii_text s -> Forall P s)
      by (intros s; apply Forall_impl; exact HP).
    apply Forall_app. split; [apply Hlit; ascii_literal|].
    apply Forall_app. split; [exact Hh|].
    apply Forall_app. split; [apply Hlit; ascii_literal|].
    apply Forall_app. split; [|apply Hlit; ascii_literal].
    apply Hlit, uri_safe_ascii. eapply encodeURIComponent_safe; eassumption.
Qed.

(** X28: the cloud link.  For a candidate and a title made of UTF-16 code
    units, whatever [getFastServerLink] returns is the webtor address
    followed by the percent-encoded magnet link, in which only unreserved
    characters and percent signs occur; and when the candidate's URL and
    hash and the title are ASCII, it does return a link. *)
Theorem getFastServerLink_is_encoded title torrent :
  code_units title -> code_units (url torrent) -> code_units (hash torrent) ->
  (forall link, getFastServerLink title torrent = Normal link ->
     exists e, link = str "https://webtor.io/show?magnet=" ++ e /\ uri_safe e)
  /\ (ascii_text title -> ascii_text (url torrent) -> ascii_text (hash torrent) ->
      exists link, getFastServerLink title torrent = Normal link).
Proof.
  intros Ht Hu Hh. unfold getFastServerLink. split.
  - intros link.
    destruct (getMagnetLink title torrent) as [magnet|] eqn:E; [|discriminate].
    assert (Hm : code_units magnet).
    { apply (getMagnetLink_Forall _ title torrent magnet); auto.
      intros c Hc. lia. }
    destruct (encodeURIComponent magnet) as [e|] eqn:Ee; [|discriminate].
    intros H. apply (f_equal (fun c => match c with
                                       | Normal x => x
                                       | Throw _ => []
                                       end)) in H.
    cbv beta iota delta [cmap] in H. subst link.
    exists e. split; [reflexivity|].
    eapply encodeURIComponent_safe; eassumption.
  - intros At Au Ah.
    assert (Hmagnet : exists magnet, getMagnetLink title torrent = Normal magnet).
    { unfold getMagnetLink.
      destruct (match url torrent with
                | [] => false
                | _ :: _ => startsWith (str "magnet:") (url torrent)
                end); [eexists; reflexivity|].
      destruct (encodeURIComponent_ascii title At) as (dn & ->).
      eexists. reflexivity. }
    destruct Hmagnet as (magnet & E). rewrite E.
    assert (Hm : ascii_text magnet)
      by (apply (getMagnetLink_Forall _ title torrent magnet); auto).
    destruct (encodeURIComponent_ascii magnet Hm) as (e & ->).
    eexists. reflexivity.
Qed.

Lemma getFastServerLink_is_encoded_witness :
  exists link,
    getFastServerLink (str "Dune: Part Two")
      {| url := str "https://yts.mx/torrent/download/AAA"; hash := str "AAA";
         quality := str "1080p"; type := str "bluray"; seeds := Number (Int 120);
         peers := Int 14; size := str "2.1 GB"; date_uploaded := [] |}
    = Normal link.
Proof.
  apply (getFastServerLink_is_encoded (str "Dune: Part Two")
           {| url := str "https://yts.mx/torrent/download/AAA"; hash := str "AAA";
              quality := str "1080p"; type := str "bluray"; seeds := Number (Int 120);
              peers := Int 14; size := str "2.1 GB"; date_uploaded := [] |});
    try apply str_code_units; ascii_literal.
Defined.
